(** * ChemEx: spin-system labels, parameter merging, CEST containers and
      CPMG phase cycles

    A shallow embedding of the parts of ChemEx that its specification makes
    testable statements about:

    - [chemex/nmr/spin_system.py]      (modules [SpinSystemPy], [SpinSystemOps])
    - [chemex/parameters/helper.py]    (modules [ParamHelper], [SettingsPy])
    - [chemex/containers/cest.py]      (modules [Cest], [CestOps])
    - [chemex/experiments/cest_15n_cw.py]   (in module [Cest])
    - [chemex/experiments/cpmg_hn_dq_zq.py] (modules [CpmgHnDqZq], [CpmgDelays])
    - [chemex/optimize/minimizer.py]   (module [MinimizerPy])
    - [chemex/__main__.py]             (module [MainPy])
    - [chemex/experiments/cest/reading.py]  (module [ReadingPy])

    Python [str] values are lists of characters; the model covers code points
    below 128, where [str.upper] and [str.strip] are the ASCII operations
    written out below.  Python [float] values are modelled by exact rationals
    [Q]; every statement below that involves them is about comparisons and
    about the shape of the arrays, never about rounding. *)

From Stdlib Require Import List Ascii String Bool Arith ZArith NArith Lia.
From Stdlib Require Import QArith Qround Qabs.
From Stdlib Require Import DecimalString DecimalN DecimalFacts.
Import ListNotations.

Close Scope Q_scope.
Close Scope Z_scope.
Close Scope N_scope.
Open Scope nat_scope.
Open Scope list_scope.

Set Implicit Arguments.

(* [length] is the length of a list throughout. *)
Abbreviation length := List.length (only parsing).

(* ------------------------------------------------------------------ *)
(** ** Python strings *)

Module PyStr.

Definition str := list ascii.

Definition lit (s : string) : str := list_ascii_of_string s.

Definition str_eqb (a b : str) : bool :=
  if list_eq_dec ascii_dec a b then true else false.

Definition code (c : ascii) : nat := nat_of_ascii c.

(** Code points below 128: the domain on which the model of [upper] and
    [strip] is exact. *)
Definition is_ascii7 (c : ascii) : bool := code c <? 128.

Definition is_digit (c : ascii) : bool := (48 <=? code c) && (code c <=? 57).

Definition is_lower (c : ascii) : bool := (97 <=? code c) && (code c <=? 122).

(** [str.isspace] on code points below 128: TAB, LF, VT, FF, CR, the four
    separators FS, GS, RS, US, and SPACE. *)
Definition is_space (c : ascii) : bool :=
  ((9 <=? code c) && (code c <=? 13))
  || ((28 <=? code c) && (code c <=? 31))
  || (code c =? 32).

Definition upper_char (c : ascii) : ascii :=
  if is_lower c then ascii_of_nat (code c - 32) else c.

(** [s.upper()] *)
Definition upper (s : str) : str := map upper_char s.

Fixpoint drop_while (p : ascii -> bool) (s : str) : str :=
  match s with
  | [] => []
  | c :: r => if p c then drop_while p r else s
  end.

Fixpoint take_while (p : ascii -> bool) (s : str) : str :=
  match s with
  | [] => []
  | c :: r => if p c then c :: take_while p r else []
  end.

Definition lstrip (s : str) : str := drop_while is_space s.
Definition rstrip (s : str) : str := rev (drop_while is_space (rev s)).

(** [s.strip()] *)
Definition strip (s : str) : str := rstrip (lstrip s).

(** [re.search("[...]", s)] for a one-character class: the index of the
    first character in the class. *)
Fixpoint find_idx (p : ascii -> bool) (s : str) : option nat :=
  match s with
  | [] => None
  | c :: r => if p c then Some 0 else option_map S (find_idx p r)
  end.

(** [s.startswith(prefix)] *)
Fixpoint startswith (s prefix : str) : bool :=
  match prefix, s with
  | [], _ => true
  | _ :: _, [] => false
  | p :: ps, c :: r => if ascii_dec c p then startswith r ps else false
  end.

(** [s.split(sep)] for a one-character separator: never the empty list. *)
Fixpoint split_on (sep : ascii) (s : str) : list str :=
  match s with
  | [] => [[]]
  | c :: r =>
      if ascii_dec c sep then [] :: split_on sep r
      else match split_on sep r with
           | [] => [[c]]
           | w :: ws => (c :: w) :: ws
           end
  end.

(** [sep.join(parts)] *)
Fixpoint join (sep : str) (parts : list str) : str :=
  match parts with
  | [] => []
  | [p] => p
  | p :: ps => p ++ sep ++ join sep ps
  end.

(** [int(digits)] for a run of decimal digits. *)
Definition digit_val (c : ascii) : N := N.of_nat (code c - 48).

Definition int_of_digits (s : str) : N :=
  fold_left (fun acc c => (10 * acc + digit_val c)%N) s 0%N.

(** [str(n)] for a non-negative integer. *)
Definition str_of_N (n : N) : str :=
  list_ascii_of_string (NilEmpty.string_of_uint (N.to_uint n)).

(** [str(z)] / [f"{z}"] for an integer. *)
Definition str_of_Z (z : Z) : str :=
  match z with
  | Zneg p => "-"%char :: str_of_N (Npos p)
  | _ => str_of_N (Z.to_N z)
  end.

(** [d.get(key, default)] on a dictionary kept as an association list. *)
Fixpoint dict_get {V : Type} (d : list (str * V)) (k : str) : option V :=
  match d with
  | [] => None
  | (k', v) :: r => if str_eqb k' k then Some v else dict_get r k
  end.

(** [k in d] *)
Definition has_key {V : Type} (d : list (str * V)) (k : str) : bool :=
  match dict_get d k with Some _ => true | None => false end.

(** [d[k] = v]: an existing key keeps its place, a new key goes last. *)
Fixpoint dict_set {V : Type} (d : list (str * V)) (k : str) (v : V)
  : list (str * V) :=
  match d with
  | [] => [(k, v)]
  | (k', v') :: r =>
      if str_eqb k' k then (k', v) :: r else (k', v') :: dict_set r k v
  end.

(** [k in l] for a set or list of strings. *)
Definition mem (k : str) (l : list str) : bool := existsb (str_eqb k) l.

End PyStr.

(* ------------------------------------------------------------------ *)
(** ** [chemex/nmr/spin_system.py] *)

Module SpinSystemPy.
Import PyStr.

(** [ALIASES = "isx"], iterated character by character. *)
Definition ALIASES : list str := [lit "i"; lit "s"; lit "x"].

Inductive Nucleus := H1 | N15 | C13.

(** [STR_TO_NUCLEUS.get(name[:1])] *)
Definition STR_TO_NUCLEUS (first : str) : option Nucleus :=
  dict_get [(lit "H", H1); (lit "Q", H1); (lit "M", H1);
            (lit "N", N15); (lit "C", C13)] first.

Definition AAA_TO_A : list (str * str) :=
  [(lit "ALA", lit "A"); (lit "ARG", lit "R"); (lit "ASN", lit "N");
   (lit "ASP", lit "D"); (lit "CYS", lit "C"); (lit "GLN", lit "Q");
   (lit "GLU", lit "E"); (lit "GLY", lit "G"); (lit "HIS", lit "H");
   (lit "ILE", lit "I"); (lit "LEU", lit "L"); (lit "LYS", lit "K");
   (lit "MET", lit "M"); (lit "PHE", lit "F"); (lit "PRO", lit "P");
   (lit "SER", lit "S"); (lit "THR", lit "T"); (lit "TRP", lit "W");
   (lit "TYR", lit "Y"); (lit "VAL", lit "V")].

Definition CORRECT_ATOM_NAME : list (str * str) :=
  [(lit "HN", lit "H"); (lit "C'", lit "C"); (lit "CO", lit "C")].

Definition STANDARD_ATOM_NAMES : list str :=
  map lit
  ["C"; "CA"; "CB"; "CD"; "CD1"; "CD2"; "CE"; "CE1"; "CE2"; "CE3"; "CG";
   "CG1"; "CG2"; "CH2"; "CQD"; "CQE"; "CQG"; "CZ"; "CZ2"; "CZ3"; "H"; "H2";
   "H3"; "HA"; "HA2"; "HA3"; "HB"; "HB1"; "HB2"; "HB3"; "HD"; "HD1"; "HD11";
   "HD12"; "HD13"; "HD2"; "HD21"; "HD22"; "HD23"; "HD3"; "HE"; "HE1"; "HE2";
   "HE21"; "HE22"; "HE3"; "HG"; "HG1"; "HG11"; "HG12"; "HG13"; "HG2"; "HG21";
   "HG22"; "HG23"; "HG3"; "HH"; "HH1"; "HH11"; "HH12"; "HH2"; "HH21"; "HH22";
   "HZ"; "HZ1"; "HZ2"; "HZ3"; "MB"; "MD"; "MD1"; "MD2"; "ME"; "MG"; "MG1";
   "MG2"; "MZ"; "N"; "ND1"; "ND2"; "NE"; "NE1"; "NE2"; "NH"; "NH1"; "NH2";
   "NQH"; "NZ"; "QA"; "QB"; "QD"; "QD2"; "QE"; "QE2"; "QG"; "QG1"; "QH1";
   "QH2"; "QMD"; "QMG"; "QQH"; "QR"; "QZ"]%string.

(** The character class [[HCNQM]]. *)
Definition is_atom_letter (c : ascii) : bool :=
  existsb (fun l => if ascii_dec c l then true else false)
          ["H"; "C"; "N"; "Q"; "M"]%char.

(** [d.get(k, k)] *)
Definition get_or_self (d : list (str * str)) (k : str) : str :=
  match dict_get d k with Some v => v | None => k end.

(** *** Atom *)

Record Atom := mkAtom { atom_name : str; atom_nucleus : option Nucleus }.

(** [Atom.__init__] *)
Definition Atom_init (name : str) : Atom :=
  let name := upper (strip name) in
  let name := get_or_self CORRECT_ATOM_NAME name in
  mkAtom name (STR_TO_NUCLEUS (firstn 1 name)).

(** [Atom.match]: [other.name.startswith(self.name)] *)
Definition Atom_match (self other : Atom) : bool :=
  startswith (atom_name other) (atom_name self).

(** *** Group *)

Definition NO_NUMBER : Z := (-100000000)%Z.

Record Group := mkGroup {
  group_name : str;
  group_symbol : str;
  group_number : Z;
  group_suffix : str
}.

(** [Group.parse_group]: [search("[0-9]+", name)] finds the first maximal
    run of digits. *)
Definition parse_group (name : str) : str * Z * str :=
  match find_idx is_digit (upper (strip name)) with
  | Some start =>
      let run := take_while is_digit (skipn start (upper (strip name))) in
      let stop := start + length run in
      (firstn start name, Z.of_N (int_of_digits run), skipn stop name)
  | None => (name, NO_NUMBER, [])
  end.

(** [Group.get_name] *)
Definition Group_get_name (symbol : str) (number : Z) (suffix : str) : str :=
  let number := if Z.eqb number NO_NUMBER then [] else str_of_Z number in
  symbol ++ number ++ suffix.

(** [Group.__init__] *)
Definition Group_init (name : str) : Group :=
  let '(symbol, number, suffix) := parse_group (upper (strip name)) in
  let symbol := get_or_self AAA_TO_A symbol in
  mkGroup (Group_get_name symbol number suffix) symbol number suffix.

(** [Group.match]: its three local variables, and their conjunction. *)
Definition symbol_match (self other : Group) : bool :=
  str_eqb (group_symbol other) (group_symbol self)
  || str_eqb (group_symbol self) [].

Definition number_match (self other : Group) : bool :=
  Z.eqb (group_number other) (group_number self)
  || Z.eqb (group_number self) NO_NUMBER.

Definition suffix_match (self other : Group) : bool :=
  str_eqb (group_suffix other) (group_suffix self)
  || str_eqb (group_suffix self) [].

Definition Group_match (self other : Group) : bool :=
  number_match self other && symbol_match self other && suffix_match self other.

(** [Group.__eq__] and [Group.__bool__] *)
Definition Group_eq (a b : Group) : bool := str_eqb (group_name a) (group_name b).
Definition Group_bool (g : Group) : bool := negb (str_eqb (group_name g) []).

(** *** Spin *)

Record Spin := mkSpin { spin_name : str; spin_group : Group; spin_atom : Atom }.

(** [Spin.split_group_atom] *)
Definition split_group_atom (name : str) : Group * Atom :=
  if str_eqb name (lit "?") then (Group_init [], Atom_init [])
  else
    let first_digit :=
      match find_idx is_digit name with Some i => i | None => 0 end in
    match find_idx is_atom_letter (skipn first_digit name) with
    | None =>
        if mem name STANDARD_ATOM_NAMES then (Group_init [], Atom_init name)
        else (Group_init name, Atom_init [])
    | Some k =>
        let atom_index := first_digit + k in
        (Group_init (firstn atom_index name), Atom_init (skipn atom_index name))
    end.

(** [Spin.get_name] *)
Definition Spin_get_name (g : Group) (a : Atom) : str :=
  group_name g ++ atom_name a.

(** [Spin.__init__]; [group_for_completion] is [None] or a group. *)
Definition Spin_init (name : str) (group_for_completion : option Group) : Spin :=
  let '(group, atom) := split_group_atom (upper (strip name)) in
  let group :=
    match group_for_completion with
    | Some g => if negb (Group_bool group) && Group_bool g then g else group
    | None => group
    end in
  mkSpin (Spin_get_name group atom) group atom.

(** [Spin.match] *)
Definition Spin_match (self other : Spin) : bool :=
  Group_match (spin_group self) (spin_group other)
  && Atom_match (spin_atom self) (spin_atom other).

(** *** SpinSystem *)

(** [spins] is the dictionary from alias to spin, in insertion order. *)
Record SpinSystem := mkSpinSystem { ss_name : str; ss_spins : list (str * Spin) }.

(** The loop of [SpinSystem.parse_spin_system] over [zip(ALIASES, split)]. *)
Fixpoint parse_loop (pairs : list (str * str)) (last_group : option Group)
  : list (str * Spin) :=
  match pairs with
  | [] => []
  | (short_name, name_spin) :: rest =>
      let spin := Spin_init name_spin last_group in
      (short_name, spin) :: parse_loop rest (Some (spin_group spin))
  end.

(** [SpinSystem.parse_spin_system] *)
Definition parse_spin_system (name : str) : list (str * Spin) :=
  match name with
  | [] => []
  | _ => parse_loop (combine ALIASES (split_on "-"%char name)) None
  end.

(** The loop of [SpinSystem.spins2name]: a spin in the group of the spin
    before it is printed by its atom, any other by its stored name. *)
Fixpoint spin_names (spins : list Spin) (last_group : Group) : list str :=
  match spins with
  | [] => []
  | spin :: rest =>
      (if Group_eq (spin_group spin) last_group
       then atom_name (spin_atom spin) else spin_name spin)
      :: spin_names rest (spin_group spin)
  end.

(** [SpinSystem.spins2name] *)
Definition spins2name (spins : list Spin) : str :=
  join (lit "-") (spin_names spins (Group_init [])).

(** [SpinSystem.__init__] on a textual label. *)
Definition SpinSystem_init (name : str) : SpinSystem :=
  let spins := parse_spin_system (upper (strip name)) in
  mkSpinSystem (spins2name (map snd spins)) spins.

(** [SpinSystem.match]: [all(...)] over the zipped spins. *)
Definition SpinSystem_match (self other : SpinSystem) : bool :=
  forallb (fun p => Spin_match (fst p) (snd p))
          (combine (map snd (ss_spins self)) (map snd (ss_spins other))).

(** *** SpinSystem.complete

    [Basis] lives in [chemex/nmr/liouvillian.py]; [complete] reads only its
    [atoms] dictionary, from role alias to nucleus letter (for instance
    [{"i": "n", "s": "h"}]), which is taken here as it is given. *)
Record Basis := mkBasis { basis_atoms : list (str * str) }.

(** [complete] rebinds [spin.atom] on [Spin] objects that it reaches through
    [self.spins] or through the local [Spin("")], and the same object can be
    reached more than once.  The objects are therefore kept in a store and
    named by references. *)
Inductive SpinRef :=
| OwnSpin (letter : str)   (* the object stored at [self.spins[letter]] *)
| FreshSpin.               (* the object created by [last_spin = Spin("")] *)

Record Store := mkStore { st_own : list (str * Spin); st_fresh : Spin }.

Definition deref (st : Store) (r : SpinRef) : Spin :=
  match r with
  | OwnSpin letter =>
      match dict_get (st_own st) letter with
      | Some spin => spin
      | None => st_fresh st
      end
  | FreshSpin => st_fresh st
  end.

(** [spin.atom = a]: the stored [name] of the spin is not recomputed. *)
Definition rebind_atom (spin : Spin) (a : Atom) : Spin :=
  mkSpin (spin_name spin) (spin_group spin) a.

Fixpoint dict_update (d : list (str * Spin)) (k : str) (f : Spin -> Spin)
  : list (str * Spin) :=
  match d with
  | [] => []
  | (k', v) :: r =>
      if str_eqb k' k then (k', f v) :: r else (k', v) :: dict_update r k f
  end.

Definition set_atom (st : Store) (r : SpinRef) (a : Atom) : Store :=
  match r with
  | OwnSpin letter =>
      mkStore (dict_update (st_own st) letter (fun s => rebind_atom s a))
              (st_fresh st)
  | FreshSpin => mkStore (st_own st) (rebind_atom (st_fresh st) a)
  end.

(** The body of the loop over [basis.atoms.items()]. *)
Definition complete_step (letter atom : str) (st : Store) (last_spin : SpinRef)
  : Store * SpinRef :=
  let spin := if has_key (st_own st) letter then OwnSpin letter else last_spin in
  let old := atom_name (spin_atom (deref st spin)) in
  let st :=
    if negb (startswith old (upper atom))
    then set_atom st spin (Atom_init (atom ++ skipn 1 old))
    else st in
  (st, spin).

Fixpoint complete_loop (items : list (str * str)) (st : Store)
  (last_spin : SpinRef) (spins : list SpinRef) : Store * list SpinRef :=
  match items with
  | [] => (st, spins)
  | (letter, atom) :: rest =>
      let '(st, spin) := complete_step letter atom st last_spin in
      complete_loop rest st spin (spins ++ [spin])
  end.

(** [SpinSystem.complete]: the returned spin system, and the receiver as the
    call leaves it. *)
Definition complete (self : SpinSystem) (basis : Basis)
  : SpinSystem * SpinSystem :=
  let st0 := mkStore (ss_spins self) (Spin_init [] None) in
  let '(st, spins) := complete_loop (basis_atoms basis) st0 FreshSpin [] in
  (SpinSystem_init (spins2name (map (deref st) spins)),
   mkSpinSystem (ss_name self) (st_own st)).

End SpinSystemPy.

(* ------------------------------------------------------------------ *)
(** ** [chemex/parameters/helper.py] *)

Module ParamHelper.
Import PyStr.

(** An [lmfit.Parameter], without its name: in an [lmfit.Parameters]
    dictionary the key is the name of the parameter stored under it. *)
Record Param := mkParam {
  p_value : Q;
  p_vary : bool;
  p_min : option Q;
  p_max : option Q;
  p_expr : str
}.

(** An [lmfit.Parameters] dictionary, in insertion order. *)
Definition ParamSet := list (str * Param).

(** The inner loop of [merge], over [params.items()]. *)
Fixpoint merge_items (items : list (str * Param)) (params_ : ParamSet)
  : ParamSet :=
  match items with
  | [] => params_
  | (name, param) :: rest =>
      match dict_get params_ name with
      | Some old =>
          if p_vary old then merge_items rest params_
          else merge_items rest (dict_set params_ name param)
      | None => merge_items rest (dict_set params_ name param)
      end
  end.

(** The outer loop of [merge], over [params_list]. *)
Fixpoint merge_sets (params_list : list ParamSet) (params_ : ParamSet)
  : ParamSet :=
  match params_list with
  | [] => params_
  | params :: rest => merge_sets rest (merge_items params params_)
  end.

(** [merge]: the final [lf.Parameters] holds the values of [params_], each
    under its own name, in the same order. *)
Definition merge (params_list : list ParamSet) : ParamSet :=
  merge_sets params_list [].

(** The keys of a Python dictionary are pairwise distinct. *)
Definition dict_wf {V : Type} (d : list (str * V)) : Prop := NoDup (map fst d).

(** The parameters stored under [name] in the sets of [params_list], in the
    order of the sets. *)
Definition occurrences (name : str) (params_list : list ParamSet) : list Param :=
  flat_map (fun params => match dict_get params name with
                          | Some p => [p]
                          | None => []
                          end) params_list.

Definition last_error {A : Type} (l : list A) : option A := hd_error (rev l).

End ParamHelper.

(* ------------------------------------------------------------------ *)
(** ** numpy arrays of rank one *)

Module Numpy.

(** Operations that raise ([IndexError], [ValueError], [KeyError]) return
    [None]. *)
Definition bind {A B : Type} (x : option A) (k : A -> option B) : option B :=
  match x with Some a => k a | None => None end.

Notation "x <- e ;; k" := (bind e (fun x => k))
  (at level 61, e at next level, right associativity).

Fixpoint map2 {A B C : Type} (f : A -> B -> C) (a : list A) (b : list B)
  : list C :=
  match a, b with
  | x :: a', y :: b' => f x y :: map2 f a' b'
  | _, _ => []
  end.

(** An elementwise binary operation with broadcasting: the lengths agree, or
    one of them is one. *)
Definition np_zip {A B C : Type} (f : A -> B -> C) (a : list A) (b : list B)
  : option (list C) :=
  if length a =? length b then Some (map2 f a b)
  else match a, b with
       | [x], _ => Some (map (f x) b)
       | _, [y] => Some (map (fun x => f x y) a)
       | _, _ => None
       end.

(** [a[m]] for a boolean array [m]: its length must be the length of [a]. *)
Fixpoint select {A : Type} (a : list A) (m : list bool) : list A :=
  match a, m with
  | x :: a', b :: m' => if b then x :: select a' m' else select a' m'
  | _, _ => []
  end.

Definition bool_index {A : Type} (a : list A) (m : list bool)
  : option (list A) :=
  if length a =? length m then Some (select a m) else None.

(** [a[m] = v] for a boolean array [m] and a scalar [v]. *)
Definition bool_assign {A : Type} (a : list A) (m : list bool) (v : A)
  : option (list A) :=
  if length a =? length m
  then Some (map2 (fun x (b : bool) => if b then v else x) a m)
  else None.

(** [a[idx]] for a list of indices. *)
Fixpoint take {A : Type} (a : list A) (idx : list nat) : option (list A) :=
  match idx with
  | [] => Some []
  | i :: rest =>
      x <- nth_error a i ;; xs <- take a rest ;; Some (x :: xs)
  end.

(** [a[i] = v] for each [i] of a list of indices already known to be in
    range. *)
Fixpoint set_at {A : Type} (a : list A) (i : nat) (v : A) : list A :=
  match a, i with
  | [], _ => []
  | _ :: a', O => v :: a'
  | x :: a', S i' => x :: set_at a' i' v
  end.

(** Comparison of rationals as booleans. *)
Definition Qlt_bool (a b : Q) : bool := negb (Qle_bool b a).

(** [x % y] on floats: the result has the sign of [y]; it is [nan] for
    [y == 0], which is [None] here. *)
Definition Qmod (x y : Q) : option Q :=
  if Qeq_bool y 0 then None
  else Some (x - y * inject_Z (Qfloor (x / y)))%Q.

End Numpy.

(* ------------------------------------------------------------------ *)
(** ** [chemex/containers/cest.py] *)

From Stdlib Require Import Sorting.Mergesort Sorting.Sorted Sorting.Permutation Orders.

Module IndexOrder <: TotalLeBool.
Definition t := nat.
Definition leb (a b : nat) : bool := a <=? b.
Theorem leb_total (a b : nat) : leb a b = true \/ leb b a = true.
Proof. unfold leb. rewrite !Nat.leb_le. lia. Qed.
End IndexOrder.

(** [sorted(...)] on a list of indices. *)
Module IndexSort := Sort IndexOrder.

Module Cest.
Import PyStr ParamHelper Numpy.

(** One row of the structured array [points], of dtype
    [("offsets", "f8"), ("intensities", "f8"), ("errors", "f8")]. *)
Record Point := mkPoint { offsets : Q; intensities : Q; errors : Q }.

Record CestData := mkCestData {
  points : list Point;
  refs : list bool;
  mask : list bool;
  filter_offsets : list (Q * Q)
}.

(** The tuple [par_values] handed to the pulse sequence. *)
Definition ParVals := list (str * Q).

(** The pulse sequence bound to a profile: what [CestProfile] calls on it.
    [sw_dante] is [getattr(pulse_seq, "sw_dante", None)]. *)
Record PulseSeq := mkPulseSeq {
  ps_calculate : list Q -> ParVals -> list Q;
  ps_ppms_to_offsets : list Q -> list Q;
  ps_sw_dante : option Q
}.

(** [chemex/experiments/cest_15n_cw.py], [PulseSeq._calculate].  The
    propagator ([chemex/nmr/propagator.py]) enters through the two values it
    yields once [update(params_local)] has run: [detect(pulse_is(time_t1,
    0.0, 0.0, dephased) @ start)] at a given [offset_i], and [detect(start)]. *)
Record Propagator := mkPropagator {
  detect_pulse : ParVals -> Q -> Q;
  detect_start : ParVals -> Q;
  prop_ppms_to_offsets : list Q -> list Q
}.

Definition cest_15n_cw_calculate (prop : Propagator) (offs : list Q)
  (params_local : ParVals) : list Q :=
  map (fun offset =>
         if Qlt_bool (Qabs offset) 10000
         then detect_pulse prop params_local offset
         else detect_start prop params_local)
      offs.

Definition cest_15n_cw (prop : Propagator) : PulseSeq :=
  mkPulseSeq (cest_15n_cw_calculate prop) (prop_ppms_to_offsets prop) None.

(** *** CestData *)

(** [CestData.from_file], once [np.loadtxt] has read [points]. *)
Definition from_file (pts : list Point) (filter_offs : list (Q * Q))
  (filter_planes : list Z) (filter_ref_planes : bool) : CestData :=
  let refs := map (fun p => Qle_bool 10000 (Qabs (offsets p))) pts in
  let mask := repeat true (length pts) in
  let planes_to_filter :=
    filter (fun index => (0 <=? index)%Z && (index <? Z.of_nat (length pts))%Z)
           filter_planes in
  let mask :=
    fold_left (fun m index => set_at m (Z.to_nat index) false)
              planes_to_filter mask in
  let mask :=
    if filter_ref_planes
    then map2 (fun (m r : bool) => if r then false else m) mask refs
    else mask in
  mkCestData pts refs mask filter_offs.

(** [(offsets_ + 0.5 * sw_dante) % sw_dante - 0.5 * sw_dante]; [None] is
    [nan]. *)
Definition dante_wrap (sw_dante : option Q) (offset_ : Q) : option Q :=
  match sw_dante with
  | None => Some offset_
  | Some sw =>
      r <- Qmod (offset_ + (1#2) * sw)%Q sw ;; Some (r - (1#2) * sw)%Q
  end.

(** [abs(offsets_) < filter_bandwidth * 0.5] for one point; a comparison
    with [nan] is false. *)
Definition in_window (sw_dante : option Q) (window : Q * Q) (offset : Q)
  : bool :=
  let '(filter_offset, filter_bandwidth) := window in
  match dante_wrap sw_dante (offset - filter_offset)%Q with
  | Some offset_ => Qlt_bool (Qabs offset_) (filter_bandwidth * (1#2))%Q
  | None => false
  end.

(** The loop of [CestData.filter]; [offs] is [points["offsets"] - cs_offset]. *)
Fixpoint filter_loop (offs : list Q) (sw_dante : option Q)
  (windows : list (Q * Q)) (mask : list bool) : option (list bool) :=
  match windows with
  | [] => Some mask
  | window :: rest =>
      let mask_filter := map (in_window sw_dante window) offs in
      mask <- bool_assign mask mask_filter false ;;
      filter_loop offs sw_dante rest mask
  end.

(** [CestData.filter]: the mask is updated in place. *)
Definition CestData_filter (d : CestData) (cs_offset : Q) (sw_dante : option Q)
  : option CestData :=
  let offs := map (fun p => (offsets p - cs_offset)%Q) (points d) in
  mask <- filter_loop offs sw_dante (filter_offsets d) (mask d) ;;
  Some (mkCestData (points d) (refs d) mask (filter_offsets d)).

(** [np.random.randn(n)]: the draws of the generator are the values of
    [normal]. *)
Definition randn (normal : nat -> Q) (n : nat) : list Q := map normal (seq 0 n).

(** [points["intensities"] = values], with broadcasting of a single value. *)
Definition set_intensities (pts : list Point) (values : list Q)
  : option (list Point) :=
  let put (p : Point) (v : Q) := mkPoint (offsets p) v (errors p) in
  if length values =? length pts then Some (map2 put pts values)
  else match values with
       | [v] => Some (map (fun p => put p v) pts)
       | _ => None
       end.

(** [CestData.monte_carlo] *)
Definition CestData_monte_carlo (normal : nat -> Q) (d : CestData)
  (intensities_ref : list Q) : option CestData :=
  noise <- np_zip Qmult (randn normal (length (points d)))
                        (map errors (points d)) ;;
  values <- np_zip Qplus intensities_ref noise ;;
  pts <- set_intensities (points d) values ;;
  Some (mkCestData pts (refs d) (mask d) (filter_offsets d)).

(** [np.random.choice(pool, size)]: draw number [j] of the call picks the
    element of [pool] at position [pick (start + j)], reduced into range. *)
Definition choice (pick : nat -> nat) (start : nat) (pool : list nat)
  (size : nat) : list nat :=
  map (fun j => nth (pick (start + j) mod length pool) pool 0) (seq 0 size).

(** The indices drawn by [CestData.bootstrap], sorted. *)
Definition bootstrap_indexes (pick : nat -> nat) (d : CestData)
  : option (list nat) :=
  let indexes := seq 0 (length (points d)) in
  sel1 <- np_zip andb (refs d) (mask d) ;;
  pool1 <- bool_index indexes sel1 ;;
  sel2 <- np_zip andb (map negb (refs d)) (mask d) ;;
  pool2 <- bool_index indexes sel2 ;;
  let bs_indexes :=
    match pool1 with
    | [] => []
    | _ => choice pick 0 pool1 (length pool1)
    end in
  let bs_indexes :=
    bs_indexes ++ choice pick (length bs_indexes) pool2 (length pool2) in
  Some (IndexSort.sort bs_indexes).

(** [CestData.bootstrap] *)
Definition CestData_bootstrap (pick : nat -> nat) (d : CestData)
  : option CestData :=
  bs_indexes <- bootstrap_indexes pick d ;;
  pts <- take (points d) bs_indexes ;;
  Some (mkCestData pts (refs d) (mask d) (filter_offsets d)).

(** *** CestProfile *)

Record CestProfile := mkCestProfile {
  name : str;
  data : CestData;
  pulse_seq : PulseSeq;
  par_names : list (str * str);
  params_default : ParamSet
}.

Definition with_data (profile : CestProfile) (d : CestData) : CestProfile :=
  mkCestProfile (name profile) d (pulse_seq profile) (par_names profile)
                (params_default profile).

(** [CestProfile._get_parvals] *)
Fixpoint get_parvals_loop (params : ParamSet) (items : list (str * str))
  : option ParVals :=
  match items with
  | [] => Some []
  | (name1, name2) :: rest =>
      p <- dict_get params name2 ;;
      r <- get_parvals_loop params rest ;;
      Some ((name1, p_value p) :: r)
  end.

Definition get_parvals (profile : CestProfile) (params : ParamSet)
  : option ParVals := get_parvals_loop params (par_names profile).

(** [CestProfile._get_cs_values] *)
Definition get_cs_values (profile : CestProfile) (params : ParamSet)
  : option (list Q) :=
  let names := map (fun state => lit "cs_i_" ++ [state]) ["a"; "b"; "c"; "d"]%char in
  let fnames :=
    flat_map (fun n => match dict_get (par_names profile) n with
                       | Some f => [f] | None => [] end) names in
  fold_right (fun fname acc =>
                p <- dict_get params fname ;; r <- acc ;; Some (p_value p :: r))
             (Some []) fnames.

Section WithScale.

(** [chemex.containers.helper.get_scale(intensities, errors, calculated)]:
    the scale factor of the least-squares fit of the model to the data. *)
Variable get_scale : list Q -> list Q -> list Q -> Q.

(** [CestProfile.calculate] *)
Definition calculate (profile : CestProfile) (params : ParamSet)
  (offs : option (list Q)) : option (list Q) :=
  d <- bool_index (points (data profile)) (mask (data profile)) ;;
  par_values <- get_parvals profile params ;;
  let calculated :=
    ps_calculate (pulse_seq profile) (map offsets d) par_values in
  let scale := get_scale (map intensities d) (map errors d) calculated in
  let calculated :=
    match offs with
    | Some o => ps_calculate (pulse_seq profile) o par_values
    | None => calculated
    end in
  Some (map (Qmult scale) calculated).

(** [CestProfile.residuals] *)
Definition residuals (profile : CestProfile) (params : ParamSet)
  : option (list Q) :=
  d <- bool_index (points (data profile)) (mask (data profile)) ;;
  c <- calculate profile params None ;;
  diff <- np_zip Qminus c (map intensities d) ;;
  np_zip Qdiv diff (map errors d).

(** [CestProfile.filter] *)
Definition CestProfile_filter (profile : CestProfile) (params : ParamSet)
  : option CestProfile :=
  cs_values <- get_cs_values profile params ;;
  cs_offset <- nth_error (ps_ppms_to_offsets (pulse_seq profile) cs_values) 0 ;;
  d <- CestData_filter (data profile) cs_offset (ps_sw_dante (pulse_seq profile)) ;;
  Some (with_data profile d).

(** [CestProfile.monte_carlo] *)
Definition monte_carlo (normal : nat -> Q) (profile : CestProfile)
  (params : ParamSet) : option CestProfile :=
  intensities_ref <- calculate profile params None ;;
  d <- CestData_monte_carlo normal (data profile) intensities_ref ;;
  Some (with_data profile d).

End WithScale.

(** [CestProfile.bootstrap] *)
Definition bootstrap (pick : nat -> nat) (profile : CestProfile)
  : option CestProfile :=
  d <- CestData_bootstrap pick (data profile) ;;
  Some (with_data profile d).

End Cest.

(* ------------------------------------------------------------------ *)
(** ** [chemex/experiments/cpmg_hn_dq_zq.py] *)

Module CpmgHnDqZq.
Import Numpy.

(** [PulseSeq.ncycs_to_nu_cpmgs] on a scalar [ncyc]: [ncycs_[ncycs_ > 0]]
    is an array of one element, or of none. *)
Definition ncycs_to_nu_cpmgs (time_t2 : Q) (ncycs : Z) : list Q :=
  let ncycs_ := if (0 <? ncycs)%Z then [ncycs] else [] in
  map (fun n => (inject_Z n / time_t2)%Q) ncycs_.

(** The truth value of an array of at most one boolean, as [if] takes it:
    an empty array is false. *)
Definition truth (a : list bool) : bool :=
  match a with
  | [b] => b
  | _ => false
  end.

(** [np.take(cp_phases, np.flip(np.arange(n)), mode="wrap")] *)
Definition take_wrap_flip (cp_phases : list nat) (n : nat) : list nat :=
  map (fun i => nth (i mod length cp_phases) cp_phases 0) (rev (seq 0 n)).

(** [PulseSeq._get_phases] *)
Definition get_phases (time_t2 : Q) (ncyc : Z) : list nat * list nat :=
  let nu_cpmg := ncycs_to_nu_cpmgs time_t2 ncyc in
  let '(cp_phases1, cp_phases2) :=
    if truth (map (fun nu => Qlt_bool nu 51) nu_cpmg)
    then ([0; 1; 0; 1], [1; 0; 1; 0])
    else if truth (map (fun nu => Qlt_bool nu 255) nu_cpmg)
    then ([0], [1])
    else ([0; 1; 0; 1; 1; 0; 1; 0], [1; 0; 1; 0; 0; 1; 0; 1]) in
  let n := Z.to_nat (2 * ncyc) in
  (take_wrap_flip cp_phases1 n, take_wrap_flip cp_phases2 n).

End CpmgHnDqZq.

(* ------------------------------------------------------------------ *)
(** ** [chemex/nmr/spin_system.py]: comparisons, selections, name tables *)

Module SpinSystemOps.
Import PyStr SpinSystemPy.

(** [a < b] on [str]: lexicographic on code points, a proper prefix first. *)
Fixpoint str_ltb (a b : str) : bool :=
  match a, b with
  | _, [] => false
  | [], _ :: _ => true
  | x :: a', y :: b' =>
      if code x <? code y then true
      else if code x =? code y then str_ltb a' b' else false
  end.

(** [Atom.__eq__], [Atom.__lt__], [Atom.__bool__] *)
Definition Atom_eq (a b : Atom) : bool := str_eqb (atom_name a) (atom_name b).
Definition Atom_lt (a b : Atom) : bool := str_ltb (atom_name a) (atom_name b).
Definition Atom_bool (a : Atom) : bool := negb (str_eqb (atom_name a) []).

(** [Group.__lt__]: by residue number alone. *)
Definition Group_lt (a b : Group) : bool :=
  (group_number a <? group_number b)%Z.

(** [Spin.__eq__], [Spin.__bool__] *)
Definition Spin_eq (a b : Spin) : bool := str_eqb (spin_name a) (spin_name b).
Definition Spin_bool (a : Spin) : bool := negb (str_eqb (spin_name a) []).

(** [Spin.__lt__]: [(self.group, self.atom) < (other.group, other.atom)].
    Tuples are compared at the first position where the components are not
    [==]; tuples equal at every position are not [<]. *)
Definition Spin_lt (a b : Spin) : bool :=
  if Group_eq (spin_group a) (spin_group b)
  then if Atom_eq (spin_atom a) (spin_atom b) then false
       else Atom_lt (spin_atom a) (spin_atom b)
  else Group_lt (spin_group a) (spin_group b).

(** The comparisons that [functools.total_ordering] derives from [__lt__]
    and [__eq__]: [a > b] is [not a < b and a != b], [a <= b] is
    [a < b or a == b], [a >= b] is [not a < b]. *)
Definition Spin_gt (a b : Spin) : bool := negb (Spin_lt a b) && negb (Spin_eq a b).
Definition Spin_le (a b : Spin) : bool := Spin_lt a b || Spin_eq a b.
Definition Spin_ge (a b : Spin) : bool := negb (Spin_lt a b).

(** [SpinSystem.__eq__], [SpinSystem.__bool__] *)
Definition SpinSystem_eq (a b : SpinSystem) : bool := str_eqb (ss_name a) (ss_name b).
Definition SpinSystem_bool (a : SpinSystem) : bool := negb (str_eqb (ss_name a) []).

(** [SpinSystem.__lt__]: the tuples of the spins, compared as tuples are. *)
Fixpoint spins_lt (a b : list Spin) : bool :=
  match a, b with
  | _, [] => false
  | [], _ :: _ => true
  | x :: a', y :: b' => if Spin_eq x y then spins_lt a' b' else Spin_lt x y
  end.

Definition SpinSystem_lt (a b : SpinSystem) : bool :=
  spins_lt (map snd (ss_spins a)) (map snd (ss_spins b)).

(** The argument of [SpinSystem.__init__]: [None], an [int] or a [str]. *)
Inductive LabelArg :=
| LabelNone
| LabelInt (n : Z)
| LabelStr (s : str).

(** [SpinSystem.__init__]: [None] reads as the empty label, an [int] as its
    decimal print. *)
Definition SpinSystem_new (name : LabelArg) : SpinSystem :=
  let name :=
    match name with
    | LabelNone => []
    | LabelInt n => str_of_Z n
    | LabelStr s => s
    end in
  SpinSystem_init name.

(** [SpinSystem.part_of] *)
Definition part_of (self : SpinSystem) (selection : list SpinSystem) : bool :=
  existsb (fun item => SpinSystem_match item self) selection.

(** [itertools.combinations(s, r)]: the subsequences of length [r], in the
    lexicographic order of their positions. *)
Fixpoint combinations {A : Type} (s : list A) (r : nat) : list (list A) :=
  match r, s with
  | 0, _ => [[]]
  | S _, [] => []
  | S r', x :: s' => map (cons x) (combinations s' r') ++ combinations s' r
  end.

(** [powerset] *)
Definition powerset {A : Type} (iterable : list A) : list (list A) :=
  flat_map (combinations iterable) (seq 0 (length iterable + 1)).

(** [SpinSystem.spins2names]: for every set of aliases whose spins are all
    present, the name of these spins under the joined aliases. *)
Definition spins2names (spins : list (str * Spin)) : list (str * str) :=
  fold_left
    (fun result alias_set =>
       if forallb (has_key spins) alias_set
       then dict_set result (List.concat alias_set)
              (spins2name
                 (flat_map (fun alias => match dict_get spins alias with
                                         | Some spin => [spin]
                                         | None => []
                                         end) alias_set))
       else result)
    (powerset ALIASES) [].

End SpinSystemOps.

(* ------------------------------------------------------------------ *)
(** ** [chemex/containers/cest.py]: duplicates and sums *)

Lemma Qle_bool_total (a b : Q) : Qle_bool a b = true \/ Qle_bool b a = true.
Proof.
  rewrite !Qle_bool_iff.
  destruct (Qlt_le_dec a b) as [H|H]; [left; now apply Qlt_le_weak | now right].
Qed.

(** The order of [np.sort] on floats. *)
Module OffsetOrder <: TotalLeBool.
Definition t := Q.
Definition leb (a b : Q) : bool := Qle_bool a b.
Definition leb_total := Qle_bool_total.
End OffsetOrder.

Module OffsetSort := Sort OffsetOrder.

Module CestOps.
Import PyStr ParamHelper Numpy Cest.

(** [aux[mask]] of [np.unique], with [mask[1:] = aux[1:] != aux[:-1]]: an
    element of the sorted array is kept unless it equals the one before. *)
Fixpoint drop_repeats (prev : Q) (aux : list Q) : list Q :=
  match aux with
  | [] => []
  | x :: rest =>
      if Qeq_bool x prev then drop_repeats x rest else x :: drop_repeats x rest
  end.

(** [np.unique(a)]: the sorted distinct values. *)
Definition np_unique (a : list Q) : list Q :=
  match OffsetSort.sort a with
  | [] => []
  | x :: rest => x :: drop_repeats x rest
  end.

(** [CestData.any_duplicate] *)
Definition any_duplicate (d : CestData) : bool :=
  negb (length (np_unique (map offsets (points d))) =? length (points d)).

(** [points["errors"] = values], with broadcasting of a single value. *)
Definition set_errors (pts : list Point) (values : list Q)
  : option (list Point) :=
  let put (p : Point) (v : Q) := mkPoint (offsets p) (intensities p) v in
  if length values =? length pts then Some (map2 put pts values)
  else match values with
       | [v] => Some (map (fun p => put p v) pts)
       | _ => None
       end.

Section Add.

(** [np.sqrt] on one value. *)
Variable sqrt : Q -> Q.

(** [CestData.__add__]: offsets, reference flags, mask and filter windows
    are those of the left operand. *)
Definition CestData_add (self other : CestData) : option CestData :=
  ints <- np_zip Qplus (map intensities (points self))
                       (map intensities (points other)) ;;
  pts <- set_intensities (points self) ints ;;
  sq <- np_zip (fun e1 e2 => (e1 * e1 + e2 * e2)%Q)
               (map errors (points self)) (map errors (points other)) ;;
  pts <- set_errors pts (map sqrt sq) ;;
  Some (mkCestData pts (refs self) (mask self) (filter_offsets self)).

(** [CestProfile.__add__] *)
Definition CestProfile_add (self other : CestProfile) : option CestProfile :=
  d <- CestData_add (data self) (data other) ;;
  Some (mkCestProfile (name self) d (pulse_seq self) (par_names self)
                      (params_default self)).

End Add.

End CestOps.

(* ------------------------------------------------------------------ *)
(** ** [chemex/experiments/cpmg_hn_dq_zq.py]: the delays of the train *)

Module CpmgDelays.

(** A dictionary keyed by integers, in insertion order. *)
Fixpoint zdict_get {V : Type} (d : list (Z * V)) (k : Z) : option V :=
  match d with
  | [] => None
  | (k', v) :: r => if (k' =? k)%Z then Some v else zdict_get r k
  end.

Fixpoint zdict_set {V : Type} (d : list (Z * V)) (k : Z) (v : V)
  : list (Z * V) :=
  match d with
  | [] => [(k, v)]
  | (k', v') :: r =>
      if (k' =? k)%Z then (k', v) :: r else (k', v') :: zdict_set r k v
  end.

(** [dict(zip(keys, values))] *)
Definition zdict_of {V : Type} (items : list (Z * V)) : list (Z * V) :=
  fold_left (fun d kv => zdict_set d (fst kv) (snd kv)) items [].

(** [PulseSeq._get_tau_cps]: for every positive cycle count, the delay
    [time_t2 / (4.0 * ncyc) - 7.0 / 3.0 * pw90_i]. *)
Definition get_tau_cps (time_t2 pw90_i : Q) (ncycs : list Z) : list (Z * Q) :=
  let ncycs_ := filter (fun n => (0 <? n)%Z) ncycs in
  zdict_of
    (combine ncycs_
       (map (fun n => (time_t2 / (4 * inject_Z n) - (7 / 3) * pw90_i)%Q)
            ncycs_)).

End CpmgDelays.

(* ------------------------------------------------------------------ *)
(** ** [chemex/optimize/minimizer.py]: the progress reporter *)

Module MinimizerPy.
Import PyStr ParamHelper Numpy.







End MinimizerPy.

(* ------------------------------------------------------------------ *)
(** ** [chemex/__main__.py]: data sets for bootstrap runs *)

Module MainPy.
Import Numpy.

Section Bootstrap.

Variables DataPoint Key : Type.

(** [==] on the dictionary keys. *)
Variable key_eqb : Key -> Key -> bool.

(** The key [(data_point.par['profile_id'], data_point.par.get('reference',
    False))] of a data point; [None] when [par] has no ['profile_id']. *)
Variable profile_id_of : DataPoint -> option Key.

(** The order in which [profiles.values()] yields the lists of the
    dictionary [profiles]; the file is Python 2 ([xrange]), whose
    dictionaries do not keep the insertion order. *)
Variable values_order : list (Key * list DataPoint) -> list (list DataPoint).

(** [profiles.setdefault(profile_id, []).append(data_point)] *)
Fixpoint setdefault_append (profiles : list (Key * list DataPoint))
  (profile_id : Key) (data_point : DataPoint) : list (Key * list DataPoint) :=
  match profiles with
  | [] => [(profile_id, [data_point])]
  | (k, l) :: rest =>
      if key_eqb k profile_id then (k, l ++ [data_point]) :: rest
      else (k, l) :: setdefault_append rest profile_id data_point
  end.

(** The first loop of [make_bootstrap_dataset]. *)
Fixpoint group_loop (data : list DataPoint)
  (profiles : list (Key * list DataPoint))
  : option (list (Key * list DataPoint)) :=
  match data with
  | [] => Some profiles
  | data_point :: rest =>
      profile_id <- profile_id_of data_point ;;
      group_loop rest (setdefault_append profiles profile_id data_point)
  end.

(** [[choice(profile) for _ in xrange(len(profile))]]: draw number [j]
    takes the element at position [pick (start + j)], reduced into range. *)
Definition draws (pick : nat -> nat) (start : nat) (profile : list DataPoint)
  : list DataPoint :=
  flat_map (fun j =>
              match nth_error profile (pick (start + j) mod length profile) with
              | Some x => [x]
              | None => []
              end)
           (seq 0 (length profile)).

(** The second loop of [make_bootstrap_dataset]. *)
Fixpoint draw_loop (pick : nat -> nat) (start : nat)
  (groups : list (list DataPoint)) (data_bs : list DataPoint)
  : list DataPoint :=
  match groups with
  | [] => data_bs
  | profile :: rest =>
      draw_loop pick (start + length profile) rest
                (data_bs ++ draws pick start profile)
  end.

(** [make_bootstrap_dataset] *)
Definition make_bootstrap_dataset (pick : nat -> nat) (data : list DataPoint)
  : option (list DataPoint) :=
  profiles <- group_loop data [] ;;
  Some (draw_loop pick 0 (values_order profiles) []).

End Bootstrap.

End MainPy.

(* ------------------------------------------------------------------ *)
(** ** [chemex/experiments/cest/reading.py]: the name of an experiment *)

Module ReadingPy.
Import PyStr Numpy.

(** [s.replace(old, new)] for one-character strings. *)
Definition replace_char (old new : ascii) (s : str) : str :=
  map (fun c => if ascii_dec c old then new else c) s.

Definition is_upper (c : ascii) : bool := (65 <=? code c) && (code c <=? 90).

(** [s.lower()] on code points below 128. *)
Definition lower (s : str) : str :=
  map (fun c => if is_upper c then ascii_of_nat (code c + 32) else c) s.

Section NameExperiment.

(** The conversions [float(...)] of the four numbers and the call of
    ['{:s}_{:.0f}Hz_{:.0f}ms_{:.0f}MHz_{:.0f}C'.format] on the experiment
    type, [b1_frq], [time_t1 * 1e3], [h_larmor_frq] and [temperature];
    [None] when a conversion raises. *)
Variable format_name : str -> str -> str -> str -> str -> option str.

(** [name_experiment]; the dictionary holds the strings of the
    configuration file. *)
Definition name_experiment (experiment_details : option (list (str * str)))
  : option str :=
  let experiment_details :=
    match experiment_details with
    | None => []
    | Some d => d
    end in
  match dict_get experiment_details (lit "name") with
  | Some given => Some (replace_char " " "_" (strip given))
  | None =>
      exp_type <- dict_get experiment_details (lit "type") ;;
      let exp_type := replace_char "." "_" exp_type in
      h_larmor_frq <- dict_get experiment_details (lit "h_larmor_frq") ;;
      temperature <- dict_get experiment_details (lit "temperature") ;;
      b1_frq <- dict_get experiment_details (lit "b1_frq") ;;
      time_t1 <- dict_get experiment_details (lit "time_t1") ;;
      formatted <- format_name exp_type b1_frq time_t1 h_larmor_frq temperature ;;
      Some (lower formatted)
  end.

End NameExperiment.

End ReadingPy.

(* ------------------------------------------------------------------ *)
(** ** [chemex/parameters/helper.py]: the settings of the parameters *)

Module SettingsPy.
Import PyStr Numpy.

(** A value stored in a setting: a number, a boolean, a string or [None]. *)
Inductive Val :=
| VNum (q : Q)
| VBool (b : bool)
| VStr (s : str)
| VNone.

(** One setting: a dictionary with keys such as ["value"], ["min"],
    ["max"], ["vary"] and ["expr"]. *)
Definition Setting := list (str * Val).

(** [it.product(fitted, model.states)]; [model.states] is a string, read
    letter by letter. *)
Definition product (fitted : list str) (states : str) : list (str * str) :=
  flat_map (fun sname => map (fun state => (sname, [state])) states) fitted.

(** What [_set_to_fit] stores in a setting. *)
Definition freed (setting : Setting) : Setting :=
  dict_set (dict_set setting (lit "vary") (VBool true)) (lit "expr") (VStr []).

Section SetToFit.

(** [sname.format(states=state, observed_state=observed_state)]; [None]
    when [format] raises. *)
Variable format_sname : str -> str -> str -> option str.

(** [_set_to_fit] writes into the dictionaries that [settings] refers to,
    and two names of [settings] can refer to the same one: [settings] maps
    a name to the address of its dictionary, and [heap] an address to the
    dictionary stored there. *)
Fixpoint set_to_fit_loop (pairs : list (str * str)) (observed_state : str)
  (settings : list (str * nat)) (heap : nat -> Setting)
  : option (nat -> Setting) :=
  match pairs with
  | [] => Some heap
  | (sname, state) :: rest =>
      sname_ <- format_sname sname state observed_state ;;
      let heap :=
        match dict_get settings sname_ with
        | Some address =>
            fun a => if a =? address then freed (heap address) else heap a
        | None => heap
        end in
      set_to_fit_loop rest observed_state settings heap
  end.

(** [_set_to_fit]: the dictionaries after the call. *)
Definition set_to_fit (settings : list (str * nat)) (heap : nat -> Setting)
  (states observed_state : str) (fitted : list str)
  : option (nat -> Setting) :=
  set_to_fit_loop (product fitted states) observed_state settings heap.

End SetToFit.

Section GetSettings.

(** [aa.get_ast_names(ast.parse(expr))]: the names that an expression
    mentions; [None] when the expression does not parse. *)
Variable get_ast_names : str -> option (list str).

(** [setting.get("expr", "")], as [ast.parse] takes it: a string. *)
Definition expr_of (setting : Setting) : option str :=
  match dict_get setting (lit "expr") with
  | Some (VStr expr) => Some expr
  | Some _ => None
  | None => Some []
  end.

(** [settings_params.update({k: settings_full[k].copy() for k in names_expr
    if k in settings_full})] *)
Definition update_named (settings_full : list (str * Setting))
  (names_expr : list str) (settings_params : list (str * Setting))
  : list (str * Setting) :=
  fold_left (fun acc k => match dict_get settings_full k with
                          | Some setting => dict_set acc k setting
                          | None => acc
                          end)
            names_expr settings_params.

(** The loop of [_get_settings] over [settings_profile.items()]. *)
Fixpoint get_settings_loop (settings_full : list (str * Setting))
  (items : list (str * Setting)) (settings_params : list (str * Setting))
  : option (list (str * Setting)) :=
  match items with
  | [] => Some settings_params
  | (name, setting) :: rest =>
      let settings_params := dict_set settings_params name setting in
      expr <- expr_of setting ;;
      names_expr <- get_ast_names expr ;;
      get_settings_loop settings_full rest
        (update_named settings_full names_expr settings_params)
  end.

(** [_get_settings]; [snames] is [propagator.snames]. *)
Definition get_settings (settings_full : list (str * Setting))
  (snames : list str)
  : option (list (str * Setting) * list (str * Setting)) :=
  let settings_profile :=
    filter (fun kv => mem (fst kv) snames) settings_full in
  settings_params <- get_settings_loop settings_full settings_profile [] ;;
  Some (settings_profile, settings_params).

End GetSettings.

End SettingsPy.

(* ================================================================== *)
(** * Properties *)

(** ** Dictionaries and strings *)

Module PyStrFacts.
Import PyStr.

Lemma str_eqb_eq (a b : str) : str_eqb a b = true <-> a = b.
Proof.
  unfold str_eqb. destruct (list_eq_dec ascii_dec a b); split; congruence.
Qed.

Lemma str_eqb_refl (a : str) : str_eqb a a = true.
Proof. now apply str_eqb_eq. Qed.

Lemma str_eqb_neq (a b : str) : str_eqb a b = false <-> a <> b.
Proof.
  unfold str_eqb. destruct (list_eq_dec ascii_dec a b); split; congruence.
Qed.

Lemma str_eqb_sym (a b : str) : str_eqb a b = str_eqb b a.
Proof.
  destruct (str_eqb b a) eqn:E.
  - apply str_eqb_eq in E. subst. apply str_eqb_refl.
  - apply str_eqb_neq in E. apply str_eqb_neq. congruence.
Qed.

Section Dict.
Context {V : Type}.
Implicit Types (d : list (str * V)) (k : str) (v : V).

Lemma dict_get_set_same d k v : dict_get (dict_set d k v) k = Some v.
Proof.
  induction d as [|[k' v'] d IH]; simpl.
  - now rewrite str_eqb_refl.
  - destruct (str_eqb k' k) eqn:E; simpl; rewrite E; auto.
Qed.

Lemma dict_get_set_other d k k' v :
  k <> k' -> dict_get (dict_set d k v) k' = dict_get d k'.
Proof.
  intros Hne. induction d as [|[k1 v1] d IH]; simpl.
  - apply str_eqb_neq in Hne. now rewrite Hne.
  - destruct (str_eqb k1 k) eqn:E; simpl.
    + apply str_eqb_eq in E. subst k1.
      apply str_eqb_neq in Hne. now rewrite Hne.
    + destruct (str_eqb k1 k'); auto.
Qed.

Lemma dict_get_In d k v : dict_get d k = Some v -> In (k, v) d.
Proof.
  induction d as [|[k1 v1] d IH]; simpl; [discriminate|].
  destruct (str_eqb k1 k) eqn:E.
  - apply str_eqb_eq in E. intros [= ->]. subst. now left.
  - intros H. right. auto.
Qed.

Lemma dict_get_None d k : dict_get d k = None -> ~ In k (map fst d).
Proof.
  induction d as [|[k1 v1] d IH]; simpl; [tauto|].
  destruct (str_eqb k1 k) eqn:E; [discriminate|].
  apply str_eqb_neq in E. intros H [?|?]; [congruence|]. now apply IH.
Qed.

End Dict.

End PyStrFacts.

(** ** Merging parameter sets *)

Module ParamHelperFacts.
Import PyStr PyStrFacts ParamHelper.

(** What [merge] keeps of a list of occurrences: the first that varies, or
    else the last. *)
Definition kept (occs : list Param) : option Param :=
  match find p_vary occs with
  | Some p => Some p
  | None => last_error occs
  end.

(** The same, starting from the entry [cur] already in [params_]. *)
Definition kept_from (cur : option Param) (occs : list Param) : option Param :=
  match cur with
  | Some p => if p_vary p then Some p
              else match kept occs with Some q => Some q | None => Some p end
  | None => kept occs
  end.

Lemma last_error_cons {A : Type} (x : A) (l : list A) :
  last_error (x :: l) = match last_error l with Some y => Some y | None => Some x end.
Proof.
  unfold last_error. simpl. destruct (rev l) eqn:E; simpl; auto.
Qed.

Lemma kept_from_nil (cur : option Param) : kept_from cur [] = cur.
Proof. destruct cur as [q|]; simpl; auto. now destruct (p_vary q). Qed.

Lemma kept_cons (p : Param) (occs : list Param) :
  kept (p :: occs) = kept_from (Some p) occs.
Proof.
  unfold kept_from, kept. simpl. destruct (p_vary p); auto.
  rewrite last_error_cons. destruct (find p_vary occs); auto.
Qed.

Lemma kept_from_cons (cur : option Param) (p : Param) (occs : list Param) :
  kept_from cur (p :: occs) =
  kept_from (match cur with
             | Some old => if p_vary old then Some old else Some p
             | None => Some p
             end) occs.
Proof.
  destruct cur as [old|]; simpl.
  - destruct (p_vary old) eqn:E; simpl; [now rewrite E|].
    rewrite kept_cons. simpl. destruct (p_vary p); auto.
    destruct (kept occs); auto.
  - apply kept_cons.
Qed.

(** The items of one set stored under [name]. *)
Definition items_of (name : str) (items : list (str * Param)) : list Param :=
  map snd (filter (fun kv => str_eqb (fst kv) name) items).

Lemma merge_items_get (items : list (str * Param)) (params_ : ParamSet) (name : str) :
  dict_get (merge_items items params_) name =
  kept_from (dict_get params_ name) (items_of name items).
Proof.
  revert params_. induction items as [|[k p] items IH]; intros params_; simpl.
  - now rewrite kept_from_nil.
  - unfold items_of. simpl. fold (items_of name items).
    destruct (str_eqb k name) eqn:E.
    + apply str_eqb_eq in E. subst k. simpl. rewrite kept_from_cons.
      destruct (dict_get params_ name) as [old|] eqn:G.
      * destruct (p_vary old) eqn:Hv; rewrite IH.
        -- now rewrite G.
        -- now rewrite dict_get_set_same.
      * rewrite IH. now rewrite dict_get_set_same.
    + apply str_eqb_neq in E.
      destruct (dict_get params_ k) as [old|] eqn:G.
      * destruct (p_vary old); rewrite IH; auto.
        now rewrite dict_get_set_other.
      * rewrite IH. now rewrite dict_get_set_other.
Qed.

Lemma kept_from_app (cur : option Param) (a b : list Param) :
  kept_from (kept_from cur a) b = kept_from cur (a ++ b).
Proof.
  revert cur. induction a as [|p a IH]; intros cur; simpl.
  - now rewrite kept_from_nil.
  - now rewrite !kept_from_cons, IH.
Qed.

Lemma merge_sets_get (pl : list ParamSet) (params_ : ParamSet) (name : str) :
  dict_get (merge_sets pl params_) name =
  kept_from (dict_get params_ name) (flat_map (items_of name) pl).
Proof.
  revert params_. induction pl as [|A pl IH]; intros params_; simpl.
  - now rewrite kept_from_nil.
  - now rewrite IH, merge_items_get, kept_from_app.
Qed.

Lemma items_of_wf (A : ParamSet) (name : str) :
  dict_wf A ->
  items_of name A = match dict_get A name with Some p => [p] | None => [] end.
Proof.
  unfold dict_wf, items_of. induction A as [|[k p] A IH]; simpl; auto.
  intros Hnd. inversion Hnd as [|? ? Hnotin Hnd']; subst.
  destruct (str_eqb k name) eqn:E; simpl.
  - apply str_eqb_eq in E. subst k. f_equal.
    rewrite IH by assumption.
    destruct (dict_get A name) eqn:G; auto.
    apply dict_get_In in G. exfalso. apply Hnotin.
    change name with (fst (name, p0)). now apply in_map.
  - now apply IH.
Qed.

Lemma occurrences_items (pl : list ParamSet) (name : str) :
  Forall dict_wf pl -> flat_map (items_of name) pl = occurrences name pl.
Proof.
  unfold occurrences. induction 1 as [|A pl HA Hpl IH]; simpl; auto.
  now rewrite IH, items_of_wf.
Qed.

(** [merge] looks up to the first varying occurrence, or else to the last
    occurrence. *)
Lemma merge_get (pl : list ParamSet) (name : str) :
  Forall dict_wf pl -> dict_get (merge pl) name = kept (occurrences name pl).
Proof.
  intros Hwf. unfold merge. rewrite merge_sets_get. simpl.
  now rewrite occurrences_items.
Qed.

(** C1 (amended).  For every list of parameter sets and every name, the
    merged set holds under that name the first occurrence that varies, and
    the LAST occurrence when none varies.  In particular, when the name is
    fixed in one of two sets and varies in the other, the varying parameter
    is kept whatever the order of the two sets. *)
Theorem merge_first_varying_else_last (pl : list ParamSet) (name : str) :
  Forall dict_wf pl ->
  dict_get (merge pl) name =
    match find p_vary (occurrences name pl) with
    | Some p => Some p
    | None => last_error (occurrences name pl)
    end
  /\ forall (A B : ParamSet) (pa pb : Param),
       pl = [A; B] \/ pl = [B; A] ->
       dict_get A name = Some pa -> dict_get B name = Some pb ->
       p_vary pa = false -> p_vary pb = true ->
       dict_get (merge pl) name = Some pb.
Proof.
  intros Hwf. split.
  - now apply merge_get.
  - intros A B pa pb Hpl HA HB Hpa Hpb.
    rewrite merge_get by assumption. unfold kept, occurrences.
    destruct Hpl as [-> | ->]; simpl; rewrite HA, HB; simpl;
      rewrite ?Hpa, ?Hpb; reflexivity.
Qed.

Definition fixed_param (v : Q) : Param := mkParam v false None None [].
Definition varying_param (v : Q) : Param := mkParam v true None None [].

Lemma merge_first_varying_else_last_witness :
  let A := [(lit "kex_ab", fixed_param 1); (lit "pb", fixed_param 2)] in
  let B := [(lit "kex_ab", varying_param 3)] in
  dict_get (merge [A; B]) (lit "kex_ab") = Some (varying_param 3).
Proof.
  intros A B.
  assert (Hwf : Forall (@dict_wf Param) [A; B]).
  { repeat constructor; simpl; intuition discriminate. }
  destruct (merge_first_varying_else_last (lit "kex_ab") Hwf) as [_ H].
  apply (H A B (fixed_param 1) (varying_param 3));
    [left; reflexivity | reflexivity | reflexivity | reflexivity | reflexivity].
Defined.

(** C1 as stated fails when no occurrence varies: of two fixed occurrences
    [merge] keeps the second, not the first. *)
Lemma merge_first_fixed_counterexample :
  let pl := [[(lit "kex_ab", fixed_param 1)]; [(lit "kex_ab", fixed_param 2)]] in
  Forall (@dict_wf Param) pl
  /\ find p_vary (occurrences (lit "kex_ab") pl) = None
  /\ hd_error (occurrences (lit "kex_ab") pl) = Some (fixed_param 1)
  /\ dict_get (merge pl) (lit "kex_ab") = Some (fixed_param 2)
  /\ dict_get (merge pl) (lit "kex_ab")
     <> hd_error (occurrences (lit "kex_ab") pl).
Proof.
  cbv zeta. repeat split.
  - repeat constructor; simpl; intuition discriminate.
  - vm_compute. discriminate.
Qed.

End ParamHelperFacts.

(** ** Characters, stripping and searching *)

Module StrFacts.
Import PyStr PyStrFacts.

Unset Implicit Arguments.

(** The first character of [s], if any, is not in the class [p]. *)
Definition hd_not (p : ascii -> bool) (s : str) : bool :=
  match s with
  | [] => true
  | c :: _ => negb (p c)
  end.

Definition none_of (p : ascii -> bool) (s : str) : bool :=
  forallb (fun c => negb (p c)) s.

Ltac all_chars c :=
  destruct c as [[] [] [] [] [] [] [] []]; try reflexivity; try discriminate.

Lemma upper_char_idem (c : ascii) : upper_char (upper_char c) = upper_char c.
Proof. all_chars c. Qed.

Lemma is_space_upper (c : ascii) : is_space (upper_char c) = is_space c.
Proof. all_chars c. Qed.

Lemma digit_not_space (c : ascii) : is_digit c = true -> is_space c = false.
Proof. all_chars c. Qed.

Lemma digit_upper (c : ascii) : is_digit c = true -> upper_char c = c.
Proof. all_chars c. Qed.

Lemma digit_not_dash (c : ascii) :
  is_digit c = true -> (if ascii_dec c "-" then true else false) = false.
Proof. all_chars c. Qed.

Lemma upper_idem (s : str) : upper (upper s) = upper s.
Proof.
  unfold upper. rewrite map_map. apply map_ext. intros; apply upper_char_idem.
Qed.

Lemma upper_app (a b : str) : upper (a ++ b) = upper a ++ upper b.
Proof. apply map_app. Qed.

Lemma app_eq_len {A : Type} (a a' b b' : list A) :
  length a = length a' -> a ++ b = a' ++ b' -> a = a' /\ b = b'.
Proof.
  revert a'. induction a as [|x a IH]; intros [|x' a'] Hl H; simpl in *;
    try discriminate; auto.
  injection H as -> H. injection Hl as Hl. destruct (IH _ Hl H) as [-> ->]. auto.
Qed.

Lemma upper_app_inv (a b : str) :
  upper (a ++ b) = a ++ b -> upper a = a /\ upper b = b.
Proof.
  rewrite upper_app. intros H. apply app_eq_len in H; auto.
  unfold upper. apply length_map.
Qed.

Lemma firstn_length_app {A : Type} (a b : list A) : firstn (length a) (a ++ b) = a.
Proof. induction a; simpl; congruence. Qed.

Lemma skipn_length_app {A : Type} (a b : list A) : skipn (length a) (a ++ b) = b.
Proof. induction a; simpl; congruence. Qed.

(** *** Searching *)

Section Search.
Variable p : ascii -> bool.

Lemma find_idx_none (s : str) : find_idx p s = None <-> none_of p s = true.
Proof.
  unfold none_of. induction s as [|c s IH]; simpl; [tauto|].
  destruct (p c); simpl.
  - split; discriminate.
  - rewrite <- IH. destruct (find_idx p s); simpl; split; congruence.
Qed.

Lemma find_idx_some (s : str) (i : nat) :
  find_idx p s = Some i ->
  exists pre c post,
    s = pre ++ c :: post /\ length pre = i /\ none_of p pre = true /\ p c = true.
Proof.
  revert i. induction s as [|c s IH]; intros i; simpl; [discriminate|].
  destruct (p c) eqn:E.
  - intros [= <-]. exists [], c, s. auto.
  - destruct (find_idx p s) as [j|]; [|discriminate]. intros [= <-].
    destruct (IH j eq_refl) as (pre & c' & post & -> & <- & Hn & Hc).
    exists (c :: pre), c', post. simpl. unfold none_of in *. simpl.
    rewrite E, Hn. auto.
Qed.

Lemma find_idx_app (pre post : str) (c : ascii) :
  none_of p pre = true -> p c = true ->
  find_idx p (pre ++ c :: post) = Some (length pre).
Proof.
  unfold none_of. induction pre as [|x pre IH]; simpl; intros Hn Hc.
  - now rewrite Hc.
  - apply andb_true_iff in Hn as [Hx Hn]. apply negb_true_iff in Hx.
    rewrite Hx, IH; auto.
Qed.

Lemma take_while_all (s : str) : forallb p (take_while p s) = true.
Proof.
  induction s as [|c s IH]; simpl; auto. destruct (p c) eqn:E; simpl; auto.
  now rewrite E.
Qed.

Lemma take_drop (s : str) : take_while p s ++ drop_while p s = s.
Proof.
  induction s as [|c s IH]; simpl; auto. destruct (p c); simpl; congruence.
Qed.

Lemma drop_while_hd (s : str) : hd_not p (drop_while p s) = true.
Proof.
  induction s as [|c s IH]; simpl; auto. destruct (p c) eqn:E; simpl; auto.
  now rewrite E.
Qed.

Lemma drop_while_id (s : str) : hd_not p s = true -> drop_while p s = s.
Proof.
  destruct s as [|c s]; simpl; auto. intros H. apply negb_true_iff in H.
  now rewrite H.
Qed.

Lemma take_while_app (a b : str) :
  forallb p a = true -> hd_not p b = true -> take_while p (a ++ b) = a.
Proof.
  induction a as [|x a IH]; simpl; intros Ha Hb.
  - destruct b as [|c b]; simpl in *; auto.
    apply negb_true_iff in Hb. now rewrite Hb.
  - apply andb_true_iff in Ha as [Hx Ha]. rewrite Hx, IH; auto.
Qed.

End Search.

Lemma none_of_app (p : ascii -> bool) (a b : str) :
  none_of p (a ++ b) = none_of p a && none_of p b.
Proof. apply forallb_app. Qed.

Lemma none_of_impl (p q : ascii -> bool) (s : str) :
  (forall c, p c = true -> q c = false) -> forallb p s = true ->
  none_of q s = true.
Proof.
  intros H. unfold none_of. induction s as [|c s IH]; simpl; auto.
  intros Hs. apply andb_true_iff in Hs as [Hc Hs].
  rewrite (H c Hc), IH; auto.
Qed.

(** *** Stripping *)

Lemma rstrip_snoc_keep (a : str) (c : ascii) :
  is_space c = false -> rstrip (a ++ [c]) = a ++ [c].
Proof.
  intros H. unfold rstrip. rewrite rev_app_distr. simpl. rewrite H. simpl.
  now rewrite rev_involutive.
Qed.

Lemma rstrip_snoc_drop (a : str) (c : ascii) :
  is_space c = true -> rstrip (a ++ [c]) = rstrip a.
Proof.
  intros H. unfold rstrip. rewrite rev_app_distr. simpl. now rewrite H.
Qed.

Lemma rstrip_nil : rstrip [] = [].
Proof. reflexivity. Qed.

(** [rstrip] removes a run of spaces at the end, and nothing else. *)
Lemma rstrip_decomp (s : str) :
  exists t, s = rstrip s ++ t /\ forallb is_space t = true
            /\ hd_not is_space (rev (rstrip s)) = true.
Proof.
  induction s as [|c s (t & Hs & Ht & Hl)] using rev_ind.
  - exists []. auto.
  - destruct (is_space c) eqn:E.
    + rewrite (rstrip_snoc_drop _ _ E). exists (t ++ [c]). split; [|split; auto].
      * rewrite List.app_assoc. now rewrite <- Hs.
      * rewrite forallb_app, Ht. simpl. now rewrite E.
    + rewrite (rstrip_snoc_keep _ _ E). exists []. split; [|split; auto].
      * now rewrite List.app_nil_r.
      * rewrite rev_app_distr. simpl. now rewrite E.
Qed.

Lemma rstrip_id (s : str) : hd_not is_space (rev s) = true -> rstrip s = s.
Proof.
  unfold rstrip. intros H. rewrite drop_while_id by assumption.
  apply rev_involutive.
Qed.

Lemma rstrip_app (a b : str) :
  rstrip b <> [] -> rstrip (a ++ b) = a ++ rstrip b.
Proof.
  induction b as [|c b IH] using rev_ind; [intros H; now elim H|].
  intros H. destruct (is_space c) eqn:E.
  - rewrite (rstrip_snoc_drop _ _ E) in *. rewrite List.app_assoc.
    rewrite (rstrip_snoc_drop _ _ E). auto.
  - rewrite (rstrip_snoc_keep _ _ E). rewrite List.app_assoc.
    rewrite (rstrip_snoc_keep _ _ E). reflexivity.
Qed.

Lemma rstrip_app_nil (a b : str) :
  rstrip b = [] -> rstrip (a ++ b) = rstrip a.
Proof.
  induction b as [|c b IH] using rev_ind; intros H.
  - now rewrite List.app_nil_r.
  - destruct (is_space c) eqn:E.
    + rewrite (rstrip_snoc_drop _ _ E) in H. rewrite List.app_assoc.
      rewrite (rstrip_snoc_drop _ _ E). auto.
    + rewrite (rstrip_snoc_keep _ _ E) in H. now destruct b.
Qed.

Lemma rstrip_hd (s : str) :
  hd_not is_space s = true -> hd_not is_space (rstrip s) = true.
Proof.
  destruct (rstrip_decomp s) as (t & Hs & _ & _).
  destruct (rstrip s) as [|c r] eqn:E; auto.
  rewrite Hs. simpl. auto.
Qed.

Lemma strip_hd (s : str) : hd_not is_space (strip s) = true.
Proof. unfold strip, lstrip. apply rstrip_hd. apply drop_while_hd. Qed.

Lemma strip_last (s : str) : hd_not is_space (rev (strip s)) = true.
Proof.
  unfold strip. destruct (rstrip_decomp (lstrip s)) as (t & _ & _ & H). exact H.
Qed.

Lemma strip_id (s : str) :
  hd_not is_space s = true -> hd_not is_space (rev s) = true -> strip s = s.
Proof.
  intros Hh Hl. unfold strip, lstrip. rewrite drop_while_id by assumption.
  now apply rstrip_id.
Qed.

Lemma strip_hd_id (s : str) : hd_not is_space s = true -> strip s = rstrip s.
Proof. intros H. unfold strip, lstrip. now rewrite drop_while_id. Qed.

Lemma hd_not_upper (s : str) : hd_not is_space (upper s) = hd_not is_space s.
Proof. destruct s; simpl; auto. now rewrite is_space_upper. Qed.

Lemma strip_fixed (s : str) :
  strip s = s -> hd_not is_space s = true /\ hd_not is_space (rev s) = true.
Proof. intros H. rewrite <- H. split; [apply strip_hd | apply strip_last]. Qed.

(** [upper(strip(...))] is idempotent. *)
Lemma norm_idem (s : str) : strip (upper (strip s)) = upper (strip s).
Proof.
  apply strip_id.
  - rewrite hd_not_upper. apply strip_hd.
  - unfold upper. rewrite <- map_rev. fold (upper (rev (strip s))).
    rewrite hd_not_upper. apply strip_last.
Qed.

Lemma norm_fixed (s : str) :
  upper s = s -> strip s = s -> upper (strip s) = s.
Proof. intros Hu Hs. now rewrite Hs. Qed.

Set Implicit Arguments.

End StrFacts.

(** ** Decimal numerals *)

Module NumeralFacts.
Import PyStr StrFacts.

Unset Implicit Arguments.

Definition chars (d : Decimal.uint) : str :=
  list_ascii_of_string (NilEmpty.string_of_uint d).

Definition step (acc : N) (c : ascii) : N := (10 * acc + digit_val c)%N.

Lemma fold_chars_pos (d : Decimal.uint) (acc : positive) :
  fold_left step (chars d) (Npos acc) = Npos (Pos.of_uint_acc d acc).
Proof.
  revert acc. unfold chars.
  induction d as [|d IH|d IH|d IH|d IH|d IH|d IH|d IH|d IH|d IH|d IH];
    intros acc; [reflexivity|..]; cbn [NilEmpty.string_of_uint
      list_ascii_of_string fold_left Pos.of_uint_acc];
    rewrite <- IH; f_equal; unfold step; vm_compute digit_val;
    cbn [N.mul N.add]; f_equal; lia.
Qed.

Lemma fold_chars_zero (d : Decimal.uint) :
  fold_left step (chars d) 0%N = Pos.of_uint d.
Proof.
  unfold chars.
  induction d as [|d IH|d IH|d IH|d IH|d IH|d IH|d IH|d IH|d IH|d IH];
    [reflexivity | exact IH | ..];
    cbn [NilEmpty.string_of_uint list_ascii_of_string fold_left Pos.of_uint];
    rewrite <- fold_chars_pos; reflexivity.
Qed.

Lemma chars_digits (d : Decimal.uint) : forallb is_digit (chars d) = true.
Proof.
  unfold chars.
  induction d as [|d IH|d IH|d IH|d IH|d IH|d IH|d IH|d IH|d IH|d IH];
    [reflexivity|..]; exact IH.
Qed.

Lemma chars_nil (d : Decimal.uint) : chars d = [] -> d = Decimal.Nil.
Proof. destruct d; [reflexivity|..]; discriminate. Qed.

Lemma int_of_str_of_N (n : N) : int_of_digits (str_of_N n) = n.
Proof.
  unfold int_of_digits, str_of_N. fold (chars (N.to_uint n)). fold step.
  rewrite fold_chars_zero. apply DecimalN.Unsigned.of_to.
Qed.

Lemma str_of_N_digits (n : N) : forallb is_digit (str_of_N n) = true.
Proof. apply chars_digits. Qed.

Lemma str_of_N_nonempty (n : N) : str_of_N n <> [].
Proof.
  intros H. apply chars_nil in H. destruct n as [|p]; [discriminate|].
  now apply (DecimalPos.Unsigned.to_uint_nonnil p).
Qed.

Lemma str_of_Z_of_N (n : N) : str_of_Z (Z.of_N n) = str_of_N n.
Proof. destruct n; reflexivity. Qed.

Lemma of_N_not_NO_NUMBER (n : N) :
  Z.eqb (Z.of_N n) SpinSystemPy.NO_NUMBER = false.
Proof. apply Z.eqb_neq. unfold SpinSystemPy.NO_NUMBER. lia. Qed.

Set Implicit Arguments.

End NumeralFacts.

(** ** Spin systems: parsing a normalized spin *)

Module LabelFacts.
Import PyStr PyStrFacts StrFacts NumeralFacts SpinSystemPy.

Unset Implicit Arguments.

Definition is_dash (c : ascii) : bool := if ascii_dec c "-" then true else false.

(** *** The conversion tables *)

Lemma dict_get_forallb {V : Type} (T : list (str * V)) (P : str * V -> bool)
  (x : str) (v : V) :
  forallb P T = true -> dict_get T x = Some v -> P (x, v) = true.
Proof.
  intros HP Hget. apply dict_get_In in Hget.
  rewrite forallb_forall in HP. now apply HP.
Qed.

(** A property of the values of a table that the keys need not have. *)
Lemma get_or_self_keeps (T : list (str * str)) (P : str -> bool) (x : str) :
  forallb (fun kv => P (snd kv)) T = true -> P x = true ->
  P (get_or_self T x) = true.
Proof.
  intros HT Hx. unfold get_or_self.
  destruct (dict_get T x) as [v|] eqn:E; auto.
  apply (dict_get_forallb T (fun kv => P (snd kv)) x v HT E).
Qed.

Lemma get_or_self_idem (T : list (str * str)) (x : str) :
  forallb (fun kv => negb (has_key T (snd kv))) T = true ->
  get_or_self T (get_or_self T x) = get_or_self T x.
Proof.
  intros HT. destruct (dict_get T x) as [v|] eqn:E.
  - assert (Hx : get_or_self T x = v) by (unfold get_or_self; now rewrite E).
    rewrite Hx.
    pose proof (dict_get_forallb T _ x v HT E) as H. simpl in H.
    unfold get_or_self, has_key in *. now destruct (dict_get T v).
  - assert (Hx : get_or_self T x = x) by (unfold get_or_self; now rewrite E).
    now rewrite !Hx.
Qed.

Definition AAA (x : str) : str := get_or_self AAA_TO_A x.
Definition CORRECT (x : str) : str := get_or_self CORRECT_ATOM_NAME x.

Lemma AAA_idem (x : str) : AAA (AAA x) = AAA x.
Proof. apply get_or_self_idem. reflexivity. Qed.

Lemma CORRECT_idem (x : str) : CORRECT (CORRECT x) = CORRECT x.
Proof. apply get_or_self_idem. reflexivity. Qed.

Lemma AAA_no_atom_letter (x : str) :
  none_of is_atom_letter x = true -> none_of is_atom_letter (AAA x) = true.
Proof.
  intros Hx. unfold AAA, get_or_self.
  destruct (dict_get AAA_TO_A x) as [v|] eqn:E; auto.
  pose proof (dict_get_forallb AAA_TO_A
                (fun kv => negb (none_of is_atom_letter (fst kv))
                           || none_of is_atom_letter (snd kv))
                x v eq_refl E) as H.
  simpl in H. now rewrite Hx in H.
Qed.

Lemma AAA_nil (x : str) : AAA x = [] <-> x = [].
Proof.
  unfold AAA, get_or_self. destruct (dict_get AAA_TO_A x) as [v|] eqn:E.
  - pose proof (dict_get_forallb AAA_TO_A
                  (fun kv => negb (str_eqb (fst kv) []) && negb (str_eqb (snd kv) []))
                  x v eq_refl E) as H.
    simpl in H. apply andb_true_iff in H as [H1 H2].
    apply negb_true_iff in H1, H2. apply str_eqb_neq in H1, H2. tauto.
  - tauto.
Qed.

(** An atom name that starts with one of H, C, N, Q, M. *)
Definition atom_like (s : str) : bool :=
  match s with
  | [] => false
  | c :: _ => is_atom_letter c
  end.

Lemma CORRECT_atom_like (x : str) : atom_like x = true -> atom_like (CORRECT x) = true.
Proof. apply get_or_self_keeps. reflexivity. Qed.

Lemma standard_not_corrected (x : str) :
  mem x STANDARD_ATOM_NAMES = true -> CORRECT x = x.
Proof.
  intros H. unfold mem in H. apply existsb_exists in H as (n & Hin & Hn).
  apply str_eqb_eq in Hn. subst n.
  assert (Hall : forallb (fun n => str_eqb (CORRECT n) n) STANDARD_ATOM_NAMES = true)
    by (vm_compute; reflexivity).
  rewrite forallb_forall in Hall. apply str_eqb_eq. now apply Hall.
Qed.

Lemma standard_has_atom_letter (x : str) :
  mem x STANDARD_ATOM_NAMES = true -> none_of is_atom_letter x = false.
Proof.
  intros H. unfold mem in H. apply existsb_exists in H as (n & Hin & Hn).
  apply str_eqb_eq in Hn. subst n.
  assert (Hall : forallb (fun n => negb (none_of is_atom_letter n))
                         STANDARD_ATOM_NAMES = true)
    by (vm_compute; reflexivity).
  rewrite forallb_forall in Hall. apply negb_true_iff. now apply Hall.
Qed.

Lemma standard_clean_chars (x : str) :
  mem x STANDARD_ATOM_NAMES = true ->
  none_of is_dash x = true /\ upper x = x /\ strip x = x.
Proof.
  intros H. unfold mem in H. apply existsb_exists in H as (n & Hin & Hn).
  apply str_eqb_eq in Hn. subst n.
  assert (Hall : forallb (fun n => none_of is_dash n && str_eqb (upper n) n
                                   && str_eqb (strip n) n)
                         STANDARD_ATOM_NAMES = true)
    by (vm_compute; reflexivity).
  rewrite forallb_forall in Hall. specialize (Hall _ Hin).
  apply andb_true_iff in Hall as [Hall H3]. apply andb_true_iff in Hall as [H1 H2].
  apply str_eqb_eq in H2, H3. auto.
Qed.

Lemma AAA_not_question (x : str) : AAA x = lit "?" -> x = lit "?".
Proof.
  unfold AAA, get_or_self. destruct (dict_get AAA_TO_A x) as [v|] eqn:E; auto.
  pose proof (dict_get_forallb AAA_TO_A
                (fun kv => negb (str_eqb (snd kv) (lit "?"))) x v eq_refl E) as H.
  simpl in H. apply negb_true_iff in H. apply str_eqb_neq in H. tauto.
Qed.

(** *** Heads and tails *)

Lemma hd_not_app (P : ascii -> bool) (a b : str) :
  hd_not P (a ++ b) = match a with [] => hd_not P b | _ => hd_not P a end.
Proof. now destruct a. Qed.

Lemma hd_not_app_l (P : ascii -> bool) (a b : str) :
  hd_not P (a ++ b) = true -> hd_not P a = true.
Proof. now destruct a. Qed.

Lemma last_not_app (P : ascii -> bool) (a b : str) :
  hd_not P (rev (a ++ b)) =
  match b with [] => hd_not P (rev a) | _ => hd_not P (rev b) end.
Proof.
  rewrite rev_app_distr, hd_not_app.
  destruct b as [|c b]; auto. simpl.
  destruct (rev b ++ [c]) eqn:E; auto.
  now destruct (rev b).
Qed.

Lemma all_hd_not (P Q : ascii -> bool) (s : str) :
  (forall c, P c = true -> Q c = false) -> forallb P s = true ->
  hd_not Q s = true.
Proof.
  intros H. destruct s as [|c s]; simpl; auto. intros Hs.
  apply andb_true_iff in Hs as [Hc _]. now rewrite (H c Hc).
Qed.

Lemma all_last_not (P Q : ascii -> bool) (s : str) :
  (forall c, P c = true -> Q c = false) -> forallb P s = true ->
  hd_not Q (rev s) = true.
Proof.
  intros H Hs. apply (all_hd_not P Q); auto.
  rewrite forallb_forall in *. intros c Hc. apply Hs. now apply in_rev.
Qed.

Lemma digits_upper (s : str) : forallb is_digit s = true -> upper s = s.
Proof.
  induction s as [|c s IH]; simpl; auto. intros H.
  apply andb_true_iff in H as [Hc Hs]. now rewrite digit_upper, IH.
Qed.

Lemma digit_not_atom_letter (c : ascii) : is_digit c = true -> is_atom_letter c = false.
Proof. all_chars c. Qed.

Lemma atom_letter_not_digit (c : ascii) : is_atom_letter c = true -> is_digit c = false.
Proof. all_chars c. Qed.

Lemma atom_letter_not_space (c : ascii) : is_atom_letter c = true -> is_space c = false.
Proof. all_chars c. Qed.

Lemma strip_app_fixed (a b : str) :
  strip a = a -> strip b = b -> strip (a ++ b) = a ++ b.
Proof.
  intros Ha Hb. apply strip_fixed in Ha as [Ha1 Ha2], Hb as [Hb1 Hb2].
  apply strip_id.
  - rewrite hd_not_app. now destruct a.
  - rewrite last_not_app. now destruct b.
Qed.

Lemma upper_fixed_app (a b : str) : upper a = a -> upper b = b -> upper (a ++ b) = a ++ b.
Proof. intros Ha Hb. now rewrite upper_app, Ha, Hb. Qed.

Lemma none_of_firstn (P : ascii -> bool) (n : nat) (s : str) :
  none_of P s = true -> none_of P (firstn n s) = true.
Proof.
  intros H. rewrite <- (firstn_skipn n s), none_of_app in H.
  now apply andb_true_iff in H.
Qed.

Lemma none_of_skipn (P : ascii -> bool) (n : nat) (s : str) :
  none_of P s = true -> none_of P (skipn n s) = true.
Proof.
  intros H. rewrite <- (firstn_skipn n s), none_of_app in H.
  now apply andb_true_iff in H.
Qed.

Lemma upper_firstn (n : nat) (s : str) : upper s = s -> upper (firstn n s) = firstn n s.
Proof.
  intros H. rewrite <- (firstn_skipn n s) in H. now apply upper_app_inv in H.
Qed.

Lemma upper_skipn (n : nat) (s : str) : upper s = s -> upper (skipn n s) = skipn n s.
Proof.
  intros H. rewrite <- (firstn_skipn n s) in H. now apply upper_app_inv in H.
Qed.

(** What [strip] removes is made of spaces. *)
Lemma strip_decomp (s : str) :
  exists l t, s = l ++ strip s ++ t.
Proof.
  unfold strip. destruct (rstrip_decomp (lstrip s)) as (t & Ht & _ & _).
  exists (take_while is_space s), t. rewrite <- Ht. unfold lstrip.
  now rewrite take_drop.
Qed.

Lemma none_of_strip (P : ascii -> bool) (s : str) :
  none_of P s = true -> none_of P (strip s) = true.
Proof.
  intros H. destruct (strip_decomp s) as (l & t & Hs). rewrite Hs in H.
  rewrite !none_of_app in H.
  apply andb_true_iff in H as [_ H]. now apply andb_true_iff in H.
Qed.

Lemma dash_upper (c : ascii) : is_dash c = false -> is_dash (upper_char c) = false.
Proof. all_chars c. Qed.

Lemma none_of_upper_dash (s : str) :
  none_of is_dash s = true -> none_of is_dash (upper s) = true.
Proof.
  unfold none_of. induction s as [|c s IH]; simpl; auto. intros H.
  apply andb_true_iff in H as [Hc Hs]. apply negb_true_iff in Hc.
  now rewrite (dash_upper c Hc), IH.
Qed.

(** *** Groups and atoms of normalized text *)

Lemma Group_init_norm (s : str) : Group_init (upper (strip s)) = Group_init s.
Proof. unfold Group_init. now rewrite norm_idem, upper_idem. Qed.

Lemma Atom_init_norm (s : str) : Atom_init (upper (strip s)) = Atom_init s.
Proof. unfold Atom_init. now rewrite norm_idem, upper_idem. Qed.

Lemma digit_split (x : str) (i : nat) :
  find_idx is_digit x = Some i ->
  exists pre dig suf,
    x = pre ++ dig ++ suf /\ length pre = i
    /\ none_of is_digit pre = true /\ forallb is_digit dig = true
    /\ dig <> [] /\ hd_not is_digit suf = true.
Proof.
  intros H. apply find_idx_some in H as (pre & c & post & -> & Hl & Hpre & Hc).
  exists pre, (c :: take_while is_digit post), (drop_while is_digit post).
  split; [|split; [exact Hl|split; [exact Hpre|split; [|split]]]].
  - simpl. now rewrite take_drop.
  - simpl. now rewrite Hc, take_while_all.
  - discriminate.
  - apply drop_while_hd.
Qed.

Lemma find_digit_numbered (pre dig suf : str) :
  none_of is_digit pre = true -> forallb is_digit dig = true -> dig <> [] ->
  find_idx is_digit (pre ++ dig ++ suf) = Some (length pre).
Proof.
  intros Hpre Hdig Hne. destruct dig as [|d dig]; [congruence|].
  simpl in Hdig. apply andb_true_iff in Hdig as [Hd _].
  simpl. now apply find_idx_app.
Qed.

Lemma Group_init_numbered (pre dig suf : str) :
  upper (pre ++ dig ++ suf) = pre ++ dig ++ suf ->
  strip (pre ++ dig ++ suf) = pre ++ dig ++ suf ->
  none_of is_digit pre = true -> forallb is_digit dig = true -> dig <> [] ->
  hd_not is_digit suf = true ->
  Group_init (pre ++ dig ++ suf)
  = mkGroup (AAA pre ++ str_of_N (int_of_digits dig) ++ suf) (AAA pre)
            (Z.of_N (int_of_digits dig)) suf.
Proof.
  intros Hu Hs Hpre Hdig Hne Hsuf.
  unfold Group_init, parse_group. rewrite !Hs, !Hu, !Hs, !Hu.
  rewrite find_digit_numbered by assumption.
  rewrite skipn_length_app, take_while_app by assumption.
  rewrite firstn_length_app.
  rewrite <- length_app, List.app_assoc, skipn_length_app.
  unfold Group_get_name. rewrite of_N_not_NO_NUMBER, str_of_Z_of_N.
  reflexivity.
Qed.

Lemma Group_init_plain (x : str) :
  upper x = x -> strip x = x -> none_of is_digit x = true ->
  Group_init x = mkGroup (AAA x ++ [] ++ []) (AAA x) NO_NUMBER [].
Proof.
  intros Hu Hs Hnd. unfold Group_init, parse_group. rewrite !Hs, !Hu, !Hs, !Hu.
  apply find_idx_none in Hnd. rewrite Hnd. reflexivity.
Qed.

Lemma Atom_init_fixed (a : str) :
  upper a = a -> strip a = a ->
  Atom_init a = mkAtom (CORRECT a) (STR_TO_NUCLEUS (firstn 1 (CORRECT a))).
Proof. intros Hu Hs. unfold Atom_init. now rewrite Hs, Hu. Qed.

(** The prefix that [rstrip] keeps has the properties of the whole. *)
Lemma rstrip_prefix (s : str) : exists t, s = rstrip s ++ t.
Proof. destruct (rstrip_decomp s) as (t & H & _). now exists t. Qed.

Lemma none_of_rstrip (P : ascii -> bool) (s : str) :
  none_of P s = true -> none_of P (rstrip s) = true.
Proof.
  intros H. destruct (rstrip_prefix s) as (t & Hs). rewrite Hs, none_of_app in H.
  now apply andb_true_iff in H.
Qed.

Lemma hd_not_rstrip (P : ascii -> bool) (s : str) :
  hd_not P s = true -> hd_not P (rstrip s) = true.
Proof.
  intros H. destruct (rstrip_prefix s) as (t & Hs). rewrite Hs in H.
  now apply hd_not_app_l in H.
Qed.

Lemma upper_rstrip (s : str) : upper s = s -> upper (rstrip s) = rstrip s.
Proof.
  intros H. destruct (rstrip_prefix s) as (t & Hs). rewrite Hs in H.
  now apply upper_app_inv in H.
Qed.

Lemma rstrip_last (s : str) : hd_not is_space (rev (rstrip s)) = true.
Proof. destruct (rstrip_decomp s) as (t & _ & _ & H). exact H. Qed.

(** A numbered group followed by text that may end in spaces. *)
Lemma rstrip_numbered (pre dig suf : str) :
  forallb is_digit dig = true -> dig <> [] ->
  rstrip (pre ++ dig ++ suf) = pre ++ dig ++ rstrip suf.
Proof.
  intros Hdig Hne.
  assert (Hpd : rstrip (pre ++ dig) = pre ++ dig).
  { apply rstrip_id. rewrite last_not_app.
    destruct dig as [|d dig]; [congruence|].
    apply (all_last_not is_digit is_space); auto. apply digit_not_space. }
  destruct (rstrip suf) as [|c r] eqn:E.
  - rewrite List.app_assoc, rstrip_app_nil by assumption.
    now rewrite Hpd, List.app_nil_r.
  - rewrite List.app_assoc, rstrip_app by (rewrite E; discriminate).
    now rewrite E, <- List.app_assoc.
Qed.

Lemma Group_init_numbered_spaces (pre dig suf : str) :
  upper (pre ++ dig ++ suf) = pre ++ dig ++ suf ->
  hd_not is_space (pre ++ dig ++ suf) = true ->
  none_of is_digit pre = true -> forallb is_digit dig = true -> dig <> [] ->
  hd_not is_digit suf = true ->
  Group_init (pre ++ dig ++ suf)
  = mkGroup (AAA pre ++ str_of_N (int_of_digits dig) ++ rstrip suf) (AAA pre)
            (Z.of_N (int_of_digits dig)) (rstrip suf).
Proof.
  intros Hu Hh Hpre Hdig Hne Hsuf.
  rewrite <- Group_init_norm.
  rewrite strip_hd_id, rstrip_numbered by assumption.
  assert (Hu' : upper (pre ++ dig ++ rstrip suf) = pre ++ dig ++ rstrip suf).
  { apply upper_app_inv in Hu as [Hu1 Hu2]. apply upper_app_inv in Hu2 as [Hu2 Hu3].
    rewrite !upper_app, Hu1, Hu2, upper_rstrip; auto. }
  rewrite Hu'. apply Group_init_numbered; auto.
  - apply strip_id.
    + rewrite hd_not_app in *. destruct pre; auto.
      rewrite hd_not_app in *. destruct dig; [congruence | auto].
    + rewrite List.app_assoc, last_not_app.
      destruct (rstrip suf) as [|c r] eqn:E.
      * rewrite last_not_app. destruct dig as [|d dig]; [congruence|].
        apply (all_last_not is_digit is_space); auto. apply digit_not_space.
      * rewrite <- E. apply rstrip_last.
  - now apply hd_not_rstrip.
Qed.

Lemma Group_init_plain_spaces (pre : str) :
  upper pre = pre -> hd_not is_space pre = true -> none_of is_digit pre = true ->
  Group_init pre
  = mkGroup (AAA (rstrip pre) ++ [] ++ []) (AAA (rstrip pre)) NO_NUMBER [].
Proof.
  intros Hu Hh Hnd. rewrite <- Group_init_norm.
  rewrite strip_hd_id, upper_rstrip by assumption.
  apply Group_init_plain.
  - now apply upper_rstrip.
  - apply strip_id; [now apply hd_not_rstrip | apply rstrip_last].
  - now apply none_of_rstrip.
Qed.

(** *** Where a normalized spin is cut *)

Lemma not_question (P : ascii -> bool) (x : str) :
  P "?"%char = false -> none_of P x = false -> str_eqb x (lit "?") = false.
Proof.
  intros HP Hx. apply str_eqb_neq. intros ->. vm_compute in Hx.
  rewrite HP in Hx. discriminate.
Qed.

Lemma digits_no_atom_letter (dig : str) :
  forallb is_digit dig = true -> none_of is_atom_letter dig = true.
Proof. apply none_of_impl. apply digit_not_atom_letter. Qed.

Lemma has_digit (pre dig rest : str) :
  forallb is_digit dig = true -> dig <> [] ->
  none_of is_digit (pre ++ dig ++ rest) = false.
Proof.
  intros Hdig Hne. rewrite !none_of_app. destruct dig as [|d dig]; [congruence|].
  simpl in *. apply andb_true_iff in Hdig as [Hd _]. unfold none_of. simpl.
  rewrite Hd. simpl. now rewrite andb_false_r.
Qed.

Lemma split_numbered_atom (pre dig suf atomstr : str) :
  none_of is_digit pre = true -> forallb is_digit dig = true -> dig <> [] ->
  none_of is_atom_letter suf = true -> atom_like atomstr = true ->
  split_group_atom (pre ++ dig ++ suf ++ atomstr)
  = (Group_init (pre ++ dig ++ suf), Atom_init atomstr).
Proof.
  intros Hpre Hdig Hne Hsuf Hatom. unfold split_group_atom.
  rewrite (not_question is_digit) by (auto using has_digit).
  rewrite find_digit_numbered by assumption.
  rewrite skipn_length_app.
  destruct atomstr as [|c post]; [discriminate|]. simpl in Hatom.
  rewrite (List.app_assoc dig suf).
  rewrite find_idx_app; auto.
  - rewrite <- length_app.
    replace (pre ++ (dig ++ suf) ++ c :: post)
      with ((pre ++ dig ++ suf) ++ c :: post)
      by (now rewrite <- !List.app_assoc).
    now rewrite firstn_length_app, skipn_length_app.
  - rewrite none_of_app, Hsuf, digits_no_atom_letter; auto.
Qed.

Lemma split_numbered_group (pre dig rest : str) :
  none_of is_digit pre = true -> forallb is_digit dig = true -> dig <> [] ->
  none_of is_atom_letter rest = true ->
  split_group_atom (pre ++ dig ++ rest)
  = if mem (pre ++ dig ++ rest) STANDARD_ATOM_NAMES
    then (Group_init [], Atom_init (pre ++ dig ++ rest))
    else (Group_init (pre ++ dig ++ rest), Atom_init []).
Proof.
  intros Hpre Hdig Hne Hrest. unfold split_group_atom.
  rewrite (not_question is_digit) by (auto using has_digit).
  rewrite find_digit_numbered by assumption.
  rewrite skipn_length_app.
  assert (Hnone : find_idx is_atom_letter (dig ++ rest) = None).
  { apply find_idx_none. rewrite none_of_app, Hrest, digits_no_atom_letter; auto. }
  now rewrite Hnone.
Qed.

Lemma split_plain_atom (pre atomstr : str) :
  none_of is_digit pre = true -> none_of is_atom_letter pre = true ->
  none_of is_digit atomstr = true -> atom_like atomstr = true ->
  split_group_atom (pre ++ atomstr) = (Group_init pre, Atom_init atomstr).
Proof.
  intros Hpre Hpre' Hatom Hlike. unfold split_group_atom.
  destruct atomstr as [|c post]; [discriminate|]. simpl in Hlike.
  rewrite (not_question is_atom_letter); [|reflexivity|].
  - assert (Hnd : find_idx is_digit (pre ++ c :: post) = None).
    { apply find_idx_none. now rewrite none_of_app, Hpre, Hatom. }
    rewrite Hnd. simpl skipn. rewrite find_idx_app by assumption. simpl.
    now rewrite firstn_length_app, skipn_length_app.
  - rewrite none_of_app. unfold none_of at 2. simpl. rewrite Hlike. simpl.
    apply andb_false_r.
Qed.

Lemma split_plain_group (x : str) :
  none_of is_digit x = true -> none_of is_atom_letter x = true ->
  x <> lit "?" ->
  split_group_atom x = (Group_init x, Atom_init []).
Proof.
  intros Hnd Hnal Hq. unfold split_group_atom.
  apply str_eqb_neq in Hq. rewrite Hq.
  apply find_idx_none in Hnd. rewrite Hnd. simpl skipn.
  apply find_idx_none in Hnal as Hnal'. rewrite Hnal'.
  destruct (mem x STANDARD_ATOM_NAMES) eqn:E; auto.
  apply standard_has_atom_letter in E. congruence.
Qed.

(** The shapes of a spin name: [?]; symbol, number, suffix and atom;
    symbol, number and text without atom letter; symbol and atom; text with
    neither digit nor atom letter. *)
Lemma split_forms (p : str) :
  p = lit "?"
  \/ (exists pre dig suf atomstr,
        p = pre ++ dig ++ suf ++ atomstr
        /\ none_of is_digit pre = true /\ forallb is_digit dig = true
        /\ dig <> [] /\ hd_not is_digit suf = true
        /\ none_of is_atom_letter suf = true /\ atom_like atomstr = true)
  \/ (exists pre dig rest,
        p = pre ++ dig ++ rest
        /\ none_of is_digit pre = true /\ forallb is_digit dig = true
        /\ dig <> [] /\ hd_not is_digit rest = true
        /\ none_of is_atom_letter rest = true)
  \/ (exists pre atomstr,
        p = pre ++ atomstr
        /\ none_of is_digit pre = true /\ none_of is_atom_letter pre = true
        /\ none_of is_digit atomstr = true /\ atom_like atomstr = true)
  \/ (none_of is_digit p = true /\ none_of is_atom_letter p = true
      /\ p <> lit "?").
Proof.
  destruct (list_eq_dec ascii_dec p (lit "?")) as [Hq|Hq]; [now left|right].
  destruct (find_idx is_digit p) as [i|] eqn:Ed.
  - apply digit_split in Ed
      as (pre & dig & suf0 & -> & _ & Hpre & Hdig & Hne & Hsuf0).
    destruct (find_idx is_atom_letter suf0) as [k|] eqn:Ea.
    + left. apply find_idx_some in Ea as (suf & c & post & -> & _ & Hsuf & Hc).
      exists pre, dig, suf, (c :: post). repeat apply conj; auto.
      now apply hd_not_app_l in Hsuf0.
    + right. left. apply find_idx_none in Ea.
      exists pre, dig, suf0. repeat apply conj; auto.
  - right. right. apply find_idx_none in Ed.
    destruct (find_idx is_atom_letter p) as [k|] eqn:Ea.
    + left. apply find_idx_some in Ea as (pre & c & post & -> & _ & Hpre & Hc).
      rewrite none_of_app in Ed. apply andb_true_iff in Ed as [Hd1 Hd2].
      exists pre, (c :: post). repeat apply conj; auto.
    + right. apply find_idx_none in Ea. auto.
Qed.

Lemma atom_like_nonempty (a : str) : atom_like a = true -> a <> [].
Proof. destruct a; [discriminate | discriminate]. Qed.

Lemma atom_like_hd (a : str) : atom_like a = true -> hd_not is_space a = true.
Proof.
  destruct a as [|c a]; [discriminate|]. simpl. intros H.
  now rewrite atom_letter_not_space.
Qed.

(** The atom text at the end of a normalized spin name is normalized. *)
Lemma atom_text_fixed (x atomstr : str) :
  upper (x ++ atomstr) = x ++ atomstr -> strip (x ++ atomstr) = x ++ atomstr ->
  atom_like atomstr = true ->
  upper atomstr = atomstr /\ strip atomstr = atomstr.
Proof.
  intros Hu Hs Hlike. apply upper_app_inv in Hu as [_ Hu]. split; auto.
  apply strip_fixed in Hs as [_ Hl]. apply strip_id.
  - now apply atom_like_hd.
  - rewrite last_not_app in Hl. destruct atomstr; [discriminate | exact Hl].
Qed.

Lemma group_text_fixed (x atomstr : str) :
  upper (x ++ atomstr) = x ++ atomstr -> strip (x ++ atomstr) = x ++ atomstr ->
  upper x = x /\ hd_not is_space x = true.
Proof.
  intros Hu Hs. apply upper_app_inv in Hu as [Hu _]. split; auto.
  apply strip_fixed in Hs as [Hh _]. now apply hd_not_app_l in Hh.
Qed.

Lemma none_of_keep (T : list (str * str)) (P : ascii -> bool) (x : str) :
  forallb (fun kv => none_of P (snd kv)) T = true -> none_of P x = true ->
  none_of P (get_or_self T x) = true.
Proof. apply get_or_self_keeps. Qed.

(** A printed spin is cut again where it was cut, unless it is a group
    without atom whose name reads as a standard atom name. *)
Lemma split_reparse (p : str) (g : Group) (a : Atom) :
  upper p = p -> strip p = p -> split_group_atom p = (g, a) ->
  let q := group_name g ++ atom_name a in
  split_group_atom q = (Group_init (group_name g), Atom_init (atom_name a))
  \/ (atom_name a = [] /\ mem q STANDARD_ATOM_NAMES = true
      /\ split_group_atom q = (Group_init [], Atom_init q)).
Proof.
  intros Hu Hs Hsplit q. subst q.
  destruct (split_forms p)
    as [-> | [(pre & dig & suf & atomstr & -> & Hpre & Hdig & Hne & Hsuf & Hsuf' & Hlike)
       | [(pre & dig & rest & -> & Hpre & Hdig & Hne & Hrest & Hrest')
       | [(pre & atomstr & -> & Hpre & Hpre' & Hatom & Hlike)
       | (Hnd & Hnal & Hq)]]]].
  - vm_compute in Hsplit. injection Hsplit as <- <-. left. vm_compute. reflexivity.
  - rewrite split_numbered_atom in Hsplit by assumption.
    injection Hsplit as <- <-.
    replace (pre ++ dig ++ suf ++ atomstr) with ((pre ++ dig ++ suf) ++ atomstr)
      in Hu, Hs by (now rewrite <- !List.app_assoc).
    destruct (atom_text_fixed _ _ Hu Hs Hlike) as [Hua Hsa].
    destruct (group_text_fixed _ _ Hu Hs) as [Hug Hhg].
    rewrite Group_init_numbered_spaces, Atom_init_fixed by assumption.
    cbn [group_name atom_name]. left.
    rewrite <- !List.app_assoc. apply split_numbered_atom; auto.
    + apply none_of_keep; [reflexivity | assumption].
    + apply str_of_N_digits.
    + apply str_of_N_nonempty.
    + now apply none_of_rstrip.
    + now apply CORRECT_atom_like.
  - rewrite split_numbered_group in Hsplit by assumption.
    destruct (mem (pre ++ dig ++ rest) STANDARD_ATOM_NAMES) eqn:Estd;
      injection Hsplit as <- <-.
    + left. rewrite Atom_init_fixed by assumption.
      cbn [atom_name]. rewrite (standard_not_corrected _ Estd).
      change (group_name (Group_init [])) with (@nil ascii). simpl app.
      rewrite split_numbered_group, Estd by assumption.
      now rewrite Atom_init_fixed, (standard_not_corrected _ Estd) by assumption.
    + rewrite Group_init_numbered by assumption.
      change (atom_name (Atom_init [])) with (@nil ascii).
      cbn [group_name]. rewrite List.app_nil_r.
      rewrite split_numbered_group; auto.
      * destruct (mem (AAA pre ++ str_of_N (int_of_digits dig) ++ rest)
                      STANDARD_ATOM_NAMES) eqn:E2; [right | left]; auto.
      * apply none_of_keep; [reflexivity | assumption].
      * apply str_of_N_digits.
      * apply str_of_N_nonempty.
  - rewrite split_plain_atom in Hsplit by assumption.
    injection Hsplit as <- <-.
    destruct (atom_text_fixed _ _ Hu Hs Hlike) as [Hua Hsa].
    destruct (group_text_fixed _ _ Hu Hs) as [Hug Hhg].
    rewrite Group_init_plain_spaces, Atom_init_fixed by assumption.
    cbn [group_name atom_name]. rewrite !List.app_nil_r. left.
    apply split_plain_atom.
    + apply none_of_keep; [reflexivity | now apply none_of_rstrip].
    + apply AAA_no_atom_letter. now apply none_of_rstrip.
    + apply none_of_keep; [reflexivity | assumption].
    + now apply CORRECT_atom_like.
  - rewrite split_plain_group in Hsplit by assumption.
    injection Hsplit as <- <-.
    rewrite Group_init_plain by assumption.
    change (atom_name (Atom_init [])) with (@nil ascii).
    cbn [group_name]. rewrite !List.app_nil_r. left.
    apply split_plain_group.
    + apply none_of_keep; [reflexivity | assumption].
    + now apply AAA_no_atom_letter.
    + intros H. apply AAA_not_question in H. contradiction.
Qed.

(** *** Names are read back as they are *)

Lemma digits_no_dash (s : str) :
  forallb is_digit s = true -> none_of is_dash s = true.
Proof. apply none_of_impl. apply digit_not_dash. Qed.

Lemma upper_keep (T : list (str * str)) (x : str) :
  forallb (fun kv => str_eqb (upper (snd kv)) (snd kv)) T = true ->
  upper x = x -> upper (get_or_self T x) = get_or_self T x.
Proof.
  intros HT Hx. apply str_eqb_eq.
  apply (get_or_self_keeps T (fun s => str_eqb (upper s) s)); auto.
  now apply str_eqb_eq.
Qed.

Lemma strip_keep (T : list (str * str)) (x : str) :
  forallb (fun kv => str_eqb (strip (snd kv)) (snd kv)) T = true ->
  strip x = x -> strip (get_or_self T x) = get_or_self T x.
Proof.
  intros HT Hx. apply str_eqb_eq.
  apply (get_or_self_keeps T (fun s => str_eqb (strip s) s)); auto.
  now apply str_eqb_eq.
Qed.

Lemma hd_keep (T : list (str * str)) (x : str) :
  forallb (fun kv => hd_not is_space (snd kv)) T = true ->
  hd_not is_space x = true -> hd_not is_space (get_or_self T x) = true.
Proof. apply get_or_self_keeps. Qed.

(** The name of a group is normalized, has a hyphen only if the text had
    one, and is read back as the same group. *)
Lemma Group_init_name (s : str) :
  let n := group_name (Group_init s) in
  upper n = n /\ strip n = n
  /\ (none_of is_dash s = true -> none_of is_dash n = true)
  /\ Group_init n = Group_init s.
Proof.
  rewrite <- (Group_init_norm s).
  set (x := upper (strip s)).
  assert (Hu : upper x = x) by apply upper_idem.
  assert (Hs : strip x = x) by apply norm_idem.
  assert (Hdash : none_of is_dash s = true -> none_of is_dash x = true).
  { intros H. apply none_of_upper_dash. now apply none_of_strip. }
  clearbody x. destruct (find_idx is_digit x) as [i|] eqn:Ed.
  - apply digit_split in Ed
      as (pre & dig & suf & -> & _ & Hpre & Hdig & Hne & Hsuf).
    rewrite Group_init_numbered by assumption. cbn [group_name].
    apply upper_app_inv in Hu as Hu'. destruct Hu' as [Hu1 Hu2].
    apply upper_app_inv in Hu2 as [Hu2 Hu3].
    apply strip_fixed in Hs as Hs'. destruct Hs' as [Hh Hl].
    assert (Hun : upper (AAA pre ++ str_of_N (int_of_digits dig) ++ suf)
                  = AAA pre ++ str_of_N (int_of_digits dig) ++ suf).
    { rewrite !upper_app, Hu3.
      rewrite (digits_upper _ (str_of_N_digits _)).
      unfold AAA. rewrite upper_keep; auto. }
    assert (Hsn : strip (AAA pre ++ str_of_N (int_of_digits dig) ++ suf)
                  = AAA pre ++ str_of_N (int_of_digits dig) ++ suf).
    { apply strip_id.
      - rewrite hd_not_app. destruct (AAA pre) as [|c r] eqn:E.
        + rewrite hd_not_app.
          pose proof (str_of_N_nonempty (int_of_digits dig)) as Hn.
          pose proof (str_of_N_digits (int_of_digits dig)) as Hd.
          destruct (str_of_N (int_of_digits dig)); [congruence|].
          apply (all_hd_not is_digit is_space); auto. apply digit_not_space.
        + rewrite <- E. unfold AAA. apply hd_keep; [reflexivity|].
          now apply hd_not_app_l in Hh.
      - rewrite List.app_assoc, last_not_app.
        destruct suf as [|c r] eqn:E.
        + rewrite last_not_app.
          pose proof (str_of_N_nonempty (int_of_digits dig)) as Hn.
          pose proof (str_of_N_digits (int_of_digits dig)) as Hd.
          destruct (str_of_N (int_of_digits dig)) eqn:E'; [congruence|].
          apply (all_last_not is_digit is_space); auto. apply digit_not_space.
        + rewrite List.app_assoc, last_not_app in Hl. exact Hl. }
    repeat apply conj; auto.
    + intros H. specialize (Hdash H). rewrite !none_of_app in *.
      apply andb_true_iff in Hdash as [Hd1 Hd2].
      apply andb_true_iff in Hd2 as [Hd2 Hd3].
      rewrite Hd3, (digits_no_dash _ (str_of_N_digits _)).
      unfold AAA. rewrite none_of_keep; auto.
    + rewrite Group_init_numbered; auto.
      * now rewrite AAA_idem, int_of_str_of_N.
      * unfold AAA. apply none_of_keep; [reflexivity | assumption].
      * apply str_of_N_digits.
      * apply str_of_N_nonempty.
  - apply find_idx_none in Ed.
    rewrite Group_init_plain by assumption. cbn [group_name].
    rewrite !List.app_nil_r.
    assert (Hun : upper (AAA x) = AAA x) by (unfold AAA; apply upper_keep; auto).
    assert (Hsn : strip (AAA x) = AAA x) by (unfold AAA; apply strip_keep; auto).
    repeat apply conj; auto.
    + intros H. unfold AAA. apply none_of_keep; auto.
    + rewrite Group_init_plain; auto.
      * now rewrite AAA_idem, !List.app_nil_r.
      * unfold AAA. apply none_of_keep; [reflexivity | assumption].
Qed.

(** The same for the name of an atom. *)
Lemma Atom_init_name (s : str) :
  let n := atom_name (Atom_init s) in
  upper n = n /\ strip n = n
  /\ (none_of is_dash s = true -> none_of is_dash n = true)
  /\ Atom_init n = Atom_init s.
Proof.
  rewrite <- (Atom_init_norm s).
  set (x := upper (strip s)).
  assert (Hu : upper x = x) by apply upper_idem.
  assert (Hs : strip x = x) by apply norm_idem.
  assert (Hdash : none_of is_dash s = true -> none_of is_dash x = true).
  { intros H. apply none_of_upper_dash. now apply none_of_strip. }
  clearbody x. rewrite Atom_init_fixed by assumption. cbn [atom_name].
  assert (Hun : upper (CORRECT x) = CORRECT x)
    by (unfold CORRECT; apply upper_keep; auto).
  assert (Hsn : strip (CORRECT x) = CORRECT x)
    by (unfold CORRECT; apply strip_keep; auto).
  repeat apply conj; auto.
  - intros H. unfold CORRECT. apply none_of_keep; auto.
  - rewrite Atom_init_fixed by assumption. now rewrite CORRECT_idem.
Qed.

(** The two texts that [split_group_atom] hands to [Group] and [Atom] are
    parts of the name. *)
Lemma split_inputs (p : str) (g : Group) (a : Atom) :
  split_group_atom p = (g, a) ->
  exists x y,
    g = Group_init x /\ a = Atom_init y
    /\ (none_of is_dash p = true ->
        none_of is_dash x = true /\ none_of is_dash y = true).
Proof.
  unfold split_group_atom. destruct (str_eqb p (lit "?")).
  - intros [= <- <-]. exists [], []. auto.
  - destruct (find_idx is_atom_letter _) as [k|].
    + intros [= <- <-]. eexists _, _. split; [reflexivity|split; [reflexivity|]].
      intros H. split; [now apply none_of_firstn | now apply none_of_skipn].
    + destruct (mem p STANDARD_ATOM_NAMES); intros [= <- <-].
      * exists [], p. auto.
      * exists p, []. auto.
Qed.

(** *** Splitting and joining on hyphens *)

Lemma split_on_none (s : str) :
  none_of is_dash s = true -> split_on "-" s = [s].
Proof.
  unfold none_of, is_dash. induction s as [|c s IH]; simpl; auto.
  destruct (ascii_dec c "-"); simpl; [discriminate|].
  intros H. now rewrite IH.
Qed.

Lemma split_on_dash (t s : str) :
  none_of is_dash t = true ->
  split_on "-" (t ++ "-"%char :: s) = t :: split_on "-" s.
Proof.
  unfold none_of, is_dash. induction t as [|c t IH]; simpl.
  - intros _. destruct (ascii_dec "-" "-"); [reflexivity | congruence].
  - destruct (ascii_dec c "-"); simpl; [discriminate|].
    intros H. now rewrite IH.
Qed.

Lemma split_on_parts (s : str) :
  Forall (fun t => none_of is_dash t = true) (split_on "-" s).
Proof.
  induction s as [|c s IH]; simpl.
  - repeat constructor.
  - destruct (ascii_dec c "-") as [E|E].
    + constructor; auto.
    + destruct (split_on "-" s) as [|w ws]; [repeat constructor|].
      * unfold none_of, is_dash. simpl. now destruct (ascii_dec c "-").
      * inversion IH; subst. constructor; auto.
        unfold none_of, is_dash in *. simpl.
        now destruct (ascii_dec c "-").
Qed.

Lemma split_join (ts : list str) :
  ts <> [] -> Forall (fun t => none_of is_dash t = true) ts ->
  split_on "-" (join (lit "-") ts) = ts.
Proof.
  induction ts as [|t ts IH]; [congruence|]. intros _ Hall.
  inversion Hall as [|? ? Ht Hts]; subst.
  destruct ts as [|t2 ts].
  - simpl. now apply split_on_none.
  - change (join (lit "-") (t :: t2 :: ts))
      with (t ++ "-"%char :: join (lit "-") (t2 :: ts)).
    rewrite split_on_dash by assumption. f_equal. apply IH; [discriminate | auto].
Qed.

Lemma join_upper (ts : list str) :
  Forall (fun t => upper t = t) ts -> upper (join (lit "-") ts) = join (lit "-") ts.
Proof.
  induction 1 as [|t ts Ht Hts IH]; auto.
  destruct ts as [|t2 ts]; [exact Ht|].
  change (join (lit "-") (t :: t2 :: ts))
    with (t ++ lit "-" ++ join (lit "-") (t2 :: ts)).
  now rewrite !upper_app, Ht, IH.
Qed.

Lemma join_hd (ts : list str) :
  Forall (fun t => hd_not is_space t = true) ts ->
  hd_not is_space (join (lit "-") ts) = true.
Proof.
  induction 1 as [|t ts Ht Hts IH]; auto.
  destruct ts as [|t2 ts]; [exact Ht|].
  change (join (lit "-") (t :: t2 :: ts))
    with (t ++ "-"%char :: join (lit "-") (t2 :: ts)).
  rewrite hd_not_app. now destruct t.
Qed.

Lemma join_last (ts : list str) :
  Forall (fun t => hd_not is_space (rev t) = true) ts ->
  hd_not is_space (rev (join (lit "-") ts)) = true.
Proof.
  induction 1 as [|t ts Ht Hts IH]; auto.
  destruct ts as [|t2 ts]; [exact Ht|].
  change (join (lit "-") (t :: t2 :: ts))
    with (t ++ "-"%char :: join (lit "-") (t2 :: ts)).
  remember (join (lit "-") (t2 :: ts)) as J.
  rewrite last_not_app. simpl. rewrite hd_not_app.
  destruct (rev J); [reflexivity | exact IH].
Qed.

Lemma join_strip (ts : list str) :
  Forall (fun t => strip t = t) ts -> strip (join (lit "-") ts) = join (lit "-") ts.
Proof.
  intros H. apply strip_id.
  - apply join_hd. eapply Forall_impl; [|exact H].
    intros t Ht. now apply strip_fixed in Ht.
  - apply join_last. eapply Forall_impl; [|exact H].
    intros t Ht. now apply strip_fixed in Ht.
Qed.

(** *** The spins of a label, one hyphen-separated part after the other *)

(** The loop of [parse_spin_system] on the parts alone; before the first
    spin the blank group stands for [None]. *)
Fixpoint parse_spins (parts : list str) (prev : Group) : list Spin :=
  match parts with
  | [] => []
  | part :: rest =>
      let spin := Spin_init part (Some prev) in
      spin :: parse_spins rest (spin_group spin)
  end.

Definition blank : Group := Group_init [].

(** The text that [spins2name] prints for a spin that follows [prev]. *)
Definition spin_text (spin : Spin) (prev : Group) : str :=
  if Group_eq (spin_group spin) prev
  then atom_name (spin_atom spin) else spin_name spin.

Lemma Spin_init_None (part : str) (prev : Group) :
  Group_bool prev = false -> Spin_init part None = Spin_init part (Some prev).
Proof.
  intros H. unfold Spin_init.
  destruct (split_group_atom (upper (strip part))) as [g a].
  now rewrite H, andb_false_r.
Qed.

Lemma parse_loop_spins (pairs : list (str * str)) (last : option Group) (prev : Group) :
  last = Some prev \/ (last = None /\ Group_bool prev = false) ->
  map snd (parse_loop pairs last) = parse_spins (map snd pairs) prev.
Proof.
  revert last prev. induction pairs as [|[alias part] pairs IH]; intros last prev H.
  - reflexivity.
  - simpl. destruct H as [-> | [-> H]].
    + f_equal. apply IH. now left.
    + rewrite (Spin_init_None part prev H). f_equal. apply IH. now left.
Qed.

Lemma map_snd_combine {A B : Type} (a : list A) (b : list B) :
  map snd (combine a b) = firstn (length a) b.
Proof.
  revert b. induction a as [|x a IH]; intros [|y b]; simpl; auto. now rewrite IH.
Qed.

Lemma spin_names_texts (spins : list Spin) (prev : Group) :
  spin_names spins prev =
  match spins with
  | [] => []
  | spin :: rest => spin_text spin prev :: spin_names rest (spin_group spin)
  end.
Proof. now destruct spins. Qed.

(** The name of a spin system, from its label. *)
Lemma ss_name_parts (label : str) :
  ss_name (SpinSystem_init label) =
  match upper (strip label) with
  | [] => []
  | _ :: _ =>
      join (lit "-")
           (spin_names (parse_spins (firstn 3 (split_on "-" (upper (strip label))))
                                    blank) blank)
  end.
Proof.
  unfold SpinSystem_init, parse_spin_system, spins2name. cbn [ss_name].
  destruct (upper (strip label)) as [|c L]; [reflexivity|].
  rewrite (parse_loop_spins _ None blank) by (right; split; reflexivity).
  rewrite map_snd_combine. reflexivity.
Qed.

(** The group that a spin ends with: its own, or the one before it. *)
Definition completed_group (g prev : Group) : Group :=
  if negb (Group_bool g) && Group_bool prev then prev else g.

Lemma Spin_init_split (part : str) (prev : Group) (g : Group) (a : Atom) :
  split_group_atom (upper (strip part)) = (g, a) ->
  Spin_init part (Some prev)
  = mkSpin (group_name (completed_group g prev) ++ atom_name a)
           (completed_group g prev) a.
Proof. intros H. unfold Spin_init. now rewrite H. Qed.

Lemma Group_eq_names (a b a' b' : Group) :
  group_name a' = group_name a -> group_name b' = group_name b ->
  Group_eq a' b' = Group_eq a b.
Proof. unfold Group_eq. now intros -> ->. Qed.

Lemma Group_bool_name (g : Group) : Group_bool g = false <-> group_name g = [].
Proof.
  unfold Group_bool. rewrite negb_false_iff. apply str_eqb_eq.
Qed.

Lemma Group_bool_names (g g' : Group) :
  group_name g' = group_name g -> Group_bool g' = Group_bool g.
Proof. unfold Group_bool. now intros ->. Qed.

(** *** Atoms that are read back as atoms *)

Lemma standard_split (n : str) :
  mem n STANDARD_ATOM_NAMES = true ->
  split_group_atom n = (Group_init [], Atom_init n).
Proof.
  intros H. unfold mem in H. apply existsb_exists in H as (m & Hin & Hm).
  apply str_eqb_eq in Hm. subst m. revert n Hin. apply Forall_forall.
  unfold STANDARD_ATOM_NAMES. simpl map.
  repeat (constructor; [vm_compute; reflexivity|]). constructor.
Qed.

Lemma atom_reparse (aname : str) :
  aname = [] \/ atom_like aname = true ->
  none_of is_digit aname = true \/ mem aname STANDARD_ATOM_NAMES = true ->
  split_group_atom aname = (Group_init [], Atom_init aname).
Proof.
  intros Hshape [Hnd | Hstd]; [|now apply standard_split].
  destruct Hshape as [-> | Hlike]; [reflexivity|].
  now apply (split_plain_atom [] aname).
Qed.

(** The atom that [split_group_atom] finds is blank or starts with an atom
    letter. *)
Lemma split_atom_shape (p : str) (g : Group) (a : Atom) :
  upper p = p -> strip p = p -> split_group_atom p = (g, a) ->
  atom_name a = [] \/ atom_like (atom_name a) = true.
Proof.
  intros Hu Hs Hsplit.
  destruct (split_forms p)
    as [-> | [(pre & dig & suf & atomstr & -> & Hpre & Hdig & Hne & Hsuf & Hsuf' & Hlike)
       | [(pre & dig & rest & -> & Hpre & Hdig & Hne & Hrest & Hrest')
       | [(pre & atomstr & -> & Hpre & Hpre' & Hatom & Hlike)
       | (Hnd & Hnal & Hq)]]]].
  - vm_compute in Hsplit. injection Hsplit as <- <-. now left.
  - rewrite split_numbered_atom in Hsplit by assumption.
    injection Hsplit as <- <-.
    replace (pre ++ dig ++ suf ++ atomstr) with ((pre ++ dig ++ suf) ++ atomstr)
      in Hu, Hs by (now rewrite <- !List.app_assoc).
    destruct (atom_text_fixed _ _ Hu Hs Hlike) as [Hua Hsa].
    rewrite Atom_init_fixed by assumption. right. now apply CORRECT_atom_like.
  - rewrite split_numbered_group in Hsplit by assumption.
    destruct (mem (pre ++ dig ++ rest) STANDARD_ATOM_NAMES) eqn:Estd;
      injection Hsplit as <- <-; [|now left].
    rewrite Atom_init_fixed by assumption. cbn [atom_name].
    rewrite (standard_not_corrected _ Estd). right.
    unfold mem in Estd. apply existsb_exists in Estd as (m & Hin & Hm).
    apply str_eqb_eq in Hm. rewrite Hm.
    assert (Hall : forallb atom_like STANDARD_ATOM_NAMES = true)
      by (vm_compute; reflexivity).
    rewrite forallb_forall in Hall. now apply Hall.
  - rewrite split_plain_atom in Hsplit by assumption.
    injection Hsplit as <- <-.
    destruct (atom_text_fixed _ _ Hu Hs Hlike) as [Hua Hsa].
    rewrite Atom_init_fixed by assumption. right. now apply CORRECT_atom_like.
  - rewrite split_plain_group in Hsplit by assumption.
    injection Hsplit as <- <-. now left.
Qed.

(** *** Reading a printed spin again *)

(** A spin whose printed text is read back as the same group and atom: its
    atom name is blank, free of digits or a standard atom name, and a spin
    without atom does not have a group whose name is a standard atom name
    (such as [H2], the name of the group [HIS2]). *)
Definition spin_ok (spin : Spin) : bool :=
  let a := atom_name (spin_atom spin) in
  (none_of is_digit a || mem a STANDARD_ATOM_NAMES)
  && (negb (str_eqb a [])
      || negb (mem (group_name (spin_group spin)) STANDARD_ATOM_NAMES)).

Lemma parse_spins_cons (part : str) (rest : list str) (prev : Group) :
  parse_spins (part :: rest) prev
  = Spin_init part (Some prev)
    :: parse_spins rest (spin_group (Spin_init part (Some prev))).
Proof. reflexivity. Qed.

Lemma spin_names_cons (spin : Spin) (rest : list Spin) (prev : Group) :
  spin_names (spin :: rest) prev
  = spin_text spin prev :: spin_names rest (spin_group spin).
Proof. reflexivity. Qed.

Lemma completed_group_own (g prev : Group) :
  Group_eq (completed_group g prev) prev = false ->
  completed_group g prev = g /\ group_name g <> [].
Proof.
  unfold completed_group, Group_eq.
  destruct (negb (Group_bool g) && Group_bool prev) eqn:Ec.
  - now rewrite str_eqb_refl.
  - intros Hne. split; auto. intros Hg.
    apply Group_bool_name in Hg as Hg'. rewrite Hg' in Ec. simpl in Ec.
    apply Group_bool_name in Ec. rewrite Hg, Ec in Hne. discriminate.
Qed.

Lemma respin (part : str) (prev prev' : Group) :
  group_name prev' = group_name prev ->
  spin_ok (Spin_init part (Some prev)) = true ->
  let spin := Spin_init part (Some prev) in
  let spin' := Spin_init (spin_text spin prev) (Some prev') in
  group_name (spin_group spin') = group_name (spin_group spin)
  /\ atom_name (spin_atom spin') = atom_name (spin_atom spin)
  /\ spin_name spin' = spin_name spin.
Proof.
  intros Hprev Hok.
  assert (Hu : upper (upper (strip part)) = upper (strip part)) by apply upper_idem.
  assert (Hs : strip (upper (strip part)) = upper (strip part)) by apply norm_idem.
  destruct (split_group_atom (upper (strip part))) as [g a] eqn:Hsplit.
  rewrite (Spin_init_split part prev g a Hsplit) in *.
  destruct (split_inputs _ g a Hsplit) as (x0 & y0 & Hg & Ha & _).
  destruct (Group_init_name x0) as (Hgu & Hgs & _ & Hgi). rewrite <- Hg in *.
  destruct (Atom_init_name y0) as (Hau & Has & _ & Hai). rewrite <- Ha in *.
  unfold spin_ok in Hok. cbn [spin_group spin_atom] in Hok.
  apply andb_true_iff in Hok as [Hok1 Hok2].
  cbv zeta. unfold spin_text. cbn [spin_group spin_atom spin_name].
  destruct (Group_eq (completed_group g prev) prev) eqn:Eeq.
  - assert (Hre : split_group_atom (atom_name a)
                  = (Group_init [], Atom_init (atom_name a))).
    { apply atom_reparse.
      - apply (split_atom_shape _ g a Hu Hs Hsplit).
      - apply orb_true_iff in Hok1. exact Hok1. }
    rewrite (Spin_init_split (atom_name a) prev' (Group_init [])
               (Atom_init (atom_name a))) by (now rewrite Has, Hau).
    cbn [spin_group spin_atom spin_name]. rewrite Hai.
    unfold Group_eq in Eeq. apply str_eqb_eq in Eeq.
    assert (Hn : group_name (completed_group (Group_init []) prev')
                 = group_name (completed_group g prev)).
    { rewrite Eeq, <- Hprev. unfold completed_group.
      change (Group_bool (Group_init [])) with false. simpl.
      destruct (Group_bool prev') eqn:Eb; auto.
      apply Group_bool_name in Eb. now rewrite Eb. }
    rewrite Hn. auto.
  - destruct (completed_group_own g prev Eeq) as [Hown Hne]. rewrite Hown in *.
    assert (Hut : upper (group_name g ++ atom_name a) = group_name g ++ atom_name a)
      by (now apply upper_fixed_app).
    assert (Hst : strip (group_name g ++ atom_name a) = group_name g ++ atom_name a)
      by (now apply strip_app_fixed).
    destruct (split_reparse _ g a Hu Hs Hsplit) as [Hre | (Ha0 & Hstd & _)].
    + rewrite (Spin_init_split (group_name g ++ atom_name a) prev'
                 (Group_init (group_name g)) (Atom_init (atom_name a)))
        by (now rewrite Hst, Hut).
      cbn [spin_group spin_atom spin_name]. rewrite Hgi, Hai.
      assert (Hc : completed_group g prev' = g).
      { unfold completed_group.
        replace (Group_bool g) with true; [reflexivity|].
        symmetry. apply not_false_is_true. intros Hb.
        now apply Group_bool_name in Hb. }
      rewrite Hc. auto.
    + rewrite Ha0, List.app_nil_r in Hstd. rewrite Ha0, Hstd in Hok2.
      discriminate.
Qed.

Lemma spin_text_ext (spin spin' : Spin) (prev prev' : Group) :
  group_name (spin_group spin') = group_name (spin_group spin) ->
  atom_name (spin_atom spin') = atom_name (spin_atom spin) ->
  spin_name spin' = spin_name spin ->
  group_name prev' = group_name prev ->
  spin_text spin' prev' = spin_text spin prev.
Proof.
  intros Hg Ha Hn Hprev. unfold spin_text.
  rewrite (Group_eq_names _ _ _ _ Hg Hprev). now rewrite Ha, Hn.
Qed.

(** Spins that are all read back as they are keep their printed texts. *)
Lemma reparse_names (parts : list str) (prev prev' : Group) :
  group_name prev' = group_name prev ->
  forallb spin_ok (parse_spins parts prev) = true ->
  spin_names (parse_spins (spin_names (parse_spins parts prev) prev) prev') prev'
  = spin_names (parse_spins parts prev) prev.
Proof.
  revert prev prev'. induction parts as [|part rest IH]; intros prev prev' Hprev Hok.
  - reflexivity.
  - rewrite parse_spins_cons in *. rewrite spin_names_cons.
    rewrite parse_spins_cons, spin_names_cons.
    cbn [forallb] in Hok. apply andb_true_iff in Hok as [Hok1 Hok2].
    destruct (respin part prev prev' Hprev Hok1) as (Hg & Ha & Hn).
    f_equal.
    + apply spin_text_ext; assumption.
    + apply IH; assumption.
Qed.

(** *** The printed texts are normalized and free of hyphens *)

Definition fixed_text (t : str) : Prop :=
  upper t = t /\ strip t = t /\ none_of is_dash t = true.

Lemma fixed_text_app (a b : str) : fixed_text a -> fixed_text b -> fixed_text (a ++ b).
Proof.
  intros (Hau & Has & Had) (Hbu & Hbs & Hbd). repeat apply conj.
  - now apply upper_fixed_app.
  - now apply strip_app_fixed.
  - now rewrite none_of_app, Had, Hbd.
Qed.

Lemma spin_texts_fixed (parts : list str) (prev : Group) :
  fixed_text (group_name prev) ->
  Forall (fun part => none_of is_dash part = true) parts ->
  Forall fixed_text (spin_names (parse_spins parts prev) prev).
Proof.
  intros Hprev Hparts. revert prev Hprev.
  induction Hparts as [|part rest Hpart _ IH]; intros prev Hprev.
  - constructor.
  - rewrite parse_spins_cons, spin_names_cons.
    destruct (split_group_atom (upper (strip part))) as [g a] eqn:Hsplit.
    rewrite (Spin_init_split part prev g a Hsplit).
    destruct (split_inputs _ g a Hsplit) as (x0 & y0 & Hg & Ha & Hd).
    destruct Hd as [Hd1 Hd2];
      [apply none_of_upper_dash; now apply none_of_strip|].
    destruct (Group_init_name x0) as (Hgu & Hgs & Hgd & _). rewrite <- Hg in *.
    destruct (Atom_init_name y0) as (Hau & Has & Had & _). rewrite <- Ha in *.
    assert (Hgf : fixed_text (group_name (completed_group g prev))).
    { unfold completed_group.
      destruct (negb (Group_bool g) && Group_bool prev); auto.
      repeat apply conj; auto. }
    assert (Haf : fixed_text (atom_name a)) by (repeat apply conj; auto).
    constructor.
    + unfold spin_text. cbn [spin_group spin_atom spin_name].
      destruct (Group_eq _ prev); auto. now apply fixed_text_app.
    + apply IH. exact Hgf.
Qed.

Lemma spin_names_length (spins : list Spin) (prev : Group) :
  length (spin_names spins prev) = length spins.
Proof.
  revert prev. induction spins as [|spin rest IH]; intros prev; simpl; auto.
Qed.

Lemma parse_spins_length (parts : list str) (prev : Group) :
  length (parse_spins parts prev) = length parts.
Proof.
  revert prev. induction parts as [|part rest IH]; intros prev; simpl; auto.
Qed.

(** *** A single spin *)

Lemma completed_group_blank (g : Group) : completed_group g blank = g.
Proof.
  unfold completed_group. change (Group_bool blank) with false.
  now rewrite andb_false_r.
Qed.

Lemma spin_text_blank (g : Group) (a : Atom) :
  spin_text (mkSpin (group_name g ++ atom_name a) g a) blank
  = group_name g ++ atom_name a.
Proof.
  unfold spin_text, Group_eq. cbn [spin_group spin_atom spin_name].
  change (group_name blank) with (@nil ascii).
  destruct (str_eqb (group_name g) []) eqn:E; auto.
  apply str_eqb_eq in E. now rewrite E.
Qed.

Lemma single_part_stable (part : str) :
  let t := spin_text (Spin_init part (Some blank)) blank in
  spin_text (Spin_init t (Some blank)) blank = t.
Proof.
  assert (Hu : upper (upper (strip part)) = upper (strip part)) by apply upper_idem.
  assert (Hs : strip (upper (strip part)) = upper (strip part)) by apply norm_idem.
  destruct (split_group_atom (upper (strip part))) as [g a] eqn:Hsplit.
  rewrite (Spin_init_split part blank g a Hsplit).
  rewrite completed_group_blank, spin_text_blank. cbv zeta.
  destruct (split_inputs _ g a Hsplit) as (x0 & y0 & Hg & Ha & _).
  destruct (Group_init_name x0) as (Hgu & Hgs & _ & Hgi). rewrite <- Hg in *.
  destruct (Atom_init_name y0) as (Hau & Has & _ & Hai). rewrite <- Ha in *.
  assert (Hut : upper (group_name g ++ atom_name a) = group_name g ++ atom_name a)
    by (now apply upper_fixed_app).
  assert (Hst : strip (group_name g ++ atom_name a) = group_name g ++ atom_name a)
    by (now apply strip_app_fixed).
  destruct (split_reparse _ g a Hu Hs Hsplit) as [Hre | (Ha0 & Hstd & Hre)].
  - rewrite (Spin_init_split (group_name g ++ atom_name a) blank
               (Group_init (group_name g)) (Atom_init (atom_name a)))
      by (now rewrite Hst, Hut).
    rewrite completed_group_blank, spin_text_blank. now rewrite Hgi, Hai.
  - rewrite (Spin_init_split (group_name g ++ atom_name a) blank
               (Group_init []) (Atom_init (group_name g ++ atom_name a)))
      by (now rewrite Hst, Hut).
    rewrite completed_group_blank, spin_text_blank.
    rewrite Atom_init_fixed by assumption. cbn [atom_name].
    now rewrite (standard_not_corrected _ Hstd).
Qed.

(** *** The whole label *)

Lemma split_on_nonempty (s : str) : split_on "-" s <> [].
Proof.
  destruct s as [|c s]; simpl; [discriminate|].
  destruct (ascii_dec c "-"); [discriminate|].
  destruct (split_on "-" s); discriminate.
Qed.

Lemma Forall_firstn_keep {A : Type} (P : A -> Prop) (n : nat) (l : list A) :
  Forall P l -> Forall P (firstn n l).
Proof.
  intros H. revert n. induction H as [|x l Hx _ IH]; intros [|n]; simpl; auto.
Qed.

Lemma firstn_nonempty {A : Type} (n : nat) (l : list A) :
  l <> [] -> firstn (S n) l <> [].
Proof. destruct l; [congruence | discriminate]. Qed.

Lemma ss_spins_parts (label : str) :
  map snd (ss_spins (SpinSystem_init label)) =
  match upper (strip label) with
  | [] => []
  | _ :: _ =>
      parse_spins (firstn 3 (split_on "-" (upper (strip label)))) blank
  end.
Proof.
  unfold SpinSystem_init, parse_spin_system. cbn [ss_spins].
  destruct (upper (strip label)) as [|c L]; [reflexivity|].
  rewrite (parse_loop_spins _ None blank) by (right; split; reflexivity).
  rewrite map_snd_combine. reflexivity.
Qed.

(** The print of at most three parsed spins is parsed and printed to itself,
    when there is one spin or every spin is read back as it is. *)
Lemma names_stable (parts : list str) :
  parts <> [] -> length parts <= 3 ->
  Forall (fun part => none_of is_dash part = true) parts ->
  length parts = 1 \/ forallb spin_ok (parse_spins parts blank) = true ->
  let name := join (lit "-") (spin_names (parse_spins parts blank) blank) in
  ss_name (SpinSystem_init name) = name.
Proof.
  intros Hne Hlen Hparts Hok.
  pose proof (spin_texts_fixed parts blank
                (conj eq_refl (conj eq_refl eq_refl)) Hparts) as Hfixed.
  set (ts := spin_names (parse_spins parts blank) blank) in *. cbv zeta.
  assert (Hlts : length ts = length parts)
    by (unfold ts; now rewrite spin_names_length, parse_spins_length).
  assert (Hu : upper (join (lit "-") ts) = join (lit "-") ts).
  { apply join_upper. eapply Forall_impl; [|exact Hfixed]. now intros t (H & _). }
  assert (Hs : strip (join (lit "-") ts) = join (lit "-") ts).
  { apply join_strip. eapply Forall_impl; [|exact Hfixed]. now intros t (_ & H & _). }
  rewrite ss_name_parts, Hs, Hu.
  destruct (join (lit "-") ts) as [|c N] eqn:EN; [reflexivity|]. rewrite <- EN.
  rewrite split_join.
  - rewrite firstn_all2 by (rewrite Hlts; exact Hlen). f_equal.
    destruct Hok as [Hone | Hok].
    + unfold ts. destruct parts as [|part [|part2 rest]]; try discriminate.
      rewrite parse_spins_cons, spin_names_cons.
      change (parse_spins [] ?g) with (@nil Spin).
      change (spin_names [] ?g) with (@nil str).
      rewrite parse_spins_cons, spin_names_cons.
      change (parse_spins [] ?g) with (@nil Spin).
      change (spin_names [] ?g) with (@nil str).
      f_equal. apply single_part_stable.
    + unfold ts. now apply reparse_names.
  - intros E. rewrite E in Hlts. destruct parts; [congruence | discriminate].
  - eapply Forall_impl; [|exact Hfixed]. now intros t (_ & _ & H).
Qed.

Set Implicit Arguments.

End LabelFacts.

(** ** Spin systems: the name of a parsed label *)

Module NameFacts.
Import PyStr PyStrFacts SpinSystemPy StrFacts LabelFacts.

(** C8 (amended).  For every label that holds a single spin (no hyphen), and
    for every label in which every parsed spin has an atom name that is
    blank, free of digits or a standard atom name and, when its atom is
    blank, a group whose name is not a standard atom name, the name of the
    parsed spin system is a fixed point of parsing:
    [SpinSystem(SpinSystem(label).name).name == SpinSystem(label).name]. *)
Theorem name_is_fixed_point (label : str) :
  none_of is_dash label = true
  \/ forallb spin_ok (map snd (ss_spins (SpinSystem_init label))) = true ->
  ss_name (SpinSystem_init (ss_name (SpinSystem_init label)))
  = ss_name (SpinSystem_init label).
Proof.
  intros H. rewrite ss_spins_parts in H. rewrite (ss_name_parts label).
  destruct (upper (strip label)) as [|c L] eqn:EL; [reflexivity|].
  rewrite <- EL in *.
  apply names_stable.
  - apply firstn_nonempty, split_on_nonempty.
  - apply firstn_le_length.
  - apply Forall_firstn_keep, split_on_parts.
  - destruct H as [Hd | Hok]; [left | now right].
    rewrite split_on_none; [reflexivity|].
    now apply none_of_upper_dash, none_of_strip.
Qed.

Lemma name_is_fixed_point_witness :
  forallb spin_ok (map snd (ss_spins (SpinSystem_init (lit " gly023n-hn ")))) = true
  /\ ss_name (SpinSystem_init (lit " gly023n-hn ")) = lit "G23N-H"
  /\ ss_name (SpinSystem_init (ss_name (SpinSystem_init (lit " gly023n-hn "))))
     = ss_name (SpinSystem_init (lit " gly023n-hn ")).
Proof.
  repeat apply conj.
  - vm_compute. reflexivity.
  - vm_compute. reflexivity.
  - apply (name_is_fixed_point (lit " gly023n-hn ")). right. vm_compute. reflexivity.
Defined.

(** The label [G23N-HIS2-G23C] is printed as [G23N-H2-G23C]: the group
    [HIS2] becomes [H2], which is read back as the atom [H2] of the group
    [G23], so that the third spin repeats the group of the second and is
    printed by its atom alone.  With every atom given, [H1C-H1H1] is printed
    as [H1C-H1], where [H1] is read back as a group without atom. *)
Lemma name_not_fixed_point_counterexample :
  ss_name (SpinSystem_init (lit "G23N-HIS2-G23C")) = lit "G23N-H2-G23C"
  /\ ss_name (SpinSystem_init (lit "G23N-H2-G23C")) = lit "G23N-H2-C"
  /\ ss_name (SpinSystem_init (ss_name (SpinSystem_init (lit "G23N-HIS2-G23C"))))
     <> ss_name (SpinSystem_init (lit "G23N-HIS2-G23C"))
  /\ ss_name (SpinSystem_init (lit "H1C-H1H1")) = lit "H1C-H1"
  /\ ss_name (SpinSystem_init (lit "H1C-H1")) = lit "H1C-".
Proof.
  repeat apply conj; try (vm_compute; reflexivity).
  vm_compute. discriminate.
Qed.

End NameFacts.

(** ** Spin systems: matching *)

Module MatchFacts.
Import PyStr PyStrFacts SpinSystemPy.

Lemma startswith_nil (s : str) : startswith s [] = true.
Proof. now destruct s. Qed.

Lemma startswith_of_nil (prefix : str) : prefix <> [] -> startswith [] prefix = false.
Proof. destruct prefix; [congruence | reflexivity]. Qed.

Lemma str_eqb_nil_false (s : str) : s <> [] -> str_eqb [] s = false.
Proof. intros H. apply str_eqb_neq. congruence. Qed.

(** C9 (amended).  Matching is a field-by-field wildcard test of the
    pattern against the candidate.  A blank field of the pattern (Atom name,
    Group symbol, number or suffix) passes whatever the candidate holds, so
    a Group pattern with a blank field matches exactly when its two other
    fields pass, and a pattern whose fields are all blank matches every
    candidate.  A concrete field of the pattern against a blank field of the
    candidate makes the match false. *)
Theorem match_blank_pattern_is_wildcard (p c : Group) (pa ca : Atom) :
  (atom_name pa = [] -> Atom_match pa ca = true)
  /\ (atom_name pa <> [] -> atom_name ca = [] -> Atom_match pa ca = false)
  /\ (group_symbol p = [] ->
      symbol_match p c = true
      /\ Group_match p c = number_match p c && suffix_match p c)
  /\ (group_number p = NO_NUMBER ->
      number_match p c = true
      /\ Group_match p c = symbol_match p c && suffix_match p c)
  /\ (group_suffix p = [] ->
      suffix_match p c = true
      /\ Group_match p c = number_match p c && symbol_match p c)
  /\ (group_symbol p = [] -> group_number p = NO_NUMBER -> group_suffix p = [] ->
      Group_match p c = true)
  /\ (group_symbol p <> [] -> group_symbol c = [] -> Group_match p c = false)
  /\ (group_number p <> NO_NUMBER -> group_number c = NO_NUMBER ->
      Group_match p c = false)
  /\ (group_suffix p <> [] -> group_suffix c = [] -> Group_match p c = false).
Proof.
  unfold Atom_match, Group_match, symbol_match, number_match, suffix_match.
  repeat apply conj.
  - intros ->. apply startswith_nil.
  - intros Hp ->. now apply startswith_of_nil.
  - intros ->. rewrite (str_eqb_refl []). now rewrite !orb_true_r, andb_true_r.
  - intros ->. rewrite Z.eqb_refl. now rewrite !orb_true_r.
  - intros ->. rewrite (str_eqb_refl []). now rewrite !orb_true_r, andb_true_r.
  - intros -> -> ->. now rewrite Z.eqb_refl, str_eqb_refl, !orb_true_r.
  - intros Hp ->. rewrite (str_eqb_nil_false Hp).
    apply str_eqb_neq in Hp. rewrite Hp. simpl. now rewrite andb_false_r.
  - intros Hp ->. apply Z.eqb_neq in Hp as Hp'. rewrite Hp'.
    replace (NO_NUMBER =? group_number p)%Z with false; [reflexivity|].
    symmetry. apply Z.eqb_neq. congruence.
  - intros Hp ->. rewrite (str_eqb_nil_false Hp).
    apply str_eqb_neq in Hp. rewrite Hp. simpl. now rewrite andb_false_r.
Qed.

Lemma match_blank_pattern_is_wildcard_witness :
  Atom_match (Atom_init []) (Atom_init (lit "N")) = true
  /\ Atom_match (Atom_init (lit "N")) (Atom_init []) = false
  /\ Group_match (Group_init []) (Group_init (lit "G23")) = true
  /\ symbol_match (Group_init (lit "23")) (Group_init (lit "G23")) = true
  /\ Group_match (Group_init (lit "G23")) (Group_init (lit "23")) = false
  /\ Group_match (Group_init (lit "G23")) (Group_init (lit "G")) = false
  /\ Group_match (Group_init (lit "G23A")) (Group_init (lit "G23")) = false.
Proof.
  pose proof (match_blank_pattern_is_wildcard
                (Group_init []) (Group_init (lit "G23"))
                (Atom_init []) (Atom_init (lit "N")))
    as (Ha & _ & _ & _ & _ & Hall & _).
  pose proof (match_blank_pattern_is_wildcard
                (Group_init (lit "23")) (Group_init (lit "G23"))
                (Atom_init (lit "N")) (Atom_init []))
    as (_ & Hb & Hsym & _).
  pose proof (match_blank_pattern_is_wildcard
                (Group_init (lit "G23")) (Group_init (lit "23"))
                (Atom_init []) (Atom_init []))
    as (_ & _ & _ & _ & _ & _ & Hs & _).
  pose proof (match_blank_pattern_is_wildcard
                (Group_init (lit "G23")) (Group_init (lit "G"))
                (Atom_init []) (Atom_init []))
    as (_ & _ & _ & _ & _ & _ & _ & Hn & _).
  pose proof (match_blank_pattern_is_wildcard
                (Group_init (lit "G23A")) (Group_init (lit "G23"))
                (Atom_init []) (Atom_init []))
    as (_ & _ & _ & _ & _ & _ & _ & _ & Hx).
  repeat apply conj.
  - exact (Ha eq_refl).
  - apply Hb; [discriminate | reflexivity].
  - exact (Hall eq_refl eq_refl eq_refl).
  - exact (proj1 (Hsym eq_refl)).
  - apply Hs; [discriminate | reflexivity].
  - apply Hn; [discriminate | reflexivity].
  - apply Hx; [discriminate | reflexivity].
Defined.

(** C9 as stated fails for groups: the pattern [23] has a blank symbol and
    the candidate [G24] a concrete one, yet they do not match, because the
    numbers differ. *)
Lemma match_blank_symbol_counterexample :
  let pattern := Group_init (lit "23") in
  let candidate := Group_init (lit "G24") in
  group_symbol pattern = []
  /\ group_symbol candidate = lit "G"
  /\ Group_match pattern candidate = false.
Proof. cbv zeta. repeat split. Qed.

End MatchFacts.

(** ** Spin systems: completion from a basis *)

Module CompleteFacts.
Import PyStr PyStrFacts SpinSystemPy.

(** The basis of the 15N-1H experiments: [atoms = {"i": "n", "s": "h"}]. *)
Definition basis_nh : Basis := mkBasis [(lit "i", lit "n"); (lit "s", lit "h")].

(** What the body of the loop does to the spin it reaches: an atom whose name
    starts with the declared letter stays; any other atom is replaced by the
    declared letter followed by the old name without its first character. *)
Definition completed_spin (item : str * str) (spin : Spin) : Spin :=
  let old := atom_name (spin_atom spin) in
  if negb (startswith old (upper (snd item)))
  then rebind_atom spin (Atom_init (snd item ++ skipn 1 old))
  else spin.

(** The receiver's dictionary once every item has been processed. *)
Definition completed_own (items : list (str * str)) (own : list (str * Spin))
  : list (str * Spin) :=
  fold_left (fun d item => dict_update d (fst item) (completed_spin item))
            items own.

Lemma dict_get_update (d : list (str * Spin)) (k k' : str) (f : Spin -> Spin) :
  dict_get (dict_update d k f) k' =
  if str_eqb k k' then option_map f (dict_get d k') else dict_get d k'.
Proof.
  induction d as [|[k1 v1] d IH]; simpl.
  - now destruct (str_eqb k k').
  - destruct (str_eqb k1 k) eqn:E1; simpl.
    + apply str_eqb_eq in E1. subst k1.
      destruct (str_eqb k k') eqn:E2; simpl; reflexivity.
    + rewrite IH. destruct (str_eqb k1 k') eqn:E3; auto.
      apply str_eqb_eq in E3. subst k1. now rewrite str_eqb_sym, E1.
Qed.

Lemma has_key_update (d : list (str * Spin)) (k k' : str) (f : Spin -> Spin) :
  has_key (dict_update d k f) k' = has_key d k'.
Proof.
  unfold has_key. rewrite dict_get_update.
  destruct (str_eqb k k'); auto. now destruct (dict_get d k').
Qed.

Lemma has_key_completed (items : list (str * str)) (own : list (str * Spin)) (k : str) :
  has_key (completed_own items own) k = has_key own k.
Proof.
  revert own. induction items as [|item items IH]; intros own; simpl; auto.
  unfold completed_own in *. simpl. now rewrite IH, has_key_update.
Qed.








(** The name of the atom stored under [alias]. *)
Definition atom_at (ss : SpinSystem) (alias : string) : option string :=
  option_map (fun spin => string_of_list_ascii (atom_name (spin_atom spin)))
             (dict_get (ss_spins ss) (lit alias)).




(** C4 (code at the failing input).  Completing [G23N] with the basis
    [{"i": "n", "s": "h"}] returns [G23N-H], and leaves the receiver with its
    name [G23N] but with the atom of its spin [i] rebound from [N] to [H]. *)
Theorem complete_rebinds_receiver_atom :
  let self := SpinSystem_init (lit "G23N") in
  let result := fst (complete self basis_nh) in
  let after := snd (complete self basis_nh) in
  ss_name result = lit "G23N-H"
  /\ atom_at self "i" = Some "N"%string
  /\ atom_at after "i" = Some "H"%string
  /\ ss_name after = lit "G23N"
  /\ after <> self.
Proof.
  cbv zeta. repeat apply conj; try (vm_compute; reflexivity).
  intros H. apply (f_equal (fun ss => atom_at ss "i")) in H.
  vm_compute in H. discriminate.
Qed.

End CompleteFacts.

(** ** Arrays *)

Module NumpyFacts.
Import Numpy.

Lemma Qlt_bool_true (a b : Q) : Qlt_bool a b = true <-> (a < b)%Q.
Proof.
  unfold Qlt_bool. rewrite negb_true_iff.
  destruct (Qle_bool b a) eqn:E.
  - apply Qle_bool_iff in E. split; [discriminate|].
    intros H. exfalso. now apply (Qlt_not_le _ _ H).
  - split; [|reflexivity]. intros _. apply Qnot_le_lt.
    intros H. apply Qle_bool_iff in H. congruence.
Qed.

Lemma Qlt_bool_false (a b : Q) : Qlt_bool a b = false <-> (b <= a)%Q.
Proof.
  unfold Qlt_bool. rewrite negb_false_iff. apply Qle_bool_iff.
Qed.

Section Map2.
Context {A B C : Type}.

Lemma map2_length (f : A -> B -> C) (a : list A) (b : list B) :
  length a = length b -> length (map2 f a b) = length a.
Proof.
  revert b. induction a as [|x a IH]; intros [|y b]; simpl; try discriminate; auto.
Qed.

Lemma nth_error_map2 (f : A -> B -> C) (a : list A) (b : list B) (i : nat) :
  nth_error (map2 f a b) i =
  match nth_error a i, nth_error b i with
  | Some x, Some y => Some (f x y)
  | _, _ => None
  end.
Proof.
  revert b i. induction a as [|x a IH]; intros [|y b] [|i]; simpl; auto.
  - now destruct (nth_error a i).
Qed.

Lemma map2_ext (f g : A -> B -> C) (a : list A) (b : list B) :
  (forall x y, In x a -> In y b -> f x y = g x y) -> map2 f a b = map2 g a b.
Proof.
  revert b. induction a as [|x a IH]; intros [|y b] H; simpl; auto.
  f_equal; [apply H; now left|]. apply IH. intros; apply H; now right.
Qed.

Lemma map2_map_r {B' : Type} (f : A -> B -> C) (h : B' -> B) (a : list A) (b : list B') :
  map2 f a (map h b) = map2 (fun x y => f x (h y)) a b.
Proof.
  revert b. induction a as [|x a IH]; intros [|y b]; simpl; auto. now rewrite IH.
Qed.

End Map2.

Lemma map2_map2_l {A B : Type} (f g : A -> B -> A) (a : list A) (b : list B) :
  map2 f (map2 g a b) b = map2 (fun x y => f (g x y) y) a b.
Proof.
  revert b. induction a as [|x a IH]; intros [|y b]; simpl; auto. now rewrite IH.
Qed.

Lemma map2_fst {A B : Type} (a : list A) (b : list B) :
  length a = length b -> map2 (fun x _ => x) a b = a.
Proof.
  revert b. induction a as [|x a IH]; intros [|y b]; simpl; try discriminate; auto.
  intros [= H]. now rewrite IH.
Qed.

Lemma select_length {A : Type} (a : list A) (m : list bool) :
  length a = length m -> length (select a m) = count_occ bool_dec m true.
Proof.
  revert m. induction a as [|x a IH]; intros [|b m]; simpl; try discriminate; auto.
  intros [= H]. destruct b; simpl; auto.
Qed.

Lemma np_zip_same {A B C : Type} (f : A -> B -> C) (a : list A) (b : list B) :
  length a = length b -> np_zip f a b = Some (map2 f a b).
Proof. intros H. unfold np_zip. apply Nat.eqb_eq in H. now rewrite H. Qed.

End NumpyFacts.

(** ** CPMG phase cycles *)

Module CpmgFacts.
Import Numpy NumpyFacts CpmgHnDqZq.




Definition low_regime : list nat * list nat := ([0; 1; 0; 1], [1; 0; 1; 0]).
Definition medium_regime : list nat * list nat := ([0], [1]).
Definition high_regime : list nat * list nat :=
  ([0; 1; 0; 1; 1; 0; 1; 0], [1; 0; 1; 0; 0; 1; 0; 1]).

(** The regime of a refocusing frequency. *)
Definition regime_of (nu_cpmg : Q) : list nat * list nat :=
  if Qlt_bool nu_cpmg 51 then low_regime
  else if Qlt_bool nu_cpmg 255 then medium_regime
  else high_regime.

Lemma get_phases_positive (time_t2 : Q) (ncyc : Z) :
  (0 < ncyc)%Z ->
  get_phases time_t2 ncyc =
  (take_wrap_flip (fst (regime_of (inject_Z ncyc / time_t2))) (Z.to_nat (2 * ncyc)),
   take_wrap_flip (snd (regime_of (inject_Z ncyc / time_t2))) (Z.to_nat (2 * ncyc))).
Proof.
  intros Hpos. unfold get_phases, ncycs_to_nu_cpmgs, regime_of.
  apply Z.ltb_lt in Hpos. rewrite Hpos. simpl.
  destruct (Qlt_bool (inject_Z ncyc / time_t2) 51); [reflexivity|].
  destruct (Qlt_bool (inject_Z ncyc / time_t2) 255); reflexivity.
Qed.



End CpmgFacts.

(** ** CEST containers *)

Module CestFacts.
Import PyStr ParamHelper Numpy NumpyFacts Cest.

(** *** Filtering *)

(** The mask after the loop of [filter]: a point stays in the fit when it
    was in it and no window holds it. *)
Lemma filter_loop_closed (offs : list Q) (sw : option Q) (windows : list (Q * Q))
  (m : list bool) :
  length m = length offs ->
  filter_loop offs sw windows m =
  Some (map2 (fun b o => b && forallb (fun w => negb (in_window sw w o)) windows)
             m offs).
Proof.
  revert m. induction windows as [|w windows IH]; intros m Hlen; simpl.
  - f_equal. rewrite <- (map2_fst m offs Hlen) at 1.
    apply map2_ext. intros. now rewrite andb_true_r.
  - unfold bool_assign. rewrite length_map.
    apply Nat.eqb_eq in Hlen as Hlen'. rewrite Hlen'. simpl.
    rewrite IH by (rewrite map2_length; rewrite ?length_map; auto).
    f_equal. rewrite map2_map_r, map2_map2_l.
    apply map2_ext. intros b o _ _.
    destruct (in_window sw w o); simpl; auto. now rewrite andb_false_r.
Qed.



Lemma in_window_outside (sw : option Q) (fo bw o : Q) :
  (forall x, dante_wrap sw (o - fo) = Some x -> (bw * (1 # 2) <= Qabs x)%Q) ->
  in_window sw (fo, bw) o = false.
Proof.
  intros H. unfold in_window. destruct (dante_wrap sw (o - fo)) as [x|]; auto.
  apply Qlt_bool_false. now apply H.
Qed.



(** *** Residuals *)

Lemma residual_entries (scale : Q) (c : list Q) (d : list Point) :
  length c = length d ->
  map2 Qdiv (map2 Qminus (map (Qmult scale) c) (map intensities d)) (map errors d)
  = map2 (fun x p => ((scale * x - intensities p) / errors p)%Q) c d.
Proof.
  revert d. induction c as [|x c IH]; intros [|p d]; simpl; try discriminate; auto.
  intros [= H]. now rewrite IH.
Qed.

Section Residuals.
Variable get_scale : list Q -> list Q -> list Q -> Q.

(** The residuals in closed form, over the points selected by the mask. *)
Lemma residuals_closed (profile : CestProfile) (params : ParamSet) (pv : ParVals) :
  length (mask (data profile)) = length (points (data profile)) ->
  (forall offs par,
      length (ps_calculate (pulse_seq profile) offs par) = length offs) ->
  get_parvals profile params = Some pv ->
  let d := select (points (data profile)) (mask (data profile)) in
  let calculated := ps_calculate (pulse_seq profile) (map offsets d) pv in
  let scale := get_scale (map intensities d) (map errors d) calculated in
  calculate get_scale profile params None = Some (map (Qmult scale) calculated)
  /\ residuals get_scale profile params =
     Some (map2 (fun c p => ((scale * c - intensities p) / errors p)%Q)
                calculated d).
Proof.
  intros Hlen Hshape Hpv d calculated scale.
  assert (Hc : calculate get_scale profile params None
               = Some (map (Qmult scale) calculated)).
  { unfold calculate, bool_index. symmetry in Hlen.
    apply Nat.eqb_eq in Hlen. rewrite Hlen. simpl. rewrite Hpv. reflexivity. }
  split; [exact Hc|].
  assert (Hcl : length calculated = length d).
  { unfold calculated. now rewrite Hshape, length_map. }
  unfold residuals. rewrite Hc. unfold bool_index.
  symmetry in Hlen. apply Nat.eqb_eq in Hlen. rewrite Hlen. simpl.
  fold d. rewrite np_zip_same by (now rewrite !length_map). simpl.
  rewrite np_zip_same
    by (rewrite map2_length; rewrite !length_map; auto).
  now rewrite residual_entries.
Qed.

(** C7.  For a profile whose mask has one entry per point, whose pulse
    sequence returns one value per offset and whose parameters are all
    present, [residuals] returns a vector with one entry per unmasked point,
    equal to (calculated - measured) / uncertainty at that point, where the
    calculated values and the scale factor inside [calculate] are computed
    from the unmasked points alone: any other profile with the same unmasked
    points has the same residuals and the same calculated values. *)
Theorem residuals_over_unmasked_points (profile : CestProfile)
  (params : ParamSet) (pv : ParVals) :
  length (mask (data profile)) = length (points (data profile)) ->
  (forall offs par,
      length (ps_calculate (pulse_seq profile) offs par) = length offs) ->
  get_parvals profile params = Some pv ->
  let d := select (points (data profile)) (mask (data profile)) in
  let calculated := ps_calculate (pulse_seq profile) (map offsets d) pv in
  let scale := get_scale (map intensities d) (map errors d) calculated in
  exists r,
    residuals get_scale profile params = Some r
    /\ length r = count_occ bool_dec (mask (data profile)) true
    /\ r = map2 (fun c p => ((scale * c - intensities p) / errors p)%Q)
                calculated d
    /\ calculate get_scale profile params None
       = Some (map (Qmult scale) calculated)
    /\ forall profile',
         pulse_seq profile' = pulse_seq profile ->
         par_names profile' = par_names profile ->
         length (mask (data profile')) = length (points (data profile')) ->
         select (points (data profile')) (mask (data profile')) = d ->
         residuals get_scale profile' params = Some r
         /\ calculate get_scale profile' params None
            = calculate get_scale profile params None.
Proof.
  intros Hlen Hshape Hpv d calculated scale.
  destruct (residuals_closed profile params Hlen Hshape Hpv) as [Hc Hr].
  eexists. split; [exact Hr|]. split; [|split; [reflexivity|split; [exact Hc|]]].
  - rewrite map2_length.
    + unfold calculated. rewrite Hshape, length_map. unfold d.
      apply select_length. now symmetry.
    + unfold calculated. now rewrite Hshape, length_map.
  - intros profile' Hps Hnames Hlen' Hsel.
    assert (Hpv' : get_parvals profile' params = Some pv).
    { unfold get_parvals in *. now rewrite Hnames. }
    assert (Hshape' : forall offs par,
               length (ps_calculate (pulse_seq profile') offs par) = length offs).
    { rewrite Hps. exact Hshape. }
    destruct (residuals_closed profile' params Hlen' Hshape' Hpv') as [Hc' Hr'].
    rewrite Hr', Hc', Hc, Hsel, Hps. split; reflexivity.
Qed.

End Residuals.

(** The pulse sequence of [cest_15n_cw] returns one value per offset. *)
Lemma cest_15n_cw_shape (prop : Propagator) (offs : list Q) (par : ParVals) :
  length (ps_calculate (cest_15n_cw prop) offs par) = length offs.
Proof. simpl. unfold cest_15n_cw_calculate. apply length_map. Qed.

(** A propagator and a scale factor to run the definitions on: every
    irradiated point detects 1/2, every reference point 1, and the scale is
    the closed-form least-squares factor
    [sum(I * C / e^2) / sum(C * C / e^2)]. *)
Definition flat_propagator : Propagator :=
  mkPropagator (fun _ _ => (1 # 2)%Q) (fun _ => 1%Q) (fun ppms => ppms).

Definition lstsq_scale (ints errs calc : list Q) : Q :=
  let num := map2 (fun ie c => (fst ie * c / (snd ie * snd ie))%Q)
                  (combine ints errs) calc in
  let den := map2 (fun e c => (c * c / (e * e))%Q) errs calc in
  (fold_right Qplus 0 num / fold_right Qplus 0 den)%Q.

Definition three_points : list Point :=
  [mkPoint 0 1 (1 # 10); mkPoint 100 2 (1 # 10); mkPoint 20000 3 (1 # 10)].

Definition profile_with_masked_point : CestProfile :=
  mkCestProfile (lit "G23N-H")
                (from_file three_points [(0, 0)%Q] [1%Z] false)
                (cest_15n_cw flat_propagator) [] [].

Lemma residuals_over_unmasked_points_witness :
  exists r,
    residuals lstsq_scale profile_with_masked_point [] = Some r
    /\ length r = 2.
Proof.
  destruct (@residuals_over_unmasked_points lstsq_scale
              profile_with_masked_point [] [] eq_refl
              (cest_15n_cw_shape flat_propagator) eq_refl)
    as (r & Hr & Hlen & _).
  exists r. split; [exact Hr | exact Hlen].
Defined.

(** *** Monte Carlo resampling *)

Lemma randn_length (normal : nat -> Q) (n : nat) : length (randn normal n) = n.
Proof. unfold randn. now rewrite length_map, length_seq. Qed.

Lemma set_intensities_errors (pts : list Point) (values : list Q) (pts' : list Point) :
  set_intensities pts values = Some pts' ->
  map errors pts' = map errors pts /\ map offsets pts' = map offsets pts.
Proof.
  unfold set_intensities.
  destruct (length values =? length pts) eqn:E.
  - apply Nat.eqb_eq in E. intros [= <-]. clear - E.
    revert values E. induction pts as [|p pts IH]; intros [|v values] E;
      simpl in *; try discriminate; auto.
    injection E as E. destruct (IH _ E) as [-> ->]. auto.
  - destruct values as [|v [|? ?]]; try discriminate.
    intros [= <-]. rewrite !map_map. simpl. auto.
Qed.

(** Whenever [monte_carlo] returns, offsets and uncertainties are those of
    the original profile, whatever the draws of the generator. *)
Lemma monte_carlo_keeps_errors (get_scale : list Q -> list Q -> list Q -> Q)
  (normal : nat -> Q) (profile profile' : CestProfile) (params : ParamSet) :
  monte_carlo get_scale normal profile params = Some profile' ->
  map errors (points (data profile')) = map errors (points (data profile))
  /\ map offsets (points (data profile')) = map offsets (points (data profile)).
Proof.
  unfold monte_carlo, CestData_monte_carlo.
  destruct (calculate get_scale profile params None) as [ref|]; [|discriminate].
  simpl.
  destruct (np_zip Qmult _ _) as [noise|]; [|discriminate]. simpl.
  destruct (np_zip Qplus ref noise) as [values|]; [|discriminate]. simpl.
  destruct (set_intensities _ values) as [pts|] eqn:E; [|discriminate]. simpl.
  intros [= <-]. simpl. now apply set_intensities_errors with (values := values).
Qed.

(** X30.  With every point in the fit, [monte_carlo] returns, and the new
    intensities are the calculated ones plus the draws scaled by the
    uncertainties. *)
Lemma monte_carlo_all_points_in_fit (get_scale : list Q -> list Q -> list Q -> Q)
  (normal : nat -> Q) (profile : CestProfile) (params : ParamSet)
  (ref : list Q) :
  mask (data profile) = repeat true (length (points (data profile))) ->
  (forall offs par,
      length (ps_calculate (pulse_seq profile) offs par) = length offs) ->
  calculate get_scale profile params None = Some ref ->
  exists profile',
    monte_carlo get_scale normal profile params = Some profile'
    /\ map errors (points (data profile')) = map errors (points (data profile))
    /\ map intensities (points (data profile'))
       = map2 Qplus ref
           (map2 Qmult (randn normal (length (points (data profile))))
                 (map errors (points (data profile)))).
Proof.
  intros Hmask Hshape Hcalc.
  assert (Hsel : forall (A : Type) (l : list A),
             select l (repeat true (length l)) = l).
  { intros A l. induction l; simpl; congruence. }
  assert (Href : length ref = length (points (data profile))).
  { unfold calculate, bool_index in Hcalc. rewrite Hmask, repeat_length in Hcalc.
    rewrite Nat.eqb_refl in Hcalc. simpl in Hcalc.
    destruct (get_parvals profile params); [|discriminate]. simpl in Hcalc.
    injection Hcalc as <-. rewrite length_map, Hshape, length_map.
    now rewrite Hsel. }
  unfold monte_carlo. rewrite Hcalc. simpl. unfold CestData_monte_carlo.
  rewrite np_zip_same by (now rewrite randn_length, length_map). simpl.
  rewrite np_zip_same
    by (rewrite map2_length; rewrite randn_length, ?length_map; auto).
  simpl. unfold set_intensities.
  set (values := map2 Qplus ref _).
  assert (Hv : length values = length (points (data profile))).
  { unfold values. rewrite map2_length; auto.
    rewrite map2_length; rewrite randn_length, ?length_map; auto. }
  apply Nat.eqb_eq in Hv as Hv'. rewrite Hv'. simpl.
  eexists. split; [reflexivity|]. simpl. clear Hv'. revert Hv.
  generalize values. generalize (points (data profile)).
  induction l as [|p l IH]; intros [|v vs] E; simpl in *; try discriminate; auto.
  injection E as E. destruct (IH _ E) as [-> ->]. auto.
Qed.

(** *** Bootstrap resampling *)

(** The two pools of [bootstrap]: the positions of the unmasked reference
    points and of the unmasked other points. *)
Definition pool_refs (d : CestData) : list nat :=
  select (seq 0 (length (points d))) (map2 andb (refs d) (mask d)).

Definition pool_others (d : CestData) : list nat :=
  select (seq 0 (length (points d))) (map2 andb (map negb (refs d)) (mask d)).

(** The reference points among the points at positions [idx]. *)
Definition count_refs (d : CestData) (idx : list nat) : nat :=
  length (filter (fun i => nth i (refs d) false) idx).

(** A sample of [pool] with replacement, of the size of [pool]. *)
Definition resample_of (pool l : list nat) : Prop :=
  length l = length pool /\ Forall (fun i => In i pool) l.

Lemma choice_length (pick : nat -> nat) (start : nat) (pool : list nat) (size : nat) :
  length (choice pick start pool size) = size.
Proof. unfold choice. now rewrite length_map, length_seq. Qed.

Lemma choice_In (pick : nat -> nat) (start : nat) (pool : list nat) :
  Forall (fun i => In i pool) (choice pick start pool (length pool)).
Proof.
  unfold choice. apply Forall_forall. intros i Hi.
  apply in_map_iff in Hi as (j & <- & Hj). apply in_seq in Hj.
  destruct pool as [|x pool]; [simpl in Hj; lia|].
  apply nth_In. apply Nat.mod_upper_bound. discriminate.
Qed.

Lemma choice_resample (pick : nat -> nat) (start : nat) (pool : list nat) :
  resample_of pool (choice pick start pool (length pool)).
Proof. split; [apply choice_length | apply choice_In]. Qed.

Lemma select_seq_In (sel : list bool) (a i : nat) :
  In i (select (seq a (length sel)) sel) <->
  exists k, i = a + k /\ nth_error sel k = Some true.
Proof.
  revert a. induction sel as [|b sel IH]; intros a; simpl.
  - split; [tauto|]. intros (k & _ & H). destruct k; discriminate.
  - assert (Hrest : In i (select (seq (S a) (length sel)) sel) <->
                    exists k, i = a + S k /\ nth_error sel k = Some true).
    { rewrite IH. split; intros (k & -> & H); exists k; split; auto; lia. }
    destruct b; simpl; rewrite Hrest; split.
    + intros [<- | (k & -> & H)]; [exists 0 | exists (S k)]; split; auto; lia.
    + intros ([|k] & -> & H); [left; lia | right; exists k; auto].
    + intros (k & -> & H). exists (S k). auto.
    + intros ([|k] & -> & H); [discriminate | exists k; auto].
Qed.

Lemma pool_refs_In (d : CestData) (i : nat) :
  length (refs d) = length (points d) -> length (mask d) = length (points d) ->
  In i (pool_refs d) ->
  i < length (points d) /\ nth i (refs d) false = true
  /\ nth i (mask d) false = true.
Proof.
  intros Hr Hm Hin. unfold pool_refs in Hin.
  replace (length (points d)) with (length (map2 andb (refs d) (mask d)))
    in Hin by (rewrite map2_length; congruence).
  apply select_seq_In in Hin as (k & -> & H). simpl.
  rewrite nth_error_map2 in H.
  destruct (nth_error (refs d) k) as [r|] eqn:Er; [|discriminate].
  destruct (nth_error (mask d) k) as [m|] eqn:Em; [|discriminate].
  injection H as H. apply andb_true_iff in H as [-> ->].
  split; [|split].
  - rewrite <- Hr. apply nth_error_Some. congruence.
  - now apply nth_error_nth.
  - now apply nth_error_nth.
Qed.

Lemma pool_others_In (d : CestData) (i : nat) :
  length (refs d) = length (points d) -> length (mask d) = length (points d) ->
  In i (pool_others d) ->
  i < length (points d) /\ nth i (refs d) false = false
  /\ nth i (mask d) false = true.
Proof.
  intros Hr Hm Hin. unfold pool_others in Hin.
  replace (length (points d))
    with (length (map2 andb (map negb (refs d)) (mask d)))
    in Hin by (rewrite map2_length; rewrite ?length_map; congruence).
  apply select_seq_In in Hin as (k & -> & H). simpl.
  rewrite nth_error_map2, nth_error_map in H.
  destruct (nth_error (refs d) k) as [r|] eqn:Er; [|discriminate].
  destruct (nth_error (mask d) k) as [m|] eqn:Em; [|discriminate].
  injection H as H. apply andb_true_iff in H as [H ->].
  apply negb_true_iff in H. subst r.
  split; [|split].
  - rewrite <- Hr. apply nth_error_Some. congruence.
  - now apply nth_error_nth.
  - now apply nth_error_nth.
Qed.

(** The indices that [bootstrap] draws, before sorting. *)
Definition drawn (pick : nat -> nat) (d : CestData) : list nat :=
  choice pick 0 (pool_refs d) (length (pool_refs d))
  ++ choice pick (length (pool_refs d)) (pool_others d) (length (pool_others d)).

Lemma bootstrap_indexes_closed (pick : nat -> nat) (d : CestData) :
  length (refs d) = length (points d) -> length (mask d) = length (points d) ->
  bootstrap_indexes pick d = Some (IndexSort.sort (drawn pick d)).
Proof.
  intros Hr Hm. unfold bootstrap_indexes.
  rewrite !np_zip_same by (rewrite ?length_map; congruence). simpl.
  unfold bool_index.
  rewrite !length_seq, !map2_length by (rewrite ?length_map; congruence).
  rewrite length_map, Hr, Nat.eqb_refl. simpl.
  fold (pool_refs d). fold (pool_others d). unfold drawn.
  destruct (pool_refs d) as [|x pool] eqn:E; [reflexivity|].
  now rewrite choice_length.
Qed.

Lemma filter_length_perm {A : Type} (f : A -> bool) (l l' : list A) :
  Permutation l l' -> length (filter f l) = length (filter f l').
Proof.
  induction 1 as [| x l l' _ IH | x y l | l l' l'' _ IH1 _ IH2]; simpl; auto.
  - destruct (f x); simpl; auto.
  - destruct (f x), (f y); simpl; auto.
  - congruence.
Qed.

Lemma filter_all {A : Type} (f : A -> bool) (l : list A) :
  Forall (fun x => f x = true) l -> filter f l = l.
Proof. induction 1 as [|x l Hx _ IH]; simpl; auto. now rewrite Hx, IH. Qed.

Lemma filter_none {A : Type} (f : A -> bool) (l : list A) :
  Forall (fun x => f x = false) l -> filter f l = [].
Proof. induction 1 as [|x l Hx _ IH]; simpl; auto. now rewrite Hx. Qed.

Lemma take_in_range {A : Type} (a : list A) (idx : list nat) :
  Forall (fun i => i < length a) idx ->
  exists l, take a idx = Some l /\ length l = length idx.
Proof.
  induction 1 as [|i idx Hi _ (l & Hl & Hlen)]; simpl.
  - now exists [].
  - apply nth_error_Some in Hi.
    destruct (nth_error a i) as [x|]; [|congruence]. simpl. rewrite Hl. simpl.
    exists (x :: l). simpl. auto.
Qed.

Lemma sorted_leb_le (l : list nat) :
  Sorted (fun a b => is_true (IndexOrder.leb a b)) l -> Sorted le l.
Proof.
  induction 1 as [|x l _ IH Hd]; constructor; auto.
  destruct Hd; constructor. now apply Nat.leb_le.
Qed.

(** Position of the first occurrence of [x] in [pool]. *)
Fixpoint index_of (x : nat) (pool : list nat) : nat :=
  match pool with
  | [] => 0
  | y :: r => if x =? y then 0 else S (index_of x r)
  end.

Lemma index_of_nth (x : nat) (pool : list nat) :
  In x pool -> index_of x pool < length pool /\ nth (index_of x pool) pool 0 = x.
Proof.
  induction pool as [|y r IH]; simpl; [tauto|].
  destruct (x =? y) eqn:E.
  - apply Nat.eqb_eq in E. intros _. split; [lia | auto].
  - apply Nat.eqb_neq in E. intros [?|H]; [congruence|].
    destruct (IH H). split; [lia | auto].
Qed.

Lemma map_nth_seq (l : list nat) (a : nat) (f : nat -> nat) :
  (forall j, j < length l -> f (a + j) = nth j l 0) ->
  map f (seq a (length l)) = l.
Proof.
  revert a. induction l as [|x l IH]; intros a H; simpl; auto.
  f_equal.
  - specialize (H 0). simpl in H. rewrite Nat.add_0_r in H. apply H. lia.
  - apply IH. intros j Hj. specialize (H (S j)). simpl in H.
    replace (S a + j) with (a + S j) by lia. apply H. lia.
Qed.

(** Every pair of samples with replacement is drawn by some generator. *)
Lemma drawn_any (d : CestData) (l1 l2 : list nat) :
  resample_of (pool_refs d) l1 -> resample_of (pool_others d) l2 ->
  exists pick, drawn pick d = l1 ++ l2.
Proof.
  intros [Hl1 Hin1] [Hl2 Hin2].
  exists (fun j => if j <? length l1
                   then index_of (nth j l1 0) (pool_refs d)
                   else index_of (nth (j - length l1) l2 0) (pool_others d)).
  unfold drawn, choice. rewrite <- Hl1, <- Hl2. f_equal.
  - apply map_nth_seq. intros j Hj. simpl.
    apply Nat.ltb_lt in Hj as Hj'. rewrite Hj'.
    assert (Hin : In (nth j l1 0) (pool_refs d)).
    { rewrite Forall_forall in Hin1. apply Hin1. now apply nth_In. }
    destruct (index_of_nth _ _ Hin) as [Hlt Hnth].
    rewrite Hl1. rewrite Nat.mod_small by exact Hlt. exact Hnth.
  - apply map_nth_seq. intros j Hj. cbn beta. rewrite Nat.add_0_l.
    replace (length l1 + j <? length l1) with false
      by (symmetry; apply Nat.ltb_ge; lia).
    replace (length l1 + j - length l1) with j by lia.
    assert (Hin : In (nth j l2 0) (pool_others d)).
    { rewrite Forall_forall in Hin2. apply Hin2. now apply nth_In. }
    destruct (index_of_nth _ _ Hin) as [Hlt Hnth].
    rewrite Hl2. rewrite Nat.mod_small by exact Hlt. exact Hnth.
Qed.

(** C2 (amended).  For every CEST profile whose UNMASKED points comprise
    M > 0 reference points and N other points, bootstrap resampling returns
    a profile with exactly M reference points (so at least one) and exactly
    N + M points in total; the indices are a sample with replacement of the
    unmasked reference pool followed by one of the unmasked non-reference
    pool, sorted in increasing order, and every such pair of samples is drawn
    by some state of the generator. *)
Theorem bootstrap_stratified_over_unmasked (pick : nat -> nat)
  (profile : CestProfile) :
  let d := data profile in
  length (refs d) = length (points d) -> length (mask d) = length (points d) ->
  pool_refs d <> [] ->
  length (pool_refs d) = count_occ bool_dec (map2 andb (refs d) (mask d)) true
  /\ length (pool_others d)
     = count_occ bool_dec (map2 andb (map negb (refs d)) (mask d)) true
  /\ (exists idx profile',
        bootstrap pick profile = Some profile'
        /\ bootstrap_indexes pick d = Some idx
        /\ take (points d) idx = Some (points (data profile'))
        /\ length (points (data profile'))
           = length (pool_others d) + length (pool_refs d)
        /\ count_refs d idx = length (pool_refs d)
        /\ 1 <= count_refs d idx
        /\ Sorted le idx
        /\ exists l1 l2,
             resample_of (pool_refs d) l1 /\ resample_of (pool_others d) l2
             /\ idx = IndexSort.sort (l1 ++ l2))
  /\ forall l1 l2,
       resample_of (pool_refs d) l1 -> resample_of (pool_others d) l2 ->
       exists pick', bootstrap_indexes pick' d = Some (IndexSort.sort (l1 ++ l2)).
Proof.
  intros d Hr Hm Hne.
  split; [|split; [|split]].
  - unfold pool_refs. rewrite select_length; auto.
    rewrite length_seq, map2_length; congruence.
  - unfold pool_others. rewrite select_length; auto.
    rewrite length_seq, map2_length; rewrite ?length_map; congruence.
  - pose proof (bootstrap_indexes_closed pick d Hr Hm) as Hidx.
    set (l1 := choice pick 0 (pool_refs d) (length (pool_refs d))) in *.
    set (l2 := choice pick (length (pool_refs d)) (pool_others d)
                      (length (pool_others d))) in *.
    assert (H1 : resample_of (pool_refs d) l1) by apply choice_resample.
    assert (H2 : resample_of (pool_others d) l2) by apply choice_resample.
    assert (Hperm : Permutation (l1 ++ l2) (IndexSort.sort (l1 ++ l2)))
      by apply IndexSort.Permuted_sort.
    assert (Hrange : Forall (fun i => i < length (points d)) (l1 ++ l2)).
    { apply Forall_app. split.
      - eapply Forall_impl; [|apply H1]. intros i Hi.
        now apply (pool_refs_In d i Hr Hm).
      - eapply Forall_impl; [|apply H2]. intros i Hi.
        now apply (pool_others_In d i Hr Hm). }
    assert (Hrange' : Forall (fun i => i < length (points d))
                             (IndexSort.sort (l1 ++ l2))).
    { eapply Permutation_Forall; eauto. }
    destruct (take_in_range (points d) Hrange') as (pts & Hpts & Hlen).
    assert (Hcount : count_refs d (IndexSort.sort (l1 ++ l2)) = length (pool_refs d)).
    { unfold count_refs. rewrite <- (filter_length_perm _ Hperm).
      rewrite filter_app, length_app.
      rewrite (filter_all (fun i => nth i (refs d) false) (l := l1)).
      - rewrite (filter_none (fun i => nth i (refs d) false) (l := l2)).
        + simpl. destruct H1 as [-> _]. lia.
        + eapply Forall_impl; [|apply H2]. intros i Hi.
          now apply (pool_others_In d i Hr Hm).
      - eapply Forall_impl; [|apply H1]. intros i Hi.
        now apply (pool_refs_In d i Hr Hm). }
    exists (IndexSort.sort (l1 ++ l2)).
    exists (with_data profile (mkCestData pts (refs d) (mask d) (filter_offsets d))).
    split; [|split; [|split; [|split; [|split; [|split; [|split]]]]]].
    + unfold bootstrap, CestData_bootstrap. fold d. unfold drawn in Hidx.
      fold l1 l2 in Hidx. rewrite Hidx. simpl. rewrite Hpts. reflexivity.
    + exact Hidx.
    + exact Hpts.
    + simpl. rewrite Hlen. rewrite <- (Permutation_length Hperm), length_app.
      destruct H1 as [-> _], H2 as [-> _]. lia.
    + exact Hcount.
    + rewrite Hcount. destruct (pool_refs d); [congruence | simpl; lia].
    + apply sorted_leb_le. apply IndexSort.Sorted_sort.
    + exists l1, l2. auto.
  - intros l1 l2 H1 H2. destruct (drawn_any d H1 H2) as (pick' & Hd).
    exists pick'. rewrite bootstrap_indexes_closed by assumption. now rewrite Hd.
Qed.

Lemma bootstrap_stratified_over_unmasked_witness :
  exists profile',
    bootstrap (fun _ => 0) profile_with_masked_point = Some profile'
    /\ length (points (data profile')) = 2.
Proof.
  assert (Hne : pool_refs (data profile_with_masked_point) <> [])
    by (vm_compute; discriminate).
  destruct (@bootstrap_stratified_over_unmasked (fun _ => 0)
              profile_with_masked_point eq_refl eq_refl Hne)
    as (_ & _ & (idx & profile' & Hb & _ & _ & Hlen & _) & _).
  exists profile'. split; [exact Hb | exact Hlen].
Defined.

Lemma choice_singleton (pick : nat -> nat) (start x : nat) :
  choice pick start [x] 1 = [x].
Proof.
  unfold choice. cbn [seq map Datatypes.length]. now rewrite Nat.mod_1_r.
Qed.

(** A profile read with [filter_ref_planes = True]: one reference point
    (offset 20000 Hz), masked, and one other point. *)
Definition profile_with_masked_reference : CestProfile :=
  mkCestProfile (lit "G23N-H")
    (from_file [mkPoint 20000 1 (1 # 10); mkPoint 0 (1 # 2) (1 # 10)]
               [(0, 0)%Q] [] true)
    (cest_15n_cw flat_propagator) [] [].

(** C2 as stated fails on a profile with M = 1 reference point and N = 1
    other point when the reference point is masked: every bootstrap replicate
    has one point in total, and it is not a reference point. *)
Lemma bootstrap_masked_reference_counterexample :
  let d := data profile_with_masked_reference in
  refs d = [true; false]
  /\ mask d = [false; true]
  /\ forall pick,
       exists profile',
         bootstrap pick profile_with_masked_reference = Some profile'
         /\ bootstrap_indexes pick d = Some [1]
         /\ points (data profile') = [mkPoint 0 (1 # 2) (1 # 10)]
         /\ length (points (data profile')) <> 1 + 1
         /\ count_refs d [1] = 0.
Proof.
  cbv zeta. split; [reflexivity|]. split; [reflexivity|]. intros pick.
  assert (Hidx : bootstrap_indexes pick (data profile_with_masked_reference)
                 = Some [1]).
  { rewrite bootstrap_indexes_closed by reflexivity. unfold drawn.
    change (pool_refs (data profile_with_masked_reference)) with (@nil nat).
    change (pool_others (data profile_with_masked_reference)) with [1].
    simpl length. rewrite choice_singleton. reflexivity. }
  eexists. unfold bootstrap, CestData_bootstrap. rewrite Hidx.
  split; [reflexivity|]. split; [reflexivity|]. split; [reflexivity|].
  split; [simpl; lia | reflexivity].
Qed.

(** C6 (code at the failing input).  On a profile of three points whose
    second point is masked, [calculate] yields two reference intensities
    while the noise has three entries: their sum does not broadcast and
    [monte_carlo] raises, whatever the generator, the propagator and the
    scale factor. *)
Theorem monte_carlo_masked_point_raises
  (get_scale : list Q -> list Q -> list Q -> Q) (normal : nat -> Q)
  (prop : Propagator) :
  let profile :=
    mkCestProfile (lit "G23N-H")
                  (from_file three_points [(0, 0)%Q] [1%Z] false)
                  (cest_15n_cw prop) [] [] in
  mask (data profile) = [true; false; true]
  /\ (exists ref, calculate get_scale profile [] None = Some ref
                  /\ length ref = 2)
  /\ monte_carlo get_scale normal profile [] = None.
Proof.
  cbv zeta. split; [reflexivity|]. split.
  - eexists. split; [reflexivity|]. reflexivity.
  - reflexivity.
Qed.

End CestFacts.

(* ================================================================== *)
(** * Further properties of the code *)

(** ** [merge]: the names of the merged set, and merging in stages *)

Module MergeFacts.
Import PyStr PyStrFacts ParamHelper ParamHelperFacts.

(** A name joins the names seen so far at the end, unless it is there. *)
Definition add_name (names : list str) (name : str) : list str :=
  if mem name names then names else names ++ [name].

(** The names of a list in the order of their first occurrence. *)
Definition first_seen (names : list str) : list str :=
  fold_left add_name names [].

Lemma mem_In (k : str) (l : list str) : mem k l = true <-> In k l.
Proof.
  unfold mem. rewrite existsb_exists. split.
  - intros (x & Hin & Hx). apply str_eqb_eq in Hx. now subst.
  - intros H. exists k. split; auto. apply str_eqb_refl.
Qed.

Lemma add_name_In (names : list str) (k x : str) :
  In x (add_name names k) <-> In x names \/ x = k.
Proof.
  unfold add_name. destruct (mem k names) eqn:E.
  - apply mem_In in E. split; [auto|]. intros [H | ->]; auto.
  - rewrite in_app_iff. simpl. intuition.
Qed.

Lemma add_name_NoDup (names : list str) (k : str) :
  NoDup names -> NoDup (add_name names k).
Proof.
  intros H. unfold add_name. destruct (mem k names) eqn:E; auto.
  assert (Hk : ~ In k names).
  { intros Hin. apply mem_In in Hin. congruence. }
  clear E. induction H as [|x l Hx Hl IH]; simpl.
  - constructor; [tauto | constructor].
  - constructor.
    + rewrite in_app_iff. simpl. intros [?|[?|[]]]; [tauto|].
      subst. apply Hk. now left.
    + apply IH. intros Hin. apply Hk. now right.
Qed.

Lemma fold_add_In (l acc : list str) (x : str) :
  In x (fold_left add_name l acc) <-> In x acc \/ In x l.
Proof.
  revert acc. induction l as [|k l IH]; intros acc; simpl; [tauto|].
  rewrite IH, add_name_In. intuition.
Qed.

Lemma fold_add_NoDup (l acc : list str) :
  NoDup acc -> NoDup (fold_left add_name l acc).
Proof.
  revert acc. induction l as [|k l IH]; intros acc H; simpl; auto.
  apply IH. now apply add_name_NoDup.
Qed.

Lemma add_name_present (names : list str) (k : str) :
  In k names -> add_name names k = names.
Proof. intros H. unfold add_name. apply mem_In in H. now rewrite H. Qed.

Lemma fold_add_present (l acc : list str) :
  (forall x, In x l -> In x acc) -> fold_left add_name l acc = acc.
Proof.
  induction l as [|k l IH]; intros H; simpl; [reflexivity|].
  rewrite add_name_present by (apply H; now left).
  apply IH. intros x Hx. apply H. now right.
Qed.

Section Keys.
Context {V : Type}.
Implicit Types (d : list (str * V)).

Lemma keys_dict_set d (k : str) (v : V) :
  map fst (dict_set d k v) = add_name (map fst d) k.
Proof.
  unfold add_name. induction d as [|[k' v'] d IH]; simpl; [reflexivity|].
  rewrite (str_eqb_sym k k').
  destruct (str_eqb k' k) eqn:E; simpl; [reflexivity|].
  rewrite IH. now destruct (mem k (map fst d)).
Qed.

Lemma dict_get_key d (k : str) (v : V) :
  dict_get d k = Some v -> In k (map fst d).
Proof.
  intros H. apply dict_get_In in H. change k with (fst (k, v)). now apply in_map.
Qed.

Lemma dict_get_absent d (k : str) : ~ In k (map fst d) -> dict_get d k = None.
Proof.
  intros H. destruct (dict_get d k) as [v|] eqn:E; auto.
  exfalso. apply H. eapply dict_get_key; eauto.
Qed.

(** Two dictionaries with the same keys in the same order and the same
    value under every key are the same. *)
Lemma dict_ext d1 d2 :
  map fst d1 = map fst d2 -> NoDup (map fst d1) ->
  (forall k, dict_get d1 k = dict_get d2 k) -> d1 = d2.
Proof.
  revert d2. induction d1 as [|[k v1] d1 IH]; intros [|[k2 v2] d2] Hk Hnd Hget;
    simpl in *; try discriminate; auto.
  injection Hk as <- Hk. inversion Hnd as [|? ? Hnotin Hnd']; subst.
  pose proof (Hget k) as Hv. rewrite str_eqb_refl in Hv. injection Hv as <-.
  f_equal. apply IH; auto. intros k'.
  destruct (str_eqb k k') eqn:E.
  - apply str_eqb_eq in E. subst k'.
    rewrite !dict_get_absent; auto. now rewrite <- Hk.
  - specialize (Hget k'). now rewrite E in Hget.
Qed.

End Keys.

Lemma merge_items_names (items : list (str * Param)) (params_ : ParamSet) :
  map fst (merge_items items params_)
  = fold_left add_name (map fst items) (map fst params_).
Proof.
  revert params_. induction items as [|[k p] items IH]; intros params_; simpl.
  - reflexivity.
  - destruct (dict_get params_ k) as [old|] eqn:G.
    + apply dict_get_key in G as Hin.
      destruct (p_vary old); rewrite IH.
      * now rewrite add_name_present.
      * now rewrite keys_dict_set.
    + rewrite IH. now rewrite keys_dict_set.
Qed.

Lemma merge_sets_names (pl : list ParamSet) (params_ : ParamSet) :
  map fst (merge_sets pl params_)
  = fold_left add_name (flat_map (map fst (B := str)) pl) (map fst params_).
Proof.
  revert params_. induction pl as [|A pl IH]; intros params_; simpl.
  - reflexivity.
  - now rewrite IH, merge_items_names, fold_left_app.
Qed.

Lemma merge_names_eq (pl : list ParamSet) :
  map fst (merge pl) = first_seen (flat_map (map fst (B := str)) pl).
Proof. unfold merge. now rewrite merge_sets_names. Qed.

Lemma merge_wf (pl : list ParamSet) : dict_wf (merge pl).
Proof.
  unfold dict_wf. rewrite merge_names_eq. apply fold_add_NoDup. constructor.
Qed.

(** X1.  The merged set holds every name of the input sets exactly once, in
    the order in which the names first occur in the input, whether or not
    the input sets repeat a name. *)
Theorem merge_names_in_order_of_first_occurrence (pl : list ParamSet) :
  map fst (merge pl) = first_seen (flat_map (map fst (B := str)) pl)
  /\ NoDup (map fst (merge pl))
  /\ forall name,
       In name (map fst (merge pl))
       <-> exists params, In params pl /\ In name (map fst params).
Proof.
  split; [apply merge_names_eq|]. split; [apply merge_wf|].
  intros name. rewrite merge_names_eq. unfold first_seen.
  rewrite fold_add_In, in_flat_map. simpl. tauto.
Qed.

(** Adding the names of a list after removing its repetitions, or as they
    come, is the same. *)
Lemma fold_add_first_seen (l acc : list str) :
  fold_left add_name (first_seen l) acc = fold_left add_name l acc.
Proof.
  unfold first_seen. induction l as [|x l IH] using rev_ind; [reflexivity|].
  rewrite !fold_left_app. simpl.
  unfold add_name at 2. destruct (mem x (fold_left add_name l [])) eqn:E.
  - rewrite IH. symmetry. apply add_name_present.
    apply mem_In in E. apply fold_add_In in E as [[]|E].
    apply fold_add_In. now right.
  - rewrite fold_left_app. simpl. now rewrite IH.
Qed.

Definition opt_list {A : Type} (x : option A) : list A :=
  match x with Some a => [a] | None => [] end.

Lemma kept_opt (x : option Param) : kept (opt_list x) = x.
Proof. destruct x as [p|]; [|reflexivity]. unfold kept. simpl. now destruct (p_vary p). Qed.

Lemma kept_from_kept (cur : option Param) (occs : list Param) :
  kept_from cur (opt_list (kept occs)) = kept_from cur occs.
Proof.
  destruct cur as [p|]; simpl.
  - now rewrite kept_opt.
  - apply kept_opt.
Qed.

Lemma occurrences_app (name : str) (pl1 pl2 : list ParamSet) :
  occurrences name (pl1 ++ pl2) = occurrences name pl1 ++ occurrences name pl2.
Proof. unfold occurrences. apply flat_map_app. Qed.

(** X2.  Merging in stages gives the same set as merging at once: the merge
    of the merges of two lists of sets is the merge of the two lists put
    end to end.  In particular a merged set merged again, alone or with
    itself, is unchanged. *)
Theorem merge_in_stages (pl1 pl2 : list ParamSet) :
  Forall dict_wf pl1 -> Forall dict_wf pl2 ->
  merge [merge pl1; merge pl2] = merge (pl1 ++ pl2)
  /\ merge [merge pl1] = merge pl1
  /\ merge [merge pl1; merge pl1] = merge pl1.
Proof.
  intros H1 H2.
  assert (Hstage : forall a b, Forall dict_wf a -> Forall dict_wf b ->
             merge [merge a; merge b] = merge (a ++ b)).
  { intros a b Ha Hb. apply dict_ext.
    - rewrite !merge_names_eq. simpl. rewrite List.app_nil_r, !merge_names_eq.
      unfold first_seen at 1. rewrite fold_left_app.
      rewrite !fold_add_first_seen. rewrite flat_map_app.
      unfold first_seen. now rewrite fold_left_app.
    - apply merge_wf.
    - intros k.
      rewrite !merge_get
        by (repeat constructor; try apply merge_wf; apply Forall_app; auto).
      rewrite occurrences_app. unfold occurrences at 1. simpl.
      rewrite List.app_nil_r.
      rewrite !merge_get by assumption.
      fold (opt_list (kept (occurrences k a))).
      fold (opt_list (kept (occurrences k b))).
      unfold kept at 1. fold (kept (opt_list (kept (occurrences k a))
                                    ++ opt_list (kept (occurrences k b)))).
      change (kept (opt_list (kept (occurrences k a))
                    ++ opt_list (kept (occurrences k b))))
        with (kept_from None (opt_list (kept (occurrences k a))
                              ++ opt_list (kept (occurrences k b)))).
      rewrite <- kept_from_app. simpl kept_from at 2. rewrite kept_opt.
      rewrite kept_from_kept.
      change (kept (occurrences k a ++ occurrences k b))
        with (kept_from None (occurrences k a ++ occurrences k b)).
      now rewrite <- kept_from_app. }
  split; [now apply Hstage|].
  assert (Hone : merge [merge pl1] = merge pl1).
  { pose proof (Hstage pl1 [] H1 (Forall_nil _)) as H.
    rewrite List.app_nil_r in H. rewrite <- H at 2.
    apply dict_ext.
    - rewrite !merge_names_eq. simpl. now rewrite !List.app_nil_r.
    - apply merge_wf.
    - intros k.
      rewrite !merge_get by (repeat constructor; apply merge_wf).
      unfold occurrences. simpl. rewrite !List.app_nil_r.
      destruct (dict_get (merge pl1) k); reflexivity. }
  split; [exact Hone|].
  rewrite <- Hone at 3. apply dict_ext.
  - rewrite !merge_names_eq. simpl. rewrite !List.app_nil_r.
    unfold first_seen. rewrite fold_left_app. apply fold_add_present.
    intros x Hx. apply fold_add_In. now right.
  - apply merge_wf.
  - intros k.
    rewrite !merge_get by (repeat constructor; apply merge_wf).
    unfold occurrences. simpl. rewrite !List.app_nil_r.
    destruct (dict_get (merge pl1) k) as [p|]; [|reflexivity].
    unfold kept. simpl. destruct (p_vary p); reflexivity.
Qed.

Lemma merge_in_stages_witness :
  let A := [(lit "kex_ab", fixed_param 1); (lit "pb", fixed_param 2)] in
  let B := [(lit "kex_ab", varying_param 3)] in
  let C := [(lit "pb", fixed_param 4); (lit "dw_ab", fixed_param 5)] in
  merge [merge [A; B]; merge [C]] = merge [A; B; C].
Proof.
  intros A B C.
  assert (Hab : Forall (@dict_wf Param) [A; B]).
  { repeat constructor; simpl; intuition discriminate. }
  assert (Hc : Forall (@dict_wf Param) [C]).
  { repeat constructor; simpl; intuition discriminate. }
  exact (proj1 (merge_in_stages Hab Hc)).
Defined.

End MergeFacts.

(** ** Spins: the order of [sorted], and the constructors read twice *)

Module SpinOrderFacts.
Import PyStr PyStrFacts SpinSystemPy SpinSystemOps StrFacts LabelFacts.

Unset Implicit Arguments.

Lemma code_inj (x y : ascii) : code x = code y -> x = y.
Proof.
  unfold code. intros H.
  rewrite <- (ascii_nat_embedding x), <- (ascii_nat_embedding y). now rewrite H.
Qed.

Lemma str_ltb_irrefl (a : str) : str_ltb a a = false.
Proof.
  induction a as [|x a IH]; simpl; auto.
  now rewrite Nat.ltb_irrefl, Nat.eqb_refl.
Qed.

Lemma str_ltb_asym (a b : str) : str_ltb a b = true -> str_ltb b a = false.
Proof.
  revert b. induction a as [|x a IH]; intros [|y b]; simpl; auto; try discriminate.
  destruct (code x <? code y) eqn:Hlt.
  - intros _. apply Nat.ltb_lt in Hlt.
    replace (code y <? code x) with false by (symmetry; apply Nat.ltb_ge; lia).
    replace (code y =? code x) with false by (symmetry; apply Nat.eqb_neq; lia).
    reflexivity.
  - destruct (code x =? code y) eqn:Heq; [|discriminate].
    apply Nat.eqb_eq in Heq. rewrite Heq, Nat.ltb_irrefl, Nat.eqb_refl. apply IH.
Qed.

Lemma str_ltb_trans (a b c : str) :
  str_ltb a b = true -> str_ltb b c = true -> str_ltb a c = true.
Proof.
  revert b c. induction a as [|x a IH]; intros [|y b] [|z c]; simpl; auto;
    try discriminate.
  destruct (code x <? code y) eqn:Hxy.
  - intros _. apply Nat.ltb_lt in Hxy.
    destruct (code y <? code z) eqn:Hyz.
    + intros _. apply Nat.ltb_lt in Hyz.
      replace (code x <? code z) with true by (symmetry; apply Nat.ltb_lt; lia).
      reflexivity.
    + destruct (code y =? code z) eqn:Eyz; [|discriminate].
      apply Nat.eqb_eq in Eyz. intros _.
      replace (code x <? code z) with true by (symmetry; apply Nat.ltb_lt; lia).
      reflexivity.
  - destruct (code x =? code y) eqn:Exy; [|discriminate].
    apply Nat.eqb_eq in Exy. rewrite Exy. intros Hab.
    destruct (code y <? code z); [reflexivity|].
    destruct (code y =? code z); [|discriminate]. now apply IH.
Qed.

(** A group as [Group.__init__] builds it: reading its name gives it back. *)
Definition parsed (g : Group) : Prop := Group_init (group_name g) = g.

Lemma parsed_init (s : str) : parsed (Group_init s).
Proof. unfold parsed. apply Group_init_name. Qed.

Lemma parsed_eq (g h : Group) :
  parsed g -> parsed h -> Group_eq g h = true -> g = h.
Proof.
  unfold parsed, Group_eq. intros Hg Hh E. apply str_eqb_eq in E.
  rewrite <- Hg, <- Hh. now rewrite E.
Qed.

Lemma Group_eq_sym (g h : Group) : Group_eq g h = Group_eq h g.
Proof. unfold Group_eq. apply str_eqb_sym. Qed.

Lemma Atom_eq_sym (a b : Atom) : Atom_eq a b = Atom_eq b a.
Proof. unfold Atom_eq. apply str_eqb_sym. Qed.

(** Every spin of a parsed spin system has a group built by
    [Group.__init__]. *)
Lemma Spin_init_parsed (part : str) (last : option Group) :
  (forall g, last = Some g -> parsed g) ->
  parsed (spin_group (Spin_init part last)).
Proof.
  intros Hlast. unfold Spin_init.
  destruct (split_group_atom (upper (strip part))) as [g a] eqn:Hsplit.
  destruct (split_inputs _ g a Hsplit) as (x & _ & -> & _).
  destruct last as [prev|]; cbn [spin_group].
  - destruct (negb (Group_bool (Group_init x)) && Group_bool prev).
    + now apply Hlast.
    + apply parsed_init.
  - apply parsed_init.
Qed.

Lemma parse_loop_parsed (pairs : list (str * str)) (last : option Group) :
  (forall g, last = Some g -> parsed g) ->
  Forall (fun kv => parsed (spin_group (snd kv))) (parse_loop pairs last).
Proof.
  revert last. induction pairs as [|[alias part] pairs IH]; intros last Hlast; simpl.
  - constructor.
  - constructor.
    + now apply Spin_init_parsed.
    + apply IH. intros g [= <-]. now apply Spin_init_parsed.
Qed.

Lemma spin_system_parsed (label : str) :
  Forall (fun kv => parsed (spin_group (snd kv))) (ss_spins (SpinSystem_init label)).
Proof.
  unfold SpinSystem_init, parse_spin_system. cbn [ss_spins].
  destruct (upper (strip label)); [constructor|].
  apply parse_loop_parsed. discriminate.
Qed.

(** X3.  On spins whose groups are built by [Group.__init__] (as are the
    spins of every parsed spin system), [<] is a strict partial order:
    no spin is below itself, [a < b] excludes [b < a], and [a < b < c] gives
    [a < c].  It is not total: two spins in different groups with the same
    residue number are not ordered either way, while [>=], which
    [total_ordering] derives, holds both ways. *)
Theorem spin_order_is_strict_and_partial (a b c : Spin) :
  parsed (spin_group a) -> parsed (spin_group b) -> parsed (spin_group c) ->
  Spin_lt a a = false
  /\ (Spin_lt a b = true -> Spin_lt b a = false)
  /\ (Spin_lt a b = true -> Spin_lt b c = true -> Spin_lt a c = true)
  /\ (group_number (spin_group a) = group_number (spin_group b) ->
      Group_eq (spin_group a) (spin_group b) = false ->
      Spin_lt a b = false /\ Spin_lt b a = false
      /\ Spin_ge a b = true /\ Spin_ge b a = true).
Proof.
  intros Pa Pb Pc. unfold Spin_ge, Spin_lt, Atom_eq, Atom_lt, Group_lt.
  repeat apply conj.
  - unfold Group_eq. now rewrite !str_eqb_refl.
  - rewrite (Group_eq_sym (spin_group b)).
    destruct (Group_eq (spin_group a) (spin_group b)) eqn:Eg.
    + rewrite (str_eqb_sym (atom_name (spin_atom b))).
      destruct (str_eqb (atom_name (spin_atom a)) (atom_name (spin_atom b)));
        [reflexivity | apply str_ltb_asym].
    + intros H. apply Z.ltb_lt in H. apply Z.ltb_ge. lia.
  - destruct (Group_eq (spin_group a) (spin_group b)) eqn:Eab.
    + apply (parsed_eq _ _ Pa Pb) in Eab. rewrite <- Eab.
      destruct (str_eqb (atom_name (spin_atom a)) (atom_name (spin_atom b))) eqn:Aab;
        [discriminate|].
      intros Hab. destruct (Group_eq (spin_group a) (spin_group c)); [|auto].
      destruct (str_eqb (atom_name (spin_atom b)) (atom_name (spin_atom c))) eqn:Abc;
        [discriminate|].
      intros Hbc. pose proof (str_ltb_trans _ _ _ Hab Hbc) as Hac.
      destruct (str_eqb (atom_name (spin_atom a)) (atom_name (spin_atom c))) eqn:Aac;
        [|exact Hac].
      apply str_eqb_eq in Aac. rewrite Aac in Hac.
      now rewrite str_ltb_irrefl in Hac.
    + intros Hab. apply Z.ltb_lt in Hab.
      destruct (Group_eq (spin_group b) (spin_group c)) eqn:Ebc.
      * apply (parsed_eq _ _ Pb Pc) in Ebc. rewrite <- Ebc, Eab.
        intros _. now apply Z.ltb_lt.
      * intros Hbc. apply Z.ltb_lt in Hbc.
        destruct (Group_eq (spin_group a) (spin_group c)) eqn:Eac.
        -- apply (parsed_eq _ _ Pa Pc) in Eac. rewrite Eac in Hab. lia.
        -- apply Z.ltb_lt. lia.
  - intros Hn Hg. rewrite (Group_eq_sym (spin_group b)), Hg, Hn, Z.ltb_irrefl.
    repeat split.
Qed.

Lemma spin_order_is_strict_and_partial_witness :
  let a := Spin_init (lit "G23N") None in
  let b := Spin_init (lit "A23N") None in
  Spin_lt a b = false /\ Spin_lt b a = false.
Proof.
  intros a b.
  destruct (spin_order_is_strict_and_partial a b a
              (Spin_init_parsed _ None ltac:(discriminate))
              (Spin_init_parsed _ None ltac:(discriminate))
              (Spin_init_parsed _ None ltac:(discriminate)))
    as (_ & _ & _ & H).
  destruct (H eq_refl eq_refl) as (H1 & H2 & _). split; assumption.
Defined.

(** X4.  A group read from its own name is the same group: symbol, number,
    suffix and name.  The name is the symbol, the number when there is one
    and the suffix put together, in upper case and without blanks around. *)
Theorem Group_name_round_trip (s : str) :
  let g := Group_init s in
  Group_init (group_name g) = g
  /\ group_name g
     = group_symbol g
       ++ (if Z.eqb (group_number g) NO_NUMBER then [] else str_of_Z (group_number g))
       ++ group_suffix g
  /\ upper (group_name g) = group_name g
  /\ strip (group_name g) = group_name g.
Proof.
  cbv zeta. destruct (Group_init_name s) as (Hu & Hs & _ & Hi).
  repeat apply conj; auto.
  unfold Group_init. destruct (parse_group (upper (strip s))) as [[sym num] suf].
  reflexivity.
Qed.

(** X5.  An atom read from its own name is the same atom; its nucleus is
    the one of the first letter of its name. *)
Theorem Atom_name_round_trip (s : str) :
  let a := Atom_init s in
  Atom_init (atom_name a) = a
  /\ atom_nucleus a = STR_TO_NUCLEUS (firstn 1 (atom_name a))
  /\ upper (atom_name a) = atom_name a
  /\ strip (atom_name a) = atom_name a.
Proof.
  cbv zeta. destruct (Atom_init_name s) as (Hu & Hs & _ & Hi).
  repeat apply conj; auto.
Qed.

Set Implicit Arguments.

End SpinOrderFacts.

(** ** Spin systems: aliases, integer labels and the carried-over group *)

Module SpinSystemFacts.
Import PyStr PyStrFacts SpinSystemPy SpinSystemOps StrFacts NumeralFacts LabelFacts.

Unset Implicit Arguments.

Lemma parse_loop_keys (pairs : list (str * str)) (last : option Group) :
  map fst (parse_loop pairs last) = map fst pairs.
Proof.
  revert last. induction pairs as [|[alias part] pairs IH]; intros last; simpl;
    [reflexivity | now rewrite IH].
Qed.

Lemma map_fst_combine {A B : Type} (a : list A) (b : list B) :
  map fst (combine a b) = firstn (length b) a.
Proof.
  revert b. induction a as [|x a IH]; intros [|y b]; simpl; auto. now rewrite IH.
Qed.

Lemma parse_spin_system_nonempty (name : str) :
  name <> [] ->
  parse_spin_system name = parse_loop (combine ALIASES (split_on "-" name)) None.
Proof. destruct name; [congruence | reflexivity]. Qed.

Lemma spin_system_keys (label : str) :
  let ss := SpinSystem_init label in
  length (ss_spins ss) <= 3
  /\ map fst (ss_spins ss) = firstn (length (ss_spins ss)) ALIASES
  /\ (upper (strip label) <> [] ->
      length (ss_spins ss)
      = Nat.min 3 (length (split_on "-" (upper (strip label))))).
Proof.
  cbv zeta. unfold SpinSystem_init, parse_spin_system. cbn [ss_spins].
  destruct (upper (strip label)) as [|c L] eqn:EL.
  - repeat apply conj.
    + simpl. lia.
    + reflexivity.
    + congruence.
  - set (parts := split_on "-" (c :: L)).
    assert (Hlen : length (parse_loop (combine ALIASES parts) None)
                   = Nat.min 3 (length parts)).
    { rewrite <- (length_map fst), parse_loop_keys, length_map.
      now rewrite length_combine. }
    repeat apply conj.
    + rewrite Hlen. lia.
    + rewrite parse_loop_keys, map_fst_combine, Hlen.
      destruct parts as [|p1 [|p2 [|p3 [|p4 rest]]]]; reflexivity.
    + intros _. exact Hlen.
Qed.

(** X6.  A parsed spin system has at most three spins, stored under the
    aliases [i], [s], [x] in this order: one spin per hyphen-separated part
    of the label, the parts after the third being dropped.  A label that is
    empty once stripped gives the spin system without spins and without
    name. *)
Theorem spin_system_aliases (label : str) :
  let ss := SpinSystem_init label in
  let parts := split_on "-" (upper (strip label)) in
  length (ss_spins ss) <= 3
  /\ map fst (ss_spins ss) = firstn (length (ss_spins ss)) ALIASES
  /\ (upper (strip label) <> [] ->
      length (ss_spins ss) = Nat.min 3 (length parts))
  /\ (upper (strip label) = [] ->
      ss = mkSpinSystem [] [] /\ SpinSystem_bool ss = false).
Proof.
  cbv zeta. destruct (spin_system_keys label) as (Hlen & Hkeys & Hparts).
  repeat apply conj; auto.
  intros E. unfold SpinSystem_init, parse_spin_system. rewrite E.
  split; reflexivity.
Qed.

Lemma none_of_hd (P : ascii -> bool) (s : str) :
  none_of P s = true -> hd_not P s = true.
Proof.
  destruct s as [|c s]; simpl; auto. unfold none_of. simpl.
  intros H. now apply andb_true_iff in H.
Qed.

Lemma none_of_rev (P : ascii -> bool) (s : str) :
  none_of P s = true -> none_of P (rev s) = true.
Proof.
  unfold none_of. rewrite !forallb_forall. intros H c Hc. apply H.
  now apply in_rev.
Qed.

Lemma no_space_strip (s : str) : none_of is_space s = true -> strip s = s.
Proof.
  intros H. apply strip_id; apply none_of_hd; auto. now apply none_of_rev.
Qed.

Lemma digits_no_space (s : str) :
  forallb is_digit s = true -> none_of is_space s = true.
Proof. apply none_of_impl. apply digit_not_space. Qed.

Lemma digits_not_standard (dig : str) :
  forallb is_digit dig = true -> mem dig STANDARD_ATOM_NAMES = false.
Proof.
  intros H. destruct (mem dig STANDARD_ATOM_NAMES) eqn:E; auto.
  apply standard_has_atom_letter in E.
  now rewrite (digits_no_atom_letter dig H) in E.
Qed.

(** A spin name that is a residue number alone. *)
Lemma Spin_init_number (n : N) :
  Spin_init (str_of_N n) None
  = mkSpin (str_of_N n) (mkGroup (str_of_N n) [] (Z.of_N n) []) (mkAtom [] None).
Proof.
  pose proof (str_of_N_digits n) as Hd. pose proof (str_of_N_nonempty n) as Hne.
  assert (Hs : strip (str_of_N n) = str_of_N n)
    by (apply no_space_strip; now apply digits_no_space).
  assert (Hu : upper (str_of_N n) = str_of_N n) by now apply digits_upper.
  unfold Spin_init. rewrite Hs, Hu.
  pose proof (split_numbered_group [] (str_of_N n) [] eq_refl Hd Hne eq_refl) as H.
  simpl app in H. rewrite List.app_nil_r in H. rewrite H.
  rewrite digits_not_standard by assumption.
  pose proof (Group_init_numbered [] (str_of_N n) []) as Hg.
  simpl app in Hg. rewrite List.app_nil_r in Hg.
  rewrite Hg by (auto; reflexivity).
  rewrite int_of_str_of_N. unfold Spin_get_name. cbn.
  now rewrite !List.app_nil_r.
Qed.

(** X7.  The spin system of a non-negative integer has one spin, under the
    alias [i]: a group with that residue number, no symbol and no suffix,
    and no atom; its name is the decimal print of the integer.  As a
    selection pattern it matches exactly the spin systems whose first spin
    has that residue number. *)
Theorem integer_label_selects_residue (n : N) :
  let ss := SpinSystem_new (LabelInt (Z.of_N n)) in
  ss = mkSpinSystem (str_of_N n)
         [(lit "i", mkSpin (str_of_N n)
                      (mkGroup (str_of_N n) [] (Z.of_N n) []) (mkAtom [] None))]
  /\ forall other alias spin rest,
       ss_spins other = (alias, spin) :: rest ->
       SpinSystem_match ss other
       = Z.eqb (group_number (spin_group spin)) (Z.of_N n).
Proof.
  cbv zeta.
  assert (Hss : SpinSystem_new (LabelInt (Z.of_N n))
                = mkSpinSystem (str_of_N n)
                    [(lit "i", mkSpin (str_of_N n)
                                 (mkGroup (str_of_N n) [] (Z.of_N n) [])
                                 (mkAtom [] None))]).
  { unfold SpinSystem_new. rewrite str_of_Z_of_N.
    pose proof (str_of_N_digits n) as Hd. pose proof (str_of_N_nonempty n) as Hne.
    unfold SpinSystem_init.
    rewrite (no_space_strip _ (digits_no_space _ Hd)), (digits_upper _ Hd).
    rewrite parse_spin_system_nonempty by assumption.
    rewrite (split_on_none _ (digits_no_dash _ Hd)).
    cbn [ALIASES combine parse_loop]. rewrite Spin_init_number.
    unfold spins2name. cbn [map snd spin_names spin_group spin_name].
    unfold Group_eq. cbn [group_name].
    replace (str_eqb (str_of_N n) (group_name (Group_init []))) with false.
    - reflexivity.
    - symmetry. apply str_eqb_neq. exact Hne. }
  split; [exact Hss|].
  intros other alias spin rest Hspins. rewrite Hss.
  unfold SpinSystem_match. cbn [ss_spins map snd]. rewrite Hspins.
  cbn [map snd combine forallb fst].
  unfold Spin_match, Group_match, Atom_match, number_match, symbol_match, suffix_match.
  cbn [spin_group spin_atom group_number group_symbol group_suffix atom_name].
  rewrite of_N_not_NO_NUMBER, !(str_eqb_refl []), !orb_true_r, orb_false_r.
  destruct (atom_name (spin_atom spin));
    now rewrite !andb_true_r.
Qed.

(** A text in upper case without blank and without hyphen. *)
Definition clean (s : str) : Prop :=
  upper s = s /\ none_of is_space s = true /\ none_of is_dash s = true.

Lemma clean_app (a b : str) : clean a -> clean b -> clean (a ++ b).
Proof.
  intros (Hau & Has & Had) (Hbu & Hbs & Hbd). repeat apply conj.
  - now apply upper_fixed_app.
  - now rewrite none_of_app, Has, Hbs.
  - now rewrite none_of_app, Had, Hbd.
Qed.

Lemma clean_digits (dig : str) : forallb is_digit dig = true -> clean dig.
Proof.
  intros H. repeat apply conj.
  - now apply digits_upper.
  - now apply digits_no_space.
  - now apply digits_no_dash.
Qed.

Lemma clean_norm (s : str) : clean s -> upper (strip s) = s.
Proof. intros (Hu & Hs & _). now rewrite no_space_strip. Qed.

(** A numbered group followed by an atom, read as a spin. *)
Lemma Spin_init_numbered_atom (pre dig atomstr : str) (last : option Group) :
  clean pre -> none_of is_digit pre = true ->
  forallb is_digit dig = true -> dig <> [] ->
  clean atomstr -> atom_like atomstr = true ->
  Spin_init (pre ++ dig ++ atomstr) last
  = mkSpin (group_name (Group_init (pre ++ dig)) ++ atom_name (Atom_init atomstr))
           (Group_init (pre ++ dig)) (Atom_init atomstr)
  /\ Group_bool (Group_init (pre ++ dig)) = true.
Proof.
  intros Hpre Hnd Hdig Hne Hatom Hlike.
  assert (Hg : clean (pre ++ dig)) by (apply clean_app; auto using clean_digits).
  assert (Hb : Group_bool (Group_init (pre ++ dig)) = true).
  { pose proof (Group_init_numbered pre dig []) as H.
    rewrite List.app_nil_r in H.
    rewrite H; auto.
    - unfold Group_bool. cbn [group_name]. apply negb_true_iff, str_eqb_neq.
      intros E. apply app_eq_nil in E as [_ E]. apply app_eq_nil in E as [E _].
      now apply (str_of_N_nonempty (int_of_digits dig)).
    - now destruct Hg.
    - apply no_space_strip. now destruct Hg as (_ & ? & _). }
  split; [|exact Hb].
  unfold Spin_init.
  rewrite (clean_norm (pre ++ dig ++ atomstr))
    by (rewrite List.app_assoc; now apply clean_app).
  pose proof (split_numbered_atom pre dig [] atomstr Hnd Hdig Hne eq_refl Hlike) as H.
  simpl app in H. rewrite List.app_nil_r in H. rewrite H.
  rewrite Hb. destruct last; reflexivity.
Qed.

(** X8.  The group of a spin carries over to the next spin of the label:
    after a spin made of a numbered group and an atom, naming the next spin
    by its atom alone, or by the same group and the atom, gives the same
    spin system (as for [G23N-HN] and [G23N-G23HN]). *)
Theorem group_carries_over (pre dig atom1 atom2 : str) :
  clean pre -> none_of is_digit pre = true ->
  forallb is_digit dig = true -> dig <> [] ->
  clean atom1 -> atom_like atom1 = true ->
  clean atom2 -> atom_like atom2 = true ->
  none_of is_digit atom2 = true \/ mem atom2 STANDARD_ATOM_NAMES = true ->
  SpinSystem_init (pre ++ dig ++ atom1 ++ lit "-" ++ atom2)
  = SpinSystem_init (pre ++ dig ++ atom1 ++ lit "-" ++ pre ++ dig ++ atom2).
Proof.
  intros Hpre Hnd Hdig Hne H1 Hl1 H2 Hl2 Hok.
  assert (Hdash : clean (pre ++ dig ++ atom1))
    by (repeat apply clean_app; auto using clean_digits).
  assert (Hg2 : clean (pre ++ dig ++ atom2))
    by (repeat apply clean_app; auto using clean_digits).
  assert (Hnorm : forall tail, clean tail ->
            upper (strip (pre ++ dig ++ atom1 ++ lit "-" ++ tail))
            = (pre ++ dig ++ atom1) ++ "-"%char :: tail).
  { intros tail (Htu & Hts & Htd). destruct Hdash as (Hu & Hs & Hd).
    replace (pre ++ dig ++ atom1 ++ lit "-" ++ tail)
      with ((pre ++ dig ++ atom1) ++ "-"%char :: tail)
      by (now rewrite <- !List.app_assoc).
    rewrite no_space_strip.
    - rewrite upper_app, Hu. simpl. now rewrite Htu.
    - rewrite none_of_app, Hs. unfold none_of in *. simpl. exact Hts. }
  assert (Hparse : forall tail, clean tail ->
            parse_spin_system ((pre ++ dig ++ atom1) ++ "-"%char :: tail)
            = [(lit "i", Spin_init (pre ++ dig ++ atom1) None);
               (lit "s", Spin_init tail (Some (Group_init (pre ++ dig))))]).
  { intros tail (Htu & Hts & Htd).
    rewrite parse_spin_system_nonempty
      by (intros E; now apply app_eq_nil in E as [_ E]).
    destruct Hdash as (_ & _ & Hd).
    rewrite (split_on_dash _ tail Hd), (split_on_none _ Htd).
    cbn [ALIASES combine parse_loop].
    destruct (Spin_init_numbered_atom pre dig atom1 None) as [-> _]; auto. }
  unfold SpinSystem_init.
  rewrite (Hnorm atom2 H2), (Hnorm (pre ++ dig ++ atom2) Hg2).
  rewrite (Hparse atom2 H2), (Hparse (pre ++ dig ++ atom2) Hg2).
  destruct (Spin_init_numbered_atom pre dig atom2
              (Some (Group_init (pre ++ dig)))) as [-> Hb]; auto.
  assert (Hre : split_group_atom atom2 = (Group_init [], Atom_init atom2))
    by (apply atom_reparse; auto).
  rewrite (Spin_init_split atom2 (Group_init (pre ++ dig))
             (Group_init []) (Atom_init atom2))
    by (now rewrite (clean_norm atom2 H2)).
  unfold completed_group. rewrite Hb.
  change (Group_bool (Group_init [])) with false. reflexivity.
Qed.

Lemma group_carries_over_witness :
  SpinSystem_init (lit "G23N-HN") = SpinSystem_init (lit "G23N-G23HN")
  /\ ss_name (SpinSystem_init (lit "G23N-HN")) = lit "G23N-H".
Proof.
  split; [|reflexivity].
  apply (group_carries_over (lit "G") (lit "23") (lit "N") (lit "HN"));
    try (repeat apply conj; reflexivity); try reflexivity; try discriminate.
  left. reflexivity.
Defined.

Set Implicit Arguments.

End SpinSystemFacts.

(** ** The subsets of the aliases, and the table of names *)

Module PowersetFacts.
Import PyStr PyStrFacts SpinSystemPy SpinSystemOps.

Unset Implicit Arguments.

(** [sub] is [s] with some elements left out. *)
Inductive subseq {A : Type} : list A -> list A -> Prop :=
| subseq_nil : subseq [] []
| subseq_skip x sub s : subseq sub s -> subseq sub (x :: s)
| subseq_take x sub s : subseq sub s -> subseq (x :: sub) (x :: s).

Lemma subseq_nil_l {A : Type} (s : list A) : subseq [] s.
Proof. induction s; constructor; auto. Qed.

Lemma subseq_length {A : Type} (sub s : list A) :
  subseq sub s -> length sub <= length s.
Proof. induction 1; simpl; lia. Qed.

Lemma combinations_spec {A : Type} (s : list A) (r : nat) (sub : list A) :
  In sub (combinations s r) <-> subseq sub s /\ length sub = r.
Proof.
  revert r sub. induction s as [|x s IH]; intros r sub.
  - destruct r; simpl.
    + split.
      * intros [<- | []]. split; constructor.
      * intros [H _]. inversion H. now left.
    + split; [tauto|]. intros [H Hl]. inversion H; subst. discriminate.
  - destruct r; simpl.
    + split.
      * intros [<- | []]. split; [apply subseq_nil_l | reflexivity].
      * intros [_ Hl]. destruct sub; [now left | discriminate].
    + rewrite in_app_iff, in_map_iff. split.
      * intros [(sub' & <- & Hin) | Hin].
        -- apply IH in Hin as [Hs Hl]. split; [now constructor | simpl; lia].
        -- apply IH in Hin as [Hs Hl]. split; [now constructor | exact Hl].
      * intros [H Hl]. inversion H; subst.
        -- right. apply IH. auto.
        -- left. exists sub0. split; auto. apply IH. simpl in Hl. split; auto; lia.
Qed.

Lemma combinations_too_long {A : Type} (s : list A) (r : nat) :
  length s < r -> combinations s r = [].
Proof.
  revert r. induction s as [|x s IH]; intros [|r] H; simpl in *; try lia; auto.
  rewrite !IH by lia. reflexivity.
Qed.

(** The number of subsequences of every length up to [n]. *)
Definition count_upto {A : Type} (s : list A) (n : nat) : nat :=
  length (flat_map (combinations s) (seq 0 n)).

Lemma length_flat_map_seq {A : Type} (f : nat -> list A) (a n : nat) :
  length (flat_map f (seq a (S n)))
  = length (f a) + length (flat_map f (seq (S a) n)).
Proof. simpl. now rewrite length_app. Qed.

Lemma length_flat_map_snoc {A : Type} (f : nat -> list A) (a n : nat) :
  length (flat_map f (seq a (S n)))
  = length (flat_map f (seq a n)) + length (f (a + n)).
Proof.
  rewrite seq_S, flat_map_app, length_app. simpl. now rewrite List.app_nil_r.
Qed.

Lemma length_flat_map_shift {A : Type} (f : nat -> list A) (a n : nat) :
  length (flat_map f (seq (S a) n))
  = length (flat_map (fun r => f (S r)) (seq a n)).
Proof.
  revert a. induction n as [|n IH]; intros a; simpl; auto.
  now rewrite !length_app, IH.
Qed.

Lemma length_flat_map_add {A : Type} (f g h : nat -> list A) (l : list nat) :
  (forall r, length (h r) = length (f r) + length (g r)) ->
  length (flat_map h l) = length (flat_map f l) + length (flat_map g l).
Proof.
  intros H. induction l as [|r l IH]; simpl; auto.
  rewrite !length_app, IH, H. lia.
Qed.

Lemma powerset_length {A : Type} (s : list A) :
  length (powerset s) = 2 ^ length s.
Proof.
  unfold powerset. rewrite Nat.add_1_r.
  induction s as [|x s IH]; [reflexivity|].
  cbn [Datatypes.length]. rewrite length_flat_map_seq.
  rewrite length_flat_map_shift.
  rewrite (length_flat_map_add
             (fun r => map (cons x) (combinations s r))
             (fun r => combinations s (S r))).
  - assert (H1 : length (flat_map (fun r => map (cons x) (combinations s r))
                                  (seq 0 (S (length s))))
                 = 2 ^ length s).
    { rewrite <- IH. clear IH. generalize (seq 0 (S (length s))) as l.
      induction l as [|r l IHl]; simpl; auto.
      now rewrite !length_app, length_map, IHl. }
    assert (H2 : 1 + length (flat_map (fun r => combinations s (S r))
                                      (seq 0 (S (length s))))
                 = 2 ^ length s).
    { rewrite <- IH.
      rewrite <- (length_flat_map_shift (combinations s)).
      rewrite (length_flat_map_seq (combinations s) 0 (length s)).
      rewrite (length_flat_map_snoc (combinations s) 1 (length s)).
      rewrite (combinations_too_long s (1 + length s)) by lia.
      destruct s; simpl; lia. }
    rewrite H1. simpl (2 ^ S _). simpl (length (combinations (x :: s) 0)).
    lia.
  - intros r. simpl. now rewrite length_app.
Qed.

(** X9.  [powerset] yields exactly the tuples obtained by leaving elements
    out of its argument, [2 ^ n] of them with repetitions counted, and the
    shorter before the longer. *)
Theorem powerset_is_the_subsequences {A : Type} (s : list A) :
  (forall sub, In sub (powerset s) <-> subseq sub s)
  /\ length (powerset s) = 2 ^ length s
  /\ Sorted.StronglySorted (fun a b : list A => length a <= length b) (powerset s).
Proof.
  split; [|split; [apply powerset_length|]].
  - intros sub. unfold powerset. rewrite in_flat_map. split.
    + intros (r & _ & Hin). now apply combinations_spec in Hin as [H _].
    + intros H. exists (length sub). split.
      * apply in_seq. apply subseq_length in H. lia.
      * apply combinations_spec. auto.
  - unfold powerset. generalize (length s + 1) as n.
    assert (Hgen : forall n a,
               Sorted.StronglySorted (fun x y : list A => length x <= length y)
                 (flat_map (combinations s) (seq a n))
               /\ Forall (fun x => a <= length x)
                         (flat_map (combinations s) (seq a n))).
    { induction n as [|n IH]; intros a; simpl.
      - split; constructor.
      - destruct (IH (S a)) as [Hs Hf].
        assert (Hhere : Forall (fun x : list A => length x = a) (combinations s a)).
        { apply Forall_forall. intros x Hx. now apply combinations_spec in Hx. }
        split.
        + induction Hhere as [|x l Hx Hl IHl]; simpl; auto.
          constructor; auto. apply Forall_app. split.
          * eapply Forall_impl; [|exact Hl]. simpl. intros y Hy. lia.
          * eapply Forall_impl; [|exact Hf]. simpl. intros y Hy. lia.
        + apply Forall_app. split.
          * eapply Forall_impl; [|exact Hhere]. simpl. intros y Hy. lia.
          * eapply Forall_impl; [|exact Hf]. simpl. intros y Hy. lia. }
    intros n. apply Hgen.
Qed.

(** X10.  The table [names] of a parsed spin system holds the empty name
    under the empty key and the name of the spin system under the key made
    of all its aliases; it has one entry for every subset of its aliases. *)
Theorem names_table_holds_the_name (label : str) :
  let ss := SpinSystem_init label in
  let names := spins2names (ss_spins ss) in
  dict_get names [] = Some []
  /\ dict_get names (List.concat (map fst (ss_spins ss))) = Some (ss_name ss)
  /\ length names = 2 ^ length (ss_spins ss).
Proof.
  cbv zeta.
  destruct (SpinSystemFacts.spin_system_keys label) as (Hlen & Hkeys & _).
  assert (Hname : ss_name (SpinSystem_init label)
                  = spins2name (map snd (ss_spins (SpinSystem_init label))))
    by reflexivity.
  rewrite Hname. clear Hname.
  destruct (ss_spins (SpinSystem_init label)) as [|[k1 s1] [|[k2 s2] [|[k3 s3] [|? ?]]]];
    simpl in Hlen; try lia; simpl in Hkeys.
  - repeat split.
  - injection Hkeys as ->. repeat split.
  - injection Hkeys as -> ->. repeat split.
  - injection Hkeys as -> -> ->. repeat split.
Qed.

Set Implicit Arguments.

End PowersetFacts.

(** ** Selections of spin systems *)

Module SelectionFacts.
Import PyStr PyStrFacts SpinSystemPy SpinSystemOps.

Unset Implicit Arguments.

Lemma startswith_refl (s : str) : startswith s s = true.
Proof.
  induction s as [|c s IH]; simpl; auto.
  destruct (ascii_dec c c); [exact IH | congruence].
Qed.

Lemma Spin_match_refl (spin : Spin) : Spin_match spin spin = true.
Proof.
  unfold Spin_match, Group_match, Atom_match, number_match, symbol_match,
    suffix_match.
  now rewrite Z.eqb_refl, !str_eqb_refl, startswith_refl.
Qed.

Lemma spins_match_refl (spins : list Spin) :
  forallb (fun p => Spin_match (fst p) (snd p)) (combine spins spins) = true.
Proof.
  induction spins as [|spin spins IH]; simpl; auto.
  now rewrite Spin_match_refl, IH.
Qed.

Lemma combine_firstn_r {A B : Type} (a : list A) (b : list B) :
  combine a (firstn (length a) b) = combine a b.
Proof.
  revert b. induction a as [|x a IH]; intros [|y b]; simpl; auto.
  now rewrite IH.
Qed.

(** X11.  A spin system is part of every selection that holds it, and of
    no empty selection.  Matching pairs the spins by position and stops at
    the shorter side: the spins of the candidate beyond those of the pattern
    play no part, a pattern without spins matches every candidate, and a
    candidate without spins is part of every selection that is not empty. *)
Theorem part_of_selection (self : SpinSystem) (selection : list SpinSystem) :
  part_of self [] = false
  /\ (In self selection -> part_of self selection = true)
  /\ (forall item,
        SpinSystem_match item self
        = SpinSystem_match item
            (mkSpinSystem (ss_name self)
               (firstn (length (ss_spins item)) (ss_spins self))))
  /\ (forall item,
        In item selection -> ss_spins item = [] ->
        part_of self selection = true)
  /\ (ss_spins self = [] -> selection <> [] -> part_of self selection = true).
Proof.
  unfold part_of. repeat apply conj.
  - reflexivity.
  - intros Hin. apply existsb_exists. exists self. split; auto.
    unfold SpinSystem_match. apply spins_match_refl.
  - intros item. unfold SpinSystem_match. cbn [ss_spins].
    rewrite <- firstn_map. rewrite <- (length_map snd (ss_spins item)).
    now rewrite combine_firstn_r.
  - intros item Hin Hnil. apply existsb_exists. exists item. split; auto.
    unfold SpinSystem_match. now rewrite Hnil.
  - intros Hnil Hne. destruct selection as [|item rest]; [congruence|].
    simpl. unfold SpinSystem_match at 1. rewrite Hnil.
    cbn [map]. now rewrite combine_nil.
Qed.

Set Implicit Arguments.

End SelectionFacts.

(** ** CEST data: reading, filtering, sums and duplicates *)

Module CestDataFacts.
Import PyStr ParamHelper Numpy NumpyFacts Cest CestOps CestFacts.

Unset Implicit Arguments.

(** *** The mask of a data set read from a file *)







(** *** Filtering again, and windows without width *)

Lemma filter_closed (d : CestData) (cs_offset : Q) (sw_dante : option Q) :
  length (mask d) = length (points d) ->
  CestData_filter d cs_offset sw_dante
  = Some (mkCestData (points d) (refs d)
            (map2 (fun b p =>
                     b && forallb (fun w => negb (in_window sw_dante w
                                                    (offsets p - cs_offset)))
                                  (filter_offsets d))
                  (mask d) (points d))
            (filter_offsets d)).
Proof.
  intros Hlen. unfold CestData_filter.
  rewrite filter_loop_closed by (now rewrite length_map). simpl.
  now rewrite map2_map_r.
Qed.

Lemma map2_same_length_ext {A B C : Type} (f g : A -> B -> C) (a : list A) (b : list B) :
  (forall x y, In y b -> f x y = g x y) -> map2 f a b = map2 g a b.
Proof.
  revert b. induction a as [|x a IH]; intros [|y b] H; simpl; auto.
  rewrite H by (now left). f_equal. apply IH. intros. apply H. now right.
Qed.

Lemma map2_keep {A B : Type} (a : list A) (b : list B) :
  length a = length b -> map2 (fun x _ => x) a b = a.
Proof.
  revert b. induction a as [|x a IH]; intros [|y b] H; simpl in *;
    try discriminate; auto.
  f_equal. apply IH. lia.
Qed.

(** X13.  Filtering is idempotent and only ever takes points out of the
    fit: a second call with the same chemical-shift offset returns the data
    set of the first, and a point in the fit afterwards was in the fit
    before.  Points, reference flags and windows are left as they are. *)
Theorem filter_is_idempotent (d d' : CestData) (cs_offset : Q)
  (sw_dante : option Q) :
  length (mask d) = length (points d) ->
  CestData_filter d cs_offset sw_dante = Some d' ->
  CestData_filter d' cs_offset sw_dante = Some d'
  /\ points d' = points d /\ refs d' = refs d
  /\ filter_offsets d' = filter_offsets d
  /\ length (mask d') = length (mask d)
  /\ forall i, nth_error (mask d') i = Some true -> nth_error (mask d) i = Some true.
Proof.
  intros Hlen Hf. rewrite filter_closed in Hf by assumption.
  injection Hf as <-. cbn [points refs mask filter_offsets].
  repeat apply conj; try reflexivity.
  - rewrite filter_closed
      by (cbn [points mask]; rewrite map2_length; auto).
    cbn [points refs mask filter_offsets]. f_equal. f_equal.
    generalize (mask d) as m. generalize (points d) as pts.
    induction pts as [|p pts IH]; intros [|b m]; simpl; auto.
    rewrite IH. f_equal.
    destruct b; simpl; auto.
    now destruct (forallb _ (filter_offsets d)).
  - rewrite map2_length; auto.
  - intros i. rewrite nth_error_map2.
    destruct (nth_error (mask d) i) as [b|]; [|discriminate].
    destruct (nth_error (points d) i) as [p|]; [|discriminate].
    intros [= H]. apply andb_true_iff in H as [-> _]. reflexivity.
Qed.

Lemma filter_is_idempotent_witness :
  let d := mkCestData [mkPoint 100 1 1; mkPoint 50 1 1; mkPoint 0 1 1]
                      [false; false; false] [true; true; true] [(0, 100)%Q] in
  let d' := mkCestData [mkPoint 100 1 1; mkPoint 50 1 1; mkPoint 0 1 1]
                       [false; false; false] [true; true; false] [(0, 100)%Q] in
  CestData_filter d 0 None = Some d' /\ CestData_filter d' 0 None = Some d'.
Proof.
  intros d d'.
  assert (H : CestData_filter d 0 None = Some d') by reflexivity.
  split; [exact H|].
  exact (proj1 (filter_is_idempotent d d' 0%Q None eq_refl H)).
Defined.

(** X14.  A window whose bandwidth is zero or negative removes no point:
    with such windows only, as with the default [[[0.0, 0.0]]], [filter]
    returns the data set unchanged, with or without a DANTE sweep width. *)
Theorem filter_without_bandwidth (d : CestData) (cs_offset : Q)
  (sw_dante : option Q) :
  length (mask d) = length (points d) ->
  Forall (fun window => (snd window <= 0)%Q) (filter_offsets d) ->
  CestData_filter d cs_offset sw_dante = Some d.
Proof.
  intros Hlen Hw. rewrite filter_closed by assumption.
  destruct d as [pts rs m ws]. cbn [points refs mask filter_offsets] in *.
  f_equal. f_equal.
  rewrite (map2_same_length_ext _ (fun b _ => b)).
  - now apply map2_keep.
  - intros b p _.
    replace (forallb _ ws) with true; [apply andb_true_r|].
    symmetry. apply forallb_forall. intros [fo bw] Hin.
    rewrite Forall_forall in Hw. specialize (Hw _ Hin). simpl in Hw.
    apply negb_true_iff. apply in_window_outside. intros x _.
    apply Qle_trans with 0%Q; [|apply Qabs_nonneg].
    rewrite <- (Qmult_0_l (1 # 2)). apply Qmult_le_compat_r; [exact Hw | discriminate].
Qed.

Lemma filter_without_bandwidth_witness :
  let d := from_file three_points [(0, 0)%Q] [] false in
  CestData_filter d 150 (Some 800%Q) = Some d.
Proof.
  intros d. apply (filter_without_bandwidth d 150%Q (Some 800%Q)).
  - reflexivity.
  - repeat constructor. simpl. discriminate.
Defined.

Set Implicit Arguments.

End CestDataFacts.

(** ** CEST data: filtering with a DANTE sweep width *)

From Stdlib Require Import Lqa.

Module DanteFacts.
Import PyStr ParamHelper Numpy NumpyFacts Cest CestFacts CestDataFacts.

Unset Implicit Arguments.

Local Open Scope Q_scope.

Lemma Qfloor_unique (q : Q) (z : Z) :
  inject_Z z <= q -> q < inject_Z (z + 1) -> Qfloor q = z.
Proof.
  intros Hle Hlt.
  pose proof (Qfloor_le q) as H1. pose proof (Qlt_floor q) as H2.
  assert (Ha : (z < Qfloor q + 1)%Z).
  { rewrite Zlt_Qlt. eapply Qle_lt_trans; eauto. }
  assert (Hb : (Qfloor q < z + 1)%Z).
  { rewrite Zlt_Qlt. eapply Qle_lt_trans; eauto. }
  lia.
Qed.

Lemma Qfloor_add_Z (q : Q) (k : Z) : Qfloor (q + inject_Z k) = (Qfloor q + k)%Z.
Proof.
  apply Qfloor_unique.
  - rewrite inject_Z_plus. apply Qplus_le_l. apply Qfloor_le.
  - replace (Qfloor q + k + 1)%Z with ((Qfloor q + 1) + k)%Z by lia.
    rewrite inject_Z_plus. apply Qplus_lt_l. apply Qlt_floor.
Qed.

Lemma Qlt_bool_comp (a a' b b' : Q) :
  a == a' -> b == b' -> Qlt_bool a b = Qlt_bool a' b'.
Proof.
  intros Ea Eb. destruct (Qlt_bool a' b') eqn:E.
  - apply Qlt_bool_true in E. apply Qlt_bool_true. now rewrite Ea, Eb.
  - apply Qlt_bool_false in E. apply Qlt_bool_false. now rewrite Ea, Eb.
Qed.

(** The remainder, when the divisor is not zero. *)
Definition rem (x y : Q) : Q := x - y * inject_Z (Qfloor (x / y)).

Lemma Qmod_rem (x y : Q) : ~ y == 0 -> Qmod x y = Some (rem x y).
Proof.
  intros H. unfold Qmod.
  destruct (Qeq_bool y 0) eqn:E; [|reflexivity].
  apply Qeq_bool_iff in E. contradiction.
Qed.

Lemma rem_periodic (x y sw : Q) (k : Z) :
  ~ sw == 0 -> y == x + inject_Z k * sw -> rem y sw == rem x sw.
Proof.
  intros Hsw E. unfold rem.
  assert (Hq : y / sw == x / sw + inject_Z k) by (rewrite E; now field).
  rewrite (Qfloor_comp _ _ Hq), Qfloor_add_Z, inject_Z_plus, E. ring.
Qed.

Lemma rem_range (x sw : Q) : 0 < sw -> 0 <= rem x sw /\ rem x sw < sw.
Proof.
  intros Hsw. unfold rem.
  assert (Hne : ~ sw == 0) by (intros E; rewrite E in Hsw; discriminate).
  pose proof (Qfloor_le (x / sw)) as H1. pose proof (Qlt_floor (x / sw)) as H2.
  assert (Hx : x == sw * (x / sw)) by (now field).
  apply (Qmult_le_l _ _ sw Hsw) in H1. rewrite <- Hx in H1.
  apply (Qmult_lt_l _ _ sw Hsw) in H2. rewrite <- Hx in H2.
  rewrite inject_Z_plus in H2.
  setoid_replace (sw * (inject_Z (Qfloor (x / sw)) + inject_Z 1))
    with (sw * inject_Z (Qfloor (x / sw)) + sw) in H2 by ring.
  split; lra.
Qed.

Lemma in_window_dante (sw fo bw o : Q) :
  ~ sw == 0 ->
  in_window (Some sw) (fo, bw) o
  = Qlt_bool (Qabs (rem (o - fo + (1 # 2) * sw) sw - (1 # 2) * sw)) (bw * (1 # 2)).
Proof.
  intros Hsw. unfold in_window, dante_wrap. now rewrite Qmod_rem.
Qed.

Lemma in_window_periodic (sw : Q) (w : Q * Q) (o o' : Q) (k : Z) :
  ~ sw == 0 -> o' == o + inject_Z k * sw ->
  in_window (Some sw) w o' = in_window (Some sw) w o.
Proof.
  intros Hsw E. destruct w as [fo bw]. rewrite !in_window_dante by assumption.
  apply Qlt_bool_comp; [|reflexivity].
  apply Qabs_wd. apply Qplus_comp; [|reflexivity].
  apply (rem_periodic _ _ sw k Hsw). rewrite E. ring.
Qed.

Lemma forallb_same {A : Type} (f g : A -> bool) (l : list A) :
  (forall x, f x = g x) -> forallb f l = forallb g l.
Proof. intros H. induction l as [|x l IH]; simpl; auto. now rewrite H, IH. Qed.

(** X15.  With a DANTE sweep width, filtering is periodic in the offset:
    two points whose offsets differ by a whole number of sweep widths, and
    which were both in the fit or both out of it, are treated alike. *)
Theorem dante_filter_is_periodic (d d' : CestData) (cs_offset sw : Q) (k : Z)
  (i j : nat) (pi pj : Point) (m : bool) :
  length (mask d) = length (points d) ->
  ~ sw == 0 ->
  CestData_filter d cs_offset (Some sw) = Some d' ->
  nth_error (points d) i = Some pi -> nth_error (points d) j = Some pj ->
  offsets pj == offsets pi + inject_Z k * sw ->
  nth_error (mask d) i = Some m -> nth_error (mask d) j = Some m ->
  nth_error (mask d') i = nth_error (mask d') j.
Proof.
  intros Hlen Hsw Hf Hpi Hpj E Hi Hj.
  rewrite filter_closed in Hf by assumption. injection Hf as <-.
  cbn [mask]. rewrite !nth_error_map2, Hi, Hj, Hpi, Hpj.
  f_equal. f_equal. apply forallb_same. intros w. f_equal.
  symmetry. apply (in_window_periodic sw w _ _ k Hsw). rewrite E. ring.
Qed.

Lemma dante_filter_is_periodic_witness :
  let d := mkCestData [mkPoint 10 1 1; mkPoint 400 1 1; mkPoint 810 1 1]
                      [false; false; false] [true; true; true] [(0, 100)] in
  exists d',
    CestData_filter d 0 (Some 800) = Some d'
    /\ nth_error (mask d') 0 = nth_error (mask d') 2.
Proof.
  intros d. eexists. split; [reflexivity|].
  apply (dante_filter_is_periodic d _ 0 800 1 0 2 (mkPoint 10 1 1)
           (mkPoint 810 1 1) true);
    try reflexivity. discriminate.
Defined.

(** X16.  With a DANTE sweep width that is positive, a window wider than
    the sweep width takes every point out of the fit. *)
Theorem dante_window_wider_than_sweep (d : CestData) (cs_offset sw fo bw : Q) :
  length (mask d) = length (points d) ->
  0 < sw -> In (fo, bw) (filter_offsets d) -> sw < bw ->
  exists d',
    CestData_filter d cs_offset (Some sw) = Some d'
    /\ mask d' = repeat false (length (points d)).
Proof.
  intros Hlen Hsw Hin Hbw. rewrite filter_closed by assumption.
  eexists. split; [reflexivity|]. cbn [mask].
  assert (Hne : ~ sw == 0) by (intros E; rewrite E in Hsw; discriminate).
  assert (Hall : forall o, in_window (Some sw) (fo, bw) o = true).
  { intros o. rewrite in_window_dante by assumption. apply Qlt_bool_true.
    destruct (rem_range (o - fo + (1 # 2) * sw) sw Hsw) as [H0 H1].
    apply Qle_lt_trans with ((1 # 2) * sw); [|lra].
    apply Qabs_Qle_condition. split; lra. }
  revert Hlen. generalize (mask d) as m. generalize (points d) as pts.
  induction pts as [|p pts IH]; intros [|b m] Hl;
    cbn [map2 Datatypes.length repeat] in *; try discriminate; auto.
  rewrite IH by lia. f_equal.
  replace (forallb _ (filter_offsets d)) with false; [apply andb_false_r|].
  symmetry. apply not_true_is_false. intros H.
  rewrite forallb_forall in H. specialize (H _ Hin). cbv beta in H.
  apply negb_true_iff in H. now rewrite Hall in H.
Qed.

Lemma dante_window_wider_than_sweep_witness :
  let d := mkCestData [mkPoint 10 1 1; mkPoint 400 1 1; mkPoint 810 1 1]
                      [false; false; false] [true; true; true] [(0, 900)] in
  exists d',
    CestData_filter d 0 (Some 800) = Some d' /\ mask d' = [false; false; false].
Proof.
  intros d.
  destruct (dante_window_wider_than_sweep d 0 800 0 900) as (d' & Hf & Hm);
    try reflexivity.
  - left. reflexivity.
  - exists d'. split; [exact Hf | exact Hm].
Defined.

Set Implicit Arguments.

End DanteFacts.

(** ** CEST data: duplicated offsets *)

From Stdlib Require Import SetoidList SetoidPermutation.

Module DuplicateFacts.
Import Numpy NumpyFacts Cest CestOps.

Unset Implicit Arguments.

Lemma drop_repeats_le (x : Q) (r : list Q) :
  length (drop_repeats x r) <= length r.
Proof.
  revert x. induction r as [|y r IH]; intros x; simpl; auto.
  destruct (Qeq_bool y x); simpl; specialize (IH y); lia.
Qed.

Lemma sorted_not_in (x y : Q) (r : list Q) :
  StronglySorted (fun a b => is_true (Qle_bool a b)) (x :: y :: r) ->
  ~ (y == x)%Q -> ~ InA Qeq x (y :: r).
Proof.
  intros Hs Hne Hin. inversion Hs as [|? ? Hs' Hx]; subst.
  inversion Hs' as [|? ? _ Hy]; subst.
  inversion Hx as [|? ? Hxy _]; subst. apply Qle_bool_iff in Hxy.
  apply InA_cons in Hin as [E | Hin].
  - apply Hne. now symmetry.
  - apply InA_alt in Hin as (z & E & Hz).
    rewrite Forall_forall in Hy. specialize (Hy z Hz). apply Qle_bool_iff in Hy.
    apply Hne. apply Qle_antisym; [|exact Hxy]. now rewrite E.
Qed.

(** In a sorted array no element is dropped exactly when no two elements
    are equal. *)
Lemma drop_repeats_all (x : Q) (r : list Q) :
  StronglySorted (fun a b => is_true (Qle_bool a b)) (x :: r) ->
  length (drop_repeats x r) = length r <-> NoDupA Qeq (x :: r).
Proof.
  revert x. induction r as [|y r IH]; intros x Hs.
  - simpl. split; [|reflexivity]. intros _. constructor; [|constructor].
    intros H. inversion H.
  - assert (Hs' : StronglySorted (fun a b => is_true (Qle_bool a b)) (y :: r))
      by (now inversion Hs).
    simpl. destruct (Qeq_bool y x) eqn:E.
    + apply Qeq_bool_iff in E. split.
      * pose proof (drop_repeats_le y r). lia.
      * intros Hnd. inversion Hnd as [|? ? Hnotin _]; subst.
        exfalso. apply Hnotin. left. now symmetry.
    + assert (Hne : ~ (y == x)%Q).
      { intros H. apply Qeq_bool_iff in H. congruence. }
      simpl. split.
      * intros [= Hl]. constructor.
        -- now apply sorted_not_in.
        -- now apply IH.
      * intros Hnd. inversion Hnd as [|? ? _ Hnd']; subst.
        f_equal. now apply IH.
Qed.

Lemma Qle_bool_transitive : Transitive (fun a b : Q => is_true (Qle_bool a b)).
Proof.
  intros a b c Hab Hbc. apply Qle_bool_iff in Hab, Hbc. apply Qle_bool_iff.
  now apply Qle_trans with b.
Qed.

Lemma np_unique_all (a : list Q) :
  length (np_unique a) = length a <-> NoDupA Qeq a.
Proof.
  pose proof (OffsetSort.Permuted_sort a) as Hp.
  pose proof (OffsetSort.StronglySorted_sort a Qle_bool_transitive) as Hs.
  assert (Hnd : NoDupA Qeq a <-> NoDupA Qeq (OffsetSort.sort a)).
  { split; apply PermutationA_preserves_NoDupA; try apply Q_Setoid;
      apply Permutation_PermutationA; try apply Q_Setoid; auto.
    now apply Permutation_sym. }
  rewrite Hnd, (Permutation_length Hp). unfold np_unique.
  destruct (OffsetSort.sort a) as [|x r].
  - split; auto.
  - simpl. rewrite <- (drop_repeats_all x r Hs). split; intros H; lia.
Qed.

(** X17.  [any_duplicate] is false exactly when no two points of the data
    set have equal offsets. *)
Theorem any_duplicate_finds_equal_offsets (d : CestData) :
  any_duplicate d = false <-> NoDupA Qeq (map offsets (points d)).
Proof.
  unfold any_duplicate. rewrite negb_false_iff, Nat.eqb_eq.
  rewrite <- np_unique_all. now rewrite length_map.
Qed.

Set Implicit Arguments.

End DuplicateFacts.

(** ** CEST profiles: reference points, resampled profiles and sums *)

Module CestProfileFacts.
Import PyStr ParamHelper Numpy NumpyFacts Cest CestOps CestFacts.

Unset Implicit Arguments.

(** X18.  The reference points of a data set read from a file are the
    points that the pulse sequence of [cest_15n_cw] computes without the
    CEST pulse: the calculated value is [detect(start)] at every reference
    point, the same for all of them, and the value detected after the pulse
    at the offset of the point everywhere else. *)
Theorem reference_points_skip_the_pulse (prop : Propagator) (pts : list Point)
  (filter_offs : list (Q * Q)) (filter_planes : list Z) (filter_ref_planes : bool)
  (params_local : ParVals) (i : nat) (p : Point) :
  let d := from_file pts filter_offs filter_planes filter_ref_planes in
  let calculated :=
    ps_calculate (cest_15n_cw prop) (map offsets (points d)) params_local in
  nth_error pts i = Some p ->
  (nth_error (refs d) i = Some true ->
   nth_error calculated i = Some (detect_start prop params_local))
  /\ (nth_error (refs d) i = Some false ->
      nth_error calculated i = Some (detect_pulse prop params_local (offsets p))).
Proof.
  cbv zeta. intros Hp. unfold from_file. cbn [points refs ps_calculate cest_15n_cw].
  unfold cest_15n_cw_calculate, Qlt_bool. rewrite !nth_error_map, Hp. simpl.
  split; intros [= ->]; reflexivity.
Qed.

Lemma reference_points_skip_the_pulse_witness :
  nth_error (ps_calculate (cest_15n_cw flat_propagator)
               (map offsets three_points) []) 2
  = Some (detect_start flat_propagator []).
Proof.
  apply (reference_points_skip_the_pulse flat_propagator three_points
           [(0, 0)%Q] [] false [] 2 (mkPoint 20000 3 (1 # 10)));
    reflexivity.
Defined.

Lemma take_length {A : Type} (a : list A) (idx : list nat) (l : list A) :
  take a idx = Some l -> length l = length idx.
Proof.
  revert l. induction idx as [|i idx IH]; intros l; simpl.
  - now intros [= <-].
  - destruct (nth_error a i); [|discriminate]. simpl.
    destruct (take a idx) as [l'|]; [|discriminate]. simpl.
    intros [= <-]. simpl. f_equal. now apply IH.
Qed.

Lemma count_split (r m : list bool) :
  length r = length m ->
  count_occ bool_dec (map2 andb r m) true
  + count_occ bool_dec (map2 andb (map negb r) m) true
  = count_occ bool_dec m true.
Proof.
  revert m. induction r as [|a r IH]; intros [|b m] H; simpl in *;
    try discriminate; auto.
  injection H as H. specialize (IH m H).
  destruct a, b; simpl; lia.
Qed.

(** X19.  A bootstrap replicate of a profile in which some point is out of
    the fit has one point per point IN the fit, and keeps the mask of the
    profile; the mask no longer has one entry per point, and [calculate]
    and [residuals] raise on the replicate. *)
Theorem bootstrap_of_masked_profile_cannot_be_fitted
  (get_scale : list Q -> list Q -> list Q -> Q) (pick : nat -> nat)
  (profile profile' : CestProfile) (params : ParamSet) :
  let d := data profile in
  length (refs d) = length (points d) -> length (mask d) = length (points d) ->
  count_occ bool_dec (mask d) true < length (points d) ->
  bootstrap pick profile = Some profile' ->
  length (points (data profile')) = count_occ bool_dec (mask d) true
  /\ mask (data profile') = mask d
  /\ calculate get_scale profile' params None = None
  /\ residuals get_scale profile' params = None.
Proof.
  cbv zeta. intros Hr Hm Hcount Hb.
  unfold bootstrap, CestData_bootstrap in Hb.
  rewrite bootstrap_indexes_closed in Hb by assumption. simpl in Hb.
  destruct (take (points (data profile)) _) as [pts|] eqn:Ht; [|discriminate].
  simpl in Hb. injection Hb as <-. cbn [data with_data points mask].
  assert (Hlen : length pts = count_occ bool_dec (mask (data profile)) true).
  { rewrite (take_length _ _ _ Ht).
    rewrite <- (Permutation_length (IndexSort.Permuted_sort _)).
    unfold drawn. rewrite length_app, !choice_length.
    unfold pool_refs, pool_others.
    rewrite !select_length
      by (rewrite length_seq, map2_length; rewrite ?length_map; congruence).
    apply count_split. congruence. }
  assert (Hidx : bool_index pts (mask (data profile)) = None).
  { unfold bool_index.
    replace (length pts =? length (mask (data profile))) with false;
      [reflexivity|].
    symmetry. apply Nat.eqb_neq. lia. }
  repeat apply conj; auto.
  - unfold calculate. cbn [data with_data points mask]. now rewrite Hidx.
  - unfold residuals. cbn [data with_data points mask]. now rewrite Hidx.
Qed.

Lemma bootstrap_of_masked_profile_cannot_be_fitted_witness :
  exists profile',
    bootstrap (fun _ => 0) profile_with_masked_point = Some profile'
    /\ length (points (data profile')) = 2
    /\ length (mask (data profile')) = 3
    /\ residuals lstsq_scale profile' [] = None.
Proof.
  eexists. split; [reflexivity|].
  destruct (bootstrap_of_masked_profile_cannot_be_fitted lstsq_scale
              (fun _ => 0) profile_with_masked_point _ []
              eq_refl eq_refl ltac:(vm_compute; lia) eq_refl)
    as (Hl & Hm & _ & Hres).
  split; [exact Hl|]. split; [now rewrite Hm | exact Hres].
Defined.

(** A profile with every point in the fit. *)
Definition profile_in_fit : CestProfile :=
  mkCestProfile (lit "G23N-H")
                (from_file three_points [(0, 0)%Q] [] false)
                (cest_15n_cw flat_propagator) [] [].

Lemma monte_carlo_all_points_in_fit_witness :
  exists profile',
    monte_carlo lstsq_scale (fun _ => 1%Q) profile_in_fit [] = Some profile'
    /\ length (points (data profile')) = 3.
Proof.
  destruct (@monte_carlo_all_points_in_fit lstsq_scale (fun _ => 1%Q)
              profile_in_fit [] _ eq_refl
              (cest_15n_cw_shape flat_propagator) eq_refl)
    as (profile' & Hmc & He & _).
  exists profile'. split; [exact Hmc|].
  rewrite <- (length_map errors), He. reflexivity.
Defined.

Set Implicit Arguments.

End CestProfileFacts.

(** ** CEST data: the sum of two data sets *)

Module CestSumFacts.
Import PyStr ParamHelper Numpy NumpyFacts Cest CestOps.

Unset Implicit Arguments.

Lemma np_zip_singleton_r {A B C : Type} (f : A -> B -> C) (a : list A) (y : B) :
  np_zip f a [y] = Some (map (fun x => f x y) a).
Proof. destruct a as [|x [|x2 a]]; reflexivity. Qed.

Lemma np_zip_singleton_l {A B C : Type} (f : A -> B -> C) (x : A) (b : list B) :
  np_zip f [x] b = Some (map (f x) b).
Proof. destruct b as [|y [|y2 b]]; reflexivity. Qed.

Lemma np_zip_mismatch {A B C : Type} (f : A -> B -> C) (a : list A) (b : list B) :
  length a <> length b -> length a <> 1 -> length b <> 1 ->
  np_zip f a b = None.
Proof.
  intros Hab Ha Hb. unfold np_zip.
  apply Nat.eqb_neq in Hab. rewrite Hab.
  destruct a as [|x [|x2 a]], b as [|y [|y2 b]]; simpl in *; congruence.
Qed.

Section Fields.
Variable A : Type.
Variable put : Point -> A -> Point.
Variable field : Point -> Q.

Lemma map2_field_kept (pts : list Point) (v : list A) :
  (forall p x, field (put p x) = field p) ->
  length v = length pts ->
  map field (map2 put pts v) = map field pts.
Proof.
  intros H. revert v. induction pts as [|p pts IH]; intros [|x v] Hl;
    simpl in *; try discriminate; auto.
  rewrite H, IH by lia. reflexivity.
Qed.

End Fields.

Lemma map2_intensities_set (pts : list Point) (v : list Q) :
  length v = length pts ->
  map intensities (map2 (fun p x => mkPoint (offsets p) x (errors p)) pts v) = v.
Proof.
  revert v. induction pts as [|p pts IH]; intros [|x v] Hl;
    simpl in *; try discriminate; auto.
  rewrite IH by lia. reflexivity.
Qed.

Lemma map2_errors_set (pts : list Point) (v : list Q) :
  length v = length pts ->
  map errors (map2 (fun p x => mkPoint (offsets p) (intensities p) x) pts v) = v.
Proof.
  revert v. induction pts as [|p pts IH]; intros [|x v] Hl;
    simpl in *; try discriminate; auto.
  rewrite IH by lia. reflexivity.
Qed.

Lemma set_intensities_same (pts : list Point) (v : list Q) :
  length v = length pts ->
  set_intensities pts v
  = Some (map2 (fun p x => mkPoint (offsets p) x (errors p)) pts v).
Proof.
  intros H. unfold set_intensities. apply Nat.eqb_eq in H. now rewrite H.
Qed.

Lemma set_errors_same (pts : list Point) (v : list Q) :
  length v = length pts ->
  set_errors pts v
  = Some (map2 (fun p x => mkPoint (offsets p) (intensities p) x) pts v).
Proof.
  intros H. unfold set_errors. apply Nat.eqb_eq in H. now rewrite H.
Qed.

Section Sum.
Variable sqrt : Q -> Q.

(** The sum when both operands give one value per point of the left one. *)
Lemma add_closed (self other : CestData) (ints sq : list Q) :
  np_zip Qplus (map intensities (points self)) (map intensities (points other))
  = Some ints ->
  np_zip (fun e1 e2 => (e1 * e1 + e2 * e2)%Q)
         (map errors (points self)) (map errors (points other)) = Some sq ->
  length ints = length (points self) -> length sq = length (points self) ->
  exists d,
    CestData_add sqrt self other = Some d
    /\ map offsets (points d) = map offsets (points self)
    /\ map intensities (points d) = ints
    /\ map errors (points d) = map sqrt sq
    /\ refs d = refs self /\ mask d = mask self
    /\ filter_offsets d = filter_offsets self.
Proof.
  intros Hi Hs Hli Hls. unfold CestData_add. rewrite Hi. simpl.
  rewrite set_intensities_same by assumption. simpl.
  assert (Hmap : map errors
                   (map2 (fun p x => mkPoint (offsets p) x (errors p))
                         (points self) ints)
                 = map errors (points self)).
  { now apply (map2_field_kept Q (fun p x => mkPoint (offsets p) x (errors p)) errors). }
  rewrite Hs. simpl.
  rewrite set_errors_same
    by (rewrite length_map, map2_length; congruence).
  eexists. split; [reflexivity|]. cbn [points refs mask filter_offsets].
  assert (Hl2 : length (map sqrt sq)
                = length (map2 (fun p x => mkPoint (offsets p) x (errors p))
                               (points self) ints))
    by (rewrite length_map, map2_length; congruence).
  repeat apply conj; try reflexivity.
  - rewrite (map2_field_kept Q _ offsets) by auto.
    now apply (map2_field_kept Q (fun p x => mkPoint (offsets p) x (errors p)) offsets).
  - rewrite (map2_field_kept Q _ intensities) by auto.
    now apply map2_intensities_set.
  - now apply map2_errors_set.
Qed.

(** X20.  The sum of two data sets is defined when the right operand has
    as many points as the left one, or a single point, which is then added
    to every point of the left operand; with any other number of points the
    sum raises.  The sum has the offsets, the reference flags, the mask and
    the filter windows of the LEFT operand; the intensities are added and
    the uncertainties are added in quadrature. *)
Theorem sum_of_data_sets (self other : CestData) :
  let n := length (points self) in
  let m := length (points other) in
  (m <> n -> m <> 1 -> CestData_add sqrt self other = None)
  /\ (m = n \/ m = 1 ->
      exists d,
        CestData_add sqrt self other = Some d
        /\ map offsets (points d) = map offsets (points self)
        /\ refs d = refs self /\ mask d = mask self
        /\ filter_offsets d = filter_offsets self
        /\ length (points d) = n)
  /\ (m = n ->
      exists d,
        CestData_add sqrt self other = Some d
        /\ map intensities (points d)
           = map2 Qplus (map intensities (points self))
                        (map intensities (points other))
        /\ map errors (points d)
           = map2 (fun e1 e2 => sqrt (e1 * e1 + e2 * e2)%Q)
                  (map errors (points self)) (map errors (points other))).
Proof.
  cbv zeta.
  assert (Hsame : length (points other) = length (points self) ->
            exists d,
              CestData_add sqrt self other = Some d
              /\ map offsets (points d) = map offsets (points self)
              /\ map intensities (points d)
                 = map2 Qplus (map intensities (points self))
                              (map intensities (points other))
              /\ map errors (points d)
                 = map sqrt (map2 (fun e1 e2 => (e1 * e1 + e2 * e2)%Q)
                               (map errors (points self))
                               (map errors (points other)))
              /\ refs d = refs self /\ mask d = mask self
              /\ filter_offsets d = filter_offsets self).
  { intros E. apply add_closed.
    - apply np_zip_same. now rewrite !length_map.
    - apply np_zip_same. now rewrite !length_map.
    - rewrite map2_length; rewrite !length_map; auto.
    - rewrite map2_length; rewrite !length_map; auto. }
  assert (Hone : length (points other) = 1 ->
            exists d,
              CestData_add sqrt self other = Some d
              /\ map offsets (points d) = map offsets (points self)
              /\ refs d = refs self /\ mask d = mask self
              /\ filter_offsets d = filter_offsets self).
  { intros E. destruct (points other) as [|q [|q2 qs]] eqn:Eq; try discriminate.
    destruct (add_closed self other
                (map (fun x => (x + intensities q)%Q) (map intensities (points self)))
                (map (fun e1 => (e1 * e1 + errors q * errors q)%Q)
                     (map errors (points self))))
      as (d & Hd & Ho & _ & _ & Hr & Hm & Hf).
    - rewrite Eq. apply np_zip_singleton_r.
    - rewrite Eq. apply (np_zip_singleton_r (fun e1 e2 => (e1 * e1 + e2 * e2)%Q)).
    - now rewrite !length_map.
    - now rewrite !length_map.
    - exists d. auto. }
  repeat apply conj.
  - intros Hn H1. unfold CestData_add.
    destruct (Nat.eq_dec (length (points self)) 1) as [E1|E1].
    + destruct (points self) as [|p [|p2 ps]] eqn:Ep; try discriminate.
      cbn [map]. rewrite np_zip_singleton_l.
      simpl. unfold set_intensities. rewrite !length_map. cbn [Datatypes.length].
      replace (length (points other) =? 1) with false
        by (symmetry; now apply Nat.eqb_neq).
      destruct (points other) as [|q [|q2 qs]]; simpl in *; congruence.
    + rewrite np_zip_mismatch; rewrite ?length_map; auto.
  - intros [E | E].
    + destruct (Hsame E) as (d & Hd & Ho & _ & _ & Hr & Hm & Hf).
      exists d. repeat apply conj; auto.
      rewrite <- (length_map offsets), Ho. apply length_map.
    + destruct (Hone E) as (d & Hd & Ho & Hr & Hm & Hf).
      exists d. repeat apply conj; auto.
      rewrite <- (length_map offsets), Ho. apply length_map.
  - intros E. destruct (Hsame E) as (d & Hd & _ & Hi & He & _).
    exists d. repeat apply conj; auto. rewrite He.
    generalize (map errors (points self)) as a.
    generalize (map errors (points other)) as b.
    intros b a. revert b. induction a as [|x a IH]; intros [|y b]; simpl; auto.
    now rewrite IH.
Qed.

End Sum.

Set Implicit Arguments.

End CestSumFacts.

(** ** CPMG: complementary phases, and the delays of the train *)

Module CpmgTrainFacts.
Import Numpy NumpyFacts CpmgHnDqZq CpmgDelays CpmgFacts.

Unset Implicit Arguments.

(** Two phases of which one is 0 and the other 1. *)
Definition opposite (a b : nat) : Prop := a + b = 1.

Lemma Forall2_nth_opposite (l1 l2 : list nat) (k : nat) :
  Forall2 opposite l1 l2 -> k < length l1 ->
  opposite (nth k l1 0) (nth k l2 0).
Proof.
  intros H. revert k. induction H as [|a b l1 l2 Hab _ IH]; intros k Hk;
    simpl in *; [lia|].
  destruct k; auto. apply IH. lia.
Qed.

Lemma take_wrap_flip_opposite (cp1 cp2 : list nat) (n : nat) :
  Forall2 opposite cp1 cp2 -> cp1 <> [] ->
  Forall2 opposite (take_wrap_flip cp1 n) (take_wrap_flip cp2 n).
Proof.
  intros H Hne. unfold take_wrap_flip.
  rewrite <- (Forall2_length H).
  induction (rev (seq 0 n)) as [|i l IH]; simpl; constructor; auto.
  apply Forall2_nth_opposite; auto.
  apply Nat.mod_upper_bound. now destruct cp1.
Qed.

Lemma regime_opposite (nu_cpmg : Q) :
  Forall2 opposite (fst (regime_of nu_cpmg)) (snd (regime_of nu_cpmg))
  /\ fst (regime_of nu_cpmg) <> [].
Proof.
  unfold regime_of.
  destruct (Qlt_bool nu_cpmg 51); [|destruct (Qlt_bool nu_cpmg 255)];
    (split; [repeat constructor | discriminate]).
Qed.

(** X21.  For every positive cycle count and whatever the regime, the two
    phase lists are complementary: at every position one holds 0 and the
    other 1, so that every phase is a valid index into a pair. *)
Theorem phase_lists_are_complementary (time_t2 : Q) (ncyc : Z) :
  (0 < ncyc)%Z ->
  Forall2 opposite (fst (get_phases time_t2 ncyc)) (snd (get_phases time_t2 ncyc))
  /\ Forall (fun phase => phase < 2) (fst (get_phases time_t2 ncyc))
  /\ Forall (fun phase => phase < 2) (snd (get_phases time_t2 ncyc)).
Proof.
  intros Hpos. rewrite get_phases_positive by assumption. cbn [fst snd].
  destruct (regime_opposite (inject_Z ncyc / time_t2)) as [Hop Hne].
  pose proof (take_wrap_flip_opposite _ _ (Z.to_nat (2 * ncyc)) Hop Hne) as H.
  split; [exact H|].
  split; induction H as [|a b l1 l2 Hab _ IH]; constructor; auto;
    unfold opposite in Hab; lia.
Qed.

Lemma phase_lists_are_complementary_witness :
  Forall2 opposite (fst (get_phases (1 # 100) 3)) (snd (get_phases (1 # 100) 3)).
Proof.
  exact (proj1 (phase_lists_are_complementary (1 # 100) 3 eq_refl)).
Defined.

(** *** The delays *)

Section Delays.
Variable V : Type.

Lemma zdict_get_set (d : list (Z * V)) (k n : Z) (v : V) :
  zdict_get (zdict_set d k v) n
  = if (k =? n)%Z then Some v else zdict_get d n.
Proof.
  induction d as [|[k' v'] d IH]; simpl.
  - reflexivity.
  - destruct (k' =? k)%Z eqn:E; simpl.
    + apply Z.eqb_eq in E. subst k'. now destruct (k =? n)%Z.
    + rewrite IH. destruct (k' =? n)%Z eqn:E'; auto.
      apply Z.eqb_eq in E'. subst k'. rewrite Z.eqb_sym in E. now rewrite E.
Qed.

Lemma zdict_set_keys (d : list (Z * V)) (k : Z) (v : V) :
  NoDup (map fst d) -> NoDup (map fst (zdict_set d k v))
  /\ forall x, In x (map fst (zdict_set d k v)) <-> In x (map fst d) \/ x = k.
Proof.
  induction d as [|[k' v'] d IH]; simpl; intros Hnd.
  - split; [constructor; [intros [] | constructor] | intros x; intuition].
  - inversion Hnd as [|? ? Hnotin Hnd']; subst.
    destruct (k' =? k)%Z eqn:E; simpl.
    + apply Z.eqb_eq in E. subst k'. split; [assumption|]. intuition.
    + destruct (IH Hnd') as [IH1 IH2]. apply Z.eqb_neq in E. split.
      * constructor; auto. rewrite IH2. intros [?|?]; auto.
      * intros x. rewrite IH2. tauto.
Qed.

Lemma zdict_fold_keys (items : list (Z * V)) (d : list (Z * V)) :
  NoDup (map fst d) ->
  NoDup (map fst (fold_left (fun d kv => zdict_set d (fst kv) (snd kv)) items d)).
Proof.
  revert d. induction items as [|[k v] items IH]; intros d Hnd; simpl; auto.
  apply IH. now apply zdict_set_keys.
Qed.

Lemma zdict_fold_get (f : Z -> V) (ks : list Z) (d : list (Z * V)) (n : Z) :
  zdict_get (fold_left (fun d kv => zdict_set d (fst kv) (snd kv))
                       (combine ks (map f ks)) d) n
  = if existsb (Z.eqb n) ks then Some (f n) else zdict_get d n.
Proof.
  revert d. induction ks as [|k ks IH]; intros d; simpl; auto.
  rewrite IH, zdict_get_set. rewrite (Z.eqb_sym n k).
  destruct (k =? n)%Z eqn:E; simpl.
  - apply Z.eqb_eq in E. subst k. now destruct (existsb (Z.eqb n) ks).
  - reflexivity.
Qed.

End Delays.

Local Open Scope Q_scope.

(** X22.  The table of delays has one entry for every positive cycle
    count of [ncycs], and none for zero, for a negative count or for a
    count that is not in [ncycs].  The delay [tau] of [ncyc] cycles is such
    that [4 * ncyc] delays, each with [7/3] of the 90-degree pulse width,
    fill the relaxation time [time_t2]. *)
Theorem delays_fill_the_relaxation_time (time_t2 pw90_i : Q) (ncycs : list Z)
  (ncyc : Z) :
  let tau_cps := get_tau_cps time_t2 pw90_i ncycs in
  NoDup (map fst tau_cps)
  /\ (In ncyc ncycs -> (0 < ncyc)%Z ->
      exists tau,
        zdict_get tau_cps ncyc = Some tau
        /\ tau = time_t2 / (4 * inject_Z ncyc) - (7 / 3) * pw90_i
        /\ 4 * inject_Z ncyc * (tau + (7 / 3) * pw90_i) == time_t2)
  /\ ((ncyc <= 0)%Z \/ ~ In ncyc ncycs -> zdict_get tau_cps ncyc = None).
Proof.
  cbv zeta. unfold get_tau_cps, zdict_of.
  set (f := fun n : Z => time_t2 / (4 * inject_Z n) - (7 / 3) * pw90_i).
  rewrite (zdict_fold_get Q f).
  repeat apply conj.
  - apply zdict_fold_keys. constructor.
  - intros Hin Hpos.
    replace (existsb (Z.eqb ncyc) (filter (fun n => (0 <? n)%Z) ncycs)) with true.
    + exists (f ncyc). repeat apply conj; auto. unfold f.
      assert (Hne : ~ inject_Z ncyc == 0).
      { intros E. unfold Qeq in E. simpl in E. lia. }
      field. exact Hne.
    + symmetry. apply existsb_exists. exists ncyc. split; [|apply Z.eqb_refl].
      apply filter_In. split; auto. now apply Z.ltb_lt.
  - intros H.
    replace (existsb (Z.eqb ncyc) (filter (fun n => (0 <? n)%Z) ncycs)) with false;
      [reflexivity|].
    symmetry. apply not_true_is_false. intros E.
    apply existsb_exists in E as (x & Hx & Ex). apply Z.eqb_eq in Ex. subst x.
    apply filter_In in Hx as [Hin Hpos]. apply Z.ltb_lt in Hpos.
    destruct H as [H | H]; [lia | contradiction].
Qed.

Set Implicit Arguments.

End CpmgTrainFacts.

(** ** The progress reporter of the minimizer *)

Module ReporterFacts.
Import PyStr ParamHelper Numpy NumpyFacts MinimizerPy.

Unset Implicit Arguments.

Local Open Scope Q_scope.













Set Implicit Arguments.

End ReporterFacts.

(** ** The name of an experiment *)

Module ReadingFacts.
Import PyStr PyStrFacts Numpy ReadingPy StrFacts.

Unset Implicit Arguments.

Definition is_blank (c : ascii) : bool := if ascii_dec c " " then true else false.

Lemma replace_no_blank (s : str) :
  none_of is_blank (replace_char " " "_" s) = true.
Proof.
  unfold none_of, replace_char, is_blank. induction s as [|c s IH]; simpl; auto.
  rewrite IH. destruct (ascii_dec c " ") as [E|E]; simpl.
  - reflexivity.
  - destruct (ascii_dec c " "); [contradiction | reflexivity].
Qed.

Lemma replace_idem (s : str) :
  replace_char " " "_" (replace_char " " "_" s) = replace_char " " "_" s.
Proof.
  unfold replace_char. rewrite map_map. apply map_ext. intros c.
  destruct (ascii_dec c " ") as [E|E]; simpl; auto.
  destruct (ascii_dec c " "); [contradiction | reflexivity].
Qed.

Lemma replace_hd (s : str) :
  hd_not is_space s = true -> hd_not is_space (replace_char " " "_" s) = true.
Proof.
  destruct s as [|c s]; simpl; auto.
  destruct (ascii_dec c " "); auto.
Qed.

Lemma replace_rev (s : str) :
  rev (replace_char " " "_" s) = replace_char " " "_" (rev s).
Proof. unfold replace_char. now rewrite map_rev. Qed.

(** The given name, stripped and with its blanks replaced, is not changed
    by [strip]. *)
Lemma strip_replace (s : str) :
  strip (replace_char " " "_" (strip s)) = replace_char " " "_" (strip s).
Proof.
  apply strip_id.
  - apply replace_hd. apply strip_hd.
  - rewrite replace_rev. apply replace_hd. apply strip_last.
Qed.

Section Name.
Variable format_name : str -> str -> str -> str -> str -> option str.

(** X25.  When the details of an experiment give a name, this name is the
    name of the experiment, whatever the other details: stripped, and with
    every blank replaced by an underscore.  The result holds no blank, and
    given as a name it comes back unchanged. *)
Theorem given_name_is_normalized (experiment_details : list (str * str))
  (given : str) :
  dict_get experiment_details (lit "name") = Some given ->
  let name := replace_char " " "_" (strip given) in
  name_experiment format_name (Some experiment_details) = Some name
  /\ none_of is_blank name = true
  /\ strip name = name
  /\ name_experiment format_name (Some [(lit "name", name)]) = Some name.
Proof.
  intros Hget. cbv zeta. unfold name_experiment. rewrite Hget.
  repeat apply conj.
  - reflexivity.
  - apply replace_no_blank.
  - apply strip_replace.
  - cbn [dict_get]. rewrite str_eqb_refl. now rewrite strip_replace, replace_idem.
Qed.

End Name.

Lemma given_name_is_normalized_witness :
  name_experiment (fun _ _ _ _ _ => None)
                  (Some [(lit "type", lit "cest.n15"); (lit "name", lit "  my cest 800 ")])
  = Some (lit "my_cest_800").
Proof.
  exact (proj1 (given_name_is_normalized (fun _ _ _ _ _ => None)
                  [(lit "type", lit "cest.n15"); (lit "name", lit "  my cest 800 ")]
                  (lit "  my cest 800 ") eq_refl)).
Defined.

Set Implicit Arguments.

End ReadingFacts.

(** ** Bootstrap data sets of the command line *)

Module MainFacts.
Import Numpy MainPy.

Unset Implicit Arguments.

Lemma Permutation_concat {A : Type} (l l' : list (list A)) :
  Permutation l l' -> Permutation (concat l) (concat l').
Proof.
  induction 1 as [| x l l' _ IH | x y l | l l' l'' _ IH1 _ IH2]; simpl.
  - constructor.
  - now apply Permutation_app_head.
  - rewrite !List.app_assoc. apply Permutation_app_tail. apply Permutation_app_comm.
  - now transitivity (concat l').
Qed.

Section Bootstrap.

Variables DataPoint Key : Type.
Variable key_eqb : Key -> Key -> bool.
Variable profile_id_of : DataPoint -> option Key.
Variable values_order : list (Key * list DataPoint) -> list (list DataPoint).

(** Keys that compare equal are the same key. *)
Hypothesis key_eqb_eq : forall a b, key_eqb a b = true <-> a = b.

(** [profiles.values()] yields every list of the dictionary once. *)
Hypothesis values_order_perm :
  forall profiles, Permutation (values_order profiles) (map snd profiles).

(** The points of a data set that belong to the profile [k]. *)
Definition of_profile (k : Key) (x : DataPoint) : bool :=
  match profile_id_of x with
  | Some k' => key_eqb k' k
  | None => false
  end.

Definition count_profile (k : Key) (l : list DataPoint) : nat :=
  length (filter (of_profile k) l).

(** A list of the dictionary: not empty, and of one profile. *)
Definition one_profile (l : list DataPoint) : Prop :=
  l <> [] /\ exists k, Forall (fun x => profile_id_of x = Some k) l.

Lemma setdefault_ok (profiles : list (Key * list DataPoint)) (k : Key)
  (x : DataPoint) :
  Forall (fun kl => snd kl <> []
                    /\ Forall (fun y => profile_id_of y = Some (fst kl)) (snd kl))
         profiles ->
  profile_id_of x = Some k ->
  Forall (fun kl => snd kl <> []
                    /\ Forall (fun y => profile_id_of y = Some (fst kl)) (snd kl))
         (setdefault_append key_eqb profiles k x)
  /\ Permutation (concat (map snd (setdefault_append key_eqb profiles k x)))
                 (x :: concat (map snd profiles)).
Proof.
  intros Hok Hx. induction Hok as [|[k' l] rest [Hne Hl] Hrest IH]; simpl.
  - split; [|reflexivity]. repeat constructor; [discriminate | exact Hx].
  - simpl in Hne, Hl. destruct (key_eqb k' k) eqn:E; simpl.
    + apply key_eqb_eq in E. subst k'. split.
      * constructor; auto. simpl. split.
        -- intros H. now apply app_eq_nil in H as [_ H].
        -- apply Forall_app. split; auto.
      * rewrite <- List.app_assoc. simpl. symmetry. apply Permutation_middle.
    + destruct IH as [IH1 IH2]. split.
      * constructor; auto.
      * transitivity (l ++ x :: concat (map snd rest)).
        -- now apply Permutation_app_head.
        -- symmetry. apply Permutation_middle.
Qed.

Lemma group_loop_ok (data : list DataPoint)
  (profiles profiles' : list (Key * list DataPoint)) :
  Forall (fun kl => snd kl <> []
                    /\ Forall (fun y => profile_id_of y = Some (fst kl)) (snd kl))
         profiles ->
  group_loop key_eqb profile_id_of data profiles = Some profiles' ->
  Forall (fun kl => snd kl <> []
                    /\ Forall (fun y => profile_id_of y = Some (fst kl)) (snd kl))
         profiles'
  /\ Permutation (concat (map snd profiles')) (concat (map snd profiles) ++ data).
Proof.
  revert profiles. induction data as [|x data IH]; intros profiles Hok; simpl.
  - intros [= <-]. split; auto. now rewrite List.app_nil_r.
  - destruct (profile_id_of x) as [k|] eqn:Hx; [|discriminate]. simpl.
    intros Hg. destruct (setdefault_ok profiles k x Hok Hx) as [Hok' Hp].
    destruct (IH _ Hok' Hg) as [Hok'' Hp'']. split; auto.
    rewrite Hp''. rewrite (Permutation_app_tail data Hp). simpl.
    apply Permutation_middle.
Qed.

Lemma group_loop_returns (data : list DataPoint)
  (profiles : list (Key * list DataPoint)) :
  Forall (fun x => profile_id_of x <> None) data <->
  exists profiles', group_loop key_eqb profile_id_of data profiles = Some profiles'.
Proof.
  revert profiles. induction data as [|x data IH]; intros profiles; simpl.
  - split; [eauto | constructor].
  - destruct (profile_id_of x) as [k|] eqn:Hx; simpl.
    + rewrite <- IH. split.
      * intros H. now inversion H.
      * intros H. constructor; [congruence | exact H].
    + split.
      * intros H. inversion H. congruence.
      * intros [? ?]. discriminate.
Qed.

Lemma draws_ok (pick : nat -> nat) (start : nat) (profile : list DataPoint) :
  profile <> [] ->
  length (draws pick start profile) = length profile
  /\ Forall (fun x => In x profile) (draws pick start profile).
Proof.
  intros Hne. unfold draws.
  assert (Hgen : forall js,
             length (flat_map
                       (fun j => match nth_error profile
                                         (pick (start + j) mod length profile) with
                                 | Some x => [x]
                                 | None => []
                                 end) js) = length js
             /\ Forall (fun x => In x profile)
                  (flat_map
                     (fun j => match nth_error profile
                                       (pick (start + j) mod length profile) with
                               | Some x => [x]
                               | None => []
                               end) js));
    [|destruct (Hgen (seq 0 (length profile))) as [H1 H2];
      rewrite length_seq in H1; now split].
  induction js as [|j js [IH1 IH2]]; simpl.
  - split; constructor.
  - assert (Hlt : pick (start + j) mod length profile < length profile).
    { apply Nat.mod_upper_bound. now destruct profile. }
    destruct (nth_error profile (pick (start + j) mod length profile)) as [x|] eqn:E.
    + simpl. split; [now rewrite IH1|]. constructor; auto.
      eapply nth_error_In; eauto.
    + apply nth_error_None in E. lia.
Qed.

(** The draws of the second loop, list after list. *)
Fixpoint all_draws (pick : nat -> nat) (start : nat)
  (groups : list (list DataPoint)) : list DataPoint :=
  match groups with
  | [] => []
  | profile :: rest =>
      draws pick start profile ++ all_draws pick (start + length profile) rest
  end.

Lemma draw_loop_eq (pick : nat -> nat) (start : nat)
  (groups : list (list DataPoint)) (data_bs : list DataPoint) :
  draw_loop pick start groups data_bs = data_bs ++ all_draws pick start groups.
Proof.
  revert start data_bs. induction groups as [|g groups IH]; intros start data_bs;
    simpl.
  - now rewrite List.app_nil_r.
  - now rewrite IH, <- List.app_assoc.
Qed.

Lemma count_profile_app (k : Key) (a b : list DataPoint) :
  count_profile k (a ++ b) = count_profile k a + count_profile k b.
Proof. unfold count_profile. now rewrite filter_app, length_app. Qed.

Lemma count_profile_uniform (k kg : Key) (l : list DataPoint) :
  Forall (fun x => profile_id_of x = Some kg) l ->
  count_profile k l = if key_eqb kg k then length l else 0.
Proof.
  unfold count_profile, of_profile.
  induction 1 as [|x l Hx _ IH]; simpl; [now destruct (key_eqb kg k)|].
  rewrite Hx. destruct (key_eqb kg k); simpl; auto.
Qed.

Lemma all_draws_ok (pick : nat -> nat) (start : nat)
  (groups : list (list DataPoint)) :
  Forall one_profile groups ->
  length (all_draws pick start groups) = length (concat groups)
  /\ Forall (fun x => In x (concat groups)) (all_draws pick start groups)
  /\ forall k, count_profile k (all_draws pick start groups)
               = count_profile k (concat groups).
Proof.
  intros H. revert start.
  induction H as [|g groups [Hne (kg & Hg)] _ IH]; intros start; simpl.
  - repeat split. constructor.
  - destruct (draws_ok pick start g Hne) as [Hl Hin].
    destruct (IH (start + length g)) as (IH1 & IH2 & IH3).
    repeat apply conj.
    + rewrite !length_app. congruence.
    + apply Forall_app. split.
      * eapply Forall_impl; [|exact Hin]. intros x Hx. apply in_or_app. now left.
      * eapply Forall_impl; [|exact IH2]. intros x Hx. apply in_or_app. now right.
    + intros k. rewrite !count_profile_app, IH3. f_equal.
      rewrite (count_profile_uniform k kg g Hg).
      rewrite (count_profile_uniform k kg (draws pick start g)).
      * now rewrite Hl.
      * rewrite Forall_forall in *. intros x Hx. apply Hg. now apply Hin.
Qed.

Lemma count_profile_perm (k : Key) (l l' : list DataPoint) :
  Permutation l l' -> count_profile k l = count_profile k l'.
Proof.
  unfold count_profile.
  induction 1 as [| x l l' _ IH | x y l | l l' l'' _ IH1 _ IH2]; simpl; auto.
  - destruct (of_profile k x); simpl; auto.
  - destruct (of_profile k x), (of_profile k y); simpl; auto.
  - congruence.
Qed.

(** X26.  [make_bootstrap_dataset] returns when every data point has a
    profile id, and raises otherwise.  The data set it returns is drawn
    from the data profile by profile: it has as many points of every
    profile (reference points apart from the others) as the data, so as
    many points in all, and every point of it is a point of the data. *)
Theorem bootstrap_dataset_is_stratified (pick : nat -> nat)
  (data : list DataPoint) :
  (Forall (fun x => profile_id_of x <> None) data <->
   exists data_bs,
     make_bootstrap_dataset key_eqb profile_id_of values_order pick data
     = Some data_bs)
  /\ forall data_bs,
       make_bootstrap_dataset key_eqb profile_id_of values_order pick data
       = Some data_bs ->
       length data_bs = length data
       /\ (forall k, count_profile k data_bs = count_profile k data)
       /\ forall x, In x data_bs -> In x data.
Proof.
  unfold make_bootstrap_dataset. split.
  - rewrite (group_loop_returns data []). split.
    + intros [profiles ->]. simpl. eauto.
    + intros [data_bs H].
      destruct (group_loop key_eqb profile_id_of data []) as [profiles|];
        [eauto | discriminate].
  - intros data_bs H.
    destruct (group_loop key_eqb profile_id_of data []) as [profiles|] eqn:Hg;
      [|discriminate].
    simpl in H. injection H as <-. rewrite draw_loop_eq. simpl.
    destruct (group_loop_ok data [] profiles (Forall_nil _) Hg) as [Hok Hperm].
    simpl in Hperm.
    assert (Hgroups : Forall one_profile (values_order profiles)).
    { apply (Permutation_Forall (Permutation_sym (values_order_perm profiles))).
      apply Forall_map. eapply Forall_impl; [|exact Hok].
      intros [k l] [Hne Hl]. split; eauto. }
    assert (Hall : Permutation (concat (values_order profiles)) data).
    { rewrite <- Hperm. apply Permutation_concat. apply values_order_perm. }
    destruct (all_draws_ok pick 0 (values_order profiles) Hgroups)
      as (H1 & H2 & H3).
    repeat apply conj.
    + rewrite H1. now apply Permutation_length.
    + intros k. rewrite H3. now apply count_profile_perm.
    + intros x Hx. rewrite Forall_forall in H2.
      apply (Permutation_in _ Hall). now apply H2.
Qed.

End Bootstrap.

Lemma bootstrap_dataset_is_stratified_witness :
  let data := [(1, 10); (2, 20); (1, 11)] in
  let data_bs := [(1, 10); (1, 10); (2, 20)] in
  make_bootstrap_dataset Nat.eqb (fun x : nat * nat => Some (fst x))
    (map (@snd nat (list (nat * nat)))) (fun _ => 0) data = Some data_bs
  /\ count_profile (nat * nat) nat Nat.eqb (fun x => Some (fst x)) 1 data_bs
     = count_profile (nat * nat) nat Nat.eqb (fun x => Some (fst x)) 1 data.
Proof.
  intros data data_bs.
  assert (H : make_bootstrap_dataset Nat.eqb (fun x : nat * nat => Some (fst x))
                (map (@snd nat (list (nat * nat)))) (fun _ => 0) data = Some data_bs)
    by reflexivity.
  split; [exact H|].
  destruct (bootstrap_dataset_is_stratified (nat * nat) nat Nat.eqb
              (fun x => Some (fst x)) (map (@snd nat (list (nat * nat))))
              Nat.eqb_eq (fun profiles => Permutation_refl _)
              (fun _ => 0) data) as [_ Hs].
  destruct (Hs data_bs H) as (_ & Hc & _). apply Hc.
Defined.

Set Implicit Arguments.

End MainFacts.

(** ** The settings of the parameters *)

Module SettingsFacts.
Import PyStr PyStrFacts Numpy ParamHelper SettingsPy MergeFacts.

Unset Implicit Arguments.

Lemma dict_set_present {V : Type} (d : list (str * V)) (k : str) (v : V) :
  dict_get d k = Some v -> dict_set d k v = d.
Proof.
  induction d as [|[k' v'] d IH]; simpl; [discriminate|].
  destruct (str_eqb k' k) eqn:E.
  - now intros [= ->].
  - intros H. now rewrite IH.
Qed.

Lemma freed_idem (setting : Setting) : freed (freed setting) = freed setting.
Proof.
  unfold freed at 1.
  assert (Hv : dict_get (freed setting) (lit "vary") = Some (VBool true)).
  { unfold freed. rewrite dict_get_set_other by discriminate.
    apply dict_get_set_same. }
  assert (He : dict_get (freed setting) (lit "expr") = Some (VStr [])).
  { unfold freed. apply dict_get_set_same. }
  rewrite (dict_set_present _ _ _ Hv). now apply dict_set_present.
Qed.

Section SetToFit.
Variable format_sname : str -> str -> str -> option str.

(** The names that the loop of [_set_to_fit] looks up, in order. *)
Fixpoint formatted (pairs : list (str * str)) (observed_state : str)
  : option (list str) :=
  match pairs with
  | [] => Some []
  | (sname, state) :: rest =>
      sname_ <- format_sname sname state observed_state ;;
      names <- formatted rest observed_state ;;
      Some (sname_ :: names)
  end.

(** Some name of [names] refers to the dictionary at [address]. *)
Definition reached (settings : list (str * nat)) (names : list str)
  (address : nat) : bool :=
  existsb (fun name => match dict_get settings name with
                       | Some a => a =? address
                       | None => false
                       end) names.

Lemma set_to_fit_loop_closed (pairs : list (str * str)) (observed_state : str)
  (settings : list (str * nat)) (heap heap' : nat -> Setting) :
  set_to_fit_loop format_sname pairs observed_state settings heap = Some heap' ->
  exists names,
    formatted pairs observed_state = Some names
    /\ forall address,
         heap' address
         = if reached settings names address then freed (heap address)
           else heap address.
Proof.
  revert heap. induction pairs as [|[sname state] pairs IH]; intros heap; simpl.
  - intros [= <-]. exists []. split; [reflexivity|]. intros a. reflexivity.
  - destruct (format_sname sname state observed_state) as [sname_|];
      [|discriminate]. simpl. intros H.
    destruct (IH _ H) as (names & Hn & Hh). rewrite Hn. simpl.
    exists (sname_ :: names). split; [reflexivity|].
    intros a. rewrite Hh. unfold reached at 2. simpl. fold (reached settings names a).
    destruct (dict_get settings sname_) as [address|]; simpl; [|reflexivity].
    rewrite (Nat.eqb_sym address a).
    destruct (a =? address) eqn:E; simpl; [|reflexivity].
    apply Nat.eqb_eq in E. subst a.
    destruct (reached settings names address); [apply freed_idem | reflexivity].
Qed.

(** X27.  When [_set_to_fit] returns, every setting that a formatted name
    of the fit list refers to has [vary] set to [True] and [expr] set to the
    empty string, its other entries being kept; every other setting, and the
    table of names itself, is exactly as before.  A setting reached under
    several names is written as if reached once. *)
Theorem set_to_fit_frees_the_named_settings (settings : list (str * nat))
  (heap heap' : nat -> Setting) (states observed_state : str)
  (fitted : list str) :
  set_to_fit format_sname settings heap states observed_state fitted = Some heap' ->
  exists names,
    formatted (product fitted states) observed_state = Some names
    /\ (forall address,
          reached settings names address = true ->
          heap' address = freed (heap address)
          /\ dict_get (heap' address) (lit "vary") = Some (VBool true)
          /\ dict_get (heap' address) (lit "expr") = Some (VStr [])
          /\ forall key, key <> lit "vary" -> key <> lit "expr" ->
               dict_get (heap' address) key = dict_get (heap address) key)
    /\ (forall address,
          reached settings names address = false ->
          heap' address = heap address).
Proof.
  intros H. apply set_to_fit_loop_closed in H as (names & Hn & Hh).
  exists names. split; [exact Hn|]. split.
  - intros a Ha. rewrite Hh, Ha. repeat apply conj.
    + reflexivity.
    + unfold freed. rewrite dict_get_set_other by discriminate.
      apply dict_get_set_same.
    + apply dict_get_set_same.
    + intros key Hv He. unfold freed.
      rewrite !dict_get_set_other by congruence. reflexivity.
  - intros a Ha. now rewrite Hh, Ha.
Qed.

End SetToFit.

Lemma set_to_fit_frees_the_named_settings_witness :
  let format := fun sname state observed : str => Some (sname ++ lit "_" ++ state) in
  let settings := [(lit "r2_a", 0); (lit "r2_b", 1); (lit "dw_a", 2)] in
  let heap := fun _ : nat => [(lit "vary", VBool false); (lit "expr", VStr (lit "r2_a"))] in
  exists heap',
    set_to_fit format settings heap (lit "ab") (lit "a") [lit "r2"] = Some heap'
    /\ heap' 1 = [(lit "vary", VBool true); (lit "expr", VStr [])]
    /\ heap' 2 = heap 2.
Proof.
  intros format settings heap.
  destruct (set_to_fit format settings heap (lit "ab") (lit "a") [lit "r2"])
    as [heap'|] eqn:E; [|discriminate].
  exists heap'. split; [reflexivity|].
  destruct (set_to_fit_frees_the_named_settings format settings heap heap'
              (lit "ab") (lit "a") [lit "r2"] E) as (names & Hn & Hin & Hout).
  injection Hn as <-. split.
  - now destruct (Hin 1 eq_refl) as (-> & _).
  - now apply Hout.
Defined.

(** *** The settings of a profile *)

Lemma dict_get_filter_keys {V : Type} (P : str -> bool) (d : list (str * V))
  (k : str) :
  dict_get (filter (fun kv => P (fst kv)) d) k
  = if P k then dict_get d k else None.
Proof.
  induction d as [|[k' v'] d IH]; simpl.
  - now destruct (P k).
  - destruct (P k') eqn:Ek'; simpl.
    + destruct (str_eqb k' k) eqn:E; [|exact IH].
      apply str_eqb_eq in E. subst k'. now rewrite Ek'.
    + rewrite IH. destruct (str_eqb k' k) eqn:E; [|reflexivity].
      apply str_eqb_eq in E. subst k'. now rewrite Ek'.
Qed.

Lemma dict_get_of_In {V : Type} (d : list (str * V)) (k : str) (v : V) :
  dict_wf d -> In (k, v) d -> dict_get d k = Some v.
Proof.
  unfold dict_wf. induction d as [|[k' v'] d IH]; simpl; [tauto|].
  intros Hnd [E | Hin].
  - injection E as -> ->. now rewrite str_eqb_refl.
  - inversion Hnd as [|? ? Hnotin Hnd']; subst.
    destruct (str_eqb k' k) eqn:E.
    + apply str_eqb_eq in E. subst k'. exfalso. apply Hnotin.
      change k with (fst (k, v)). now apply in_map.
    + now apply IH.
Qed.

Section GetSettings.
Variable get_ast_names : str -> option (list str).

(** The names that the expression of a setting mentions; none when the
    expression cannot be read. *)
Definition names_of (setting : Setting) : list str :=
  match expr_of setting with
  | Some expr => match get_ast_names expr with
                 | Some names => names
                 | None => []
                 end
  | None => []
  end.

(** [k] is a name of [items], or it is a name of [settings_full] that the
    expression of a setting of [items] mentions. *)
Fixpoint covered (settings_full items : list (str * Setting)) (k : str) : bool :=
  match items with
  | [] => false
  | (name, setting) :: rest =>
      str_eqb name k
      || (mem k (names_of setting) && has_key settings_full k)
      || covered settings_full rest k
  end.

Lemma update_named_get (settings_full : list (str * Setting))
  (names_expr : list str) (acc : list (str * Setting)) (k : str) :
  dict_get (update_named settings_full names_expr acc) k
  = if mem k names_expr && has_key settings_full k
    then dict_get settings_full k else dict_get acc k.
Proof.
  unfold update_named. revert acc.
  induction names_expr as [|n names IH]; intros acc; simpl; [reflexivity|].
  rewrite IH. unfold mem at 2. simpl. fold (mem k names).
  destruct (mem k names && has_key settings_full k) eqn:E.
  - destruct (str_eqb k n); simpl; [|now rewrite E].
    apply andb_true_iff in E as [_ E]. now rewrite E.
  - assert (Hrest : (if (str_eqb k n || mem k names) && has_key settings_full k
                     then dict_get settings_full k
                     else dict_get acc k)
                    = if str_eqb k n && has_key settings_full k
                      then dict_get settings_full k else dict_get acc k).
    { destruct (str_eqb k n); simpl; auto.
      destruct (mem k names); simpl in *; auto. now rewrite E. }
    rewrite Hrest. clear Hrest E.
    destruct (str_eqb k n) eqn:Ek; simpl.
    + apply str_eqb_eq in Ek. subst n. unfold has_key.
      destruct (dict_get settings_full k) as [setting|]; [|reflexivity].
      apply dict_get_set_same.
    + apply str_eqb_neq in Ek.
      destruct (dict_get settings_full n); [|reflexivity].
      apply dict_get_set_other. congruence.
Qed.

Lemma get_settings_loop_get (settings_full items acc res : list (str * Setting))
  (k : str) :
  (forall name setting, In (name, setting) items ->
                        dict_get settings_full name = Some setting) ->
  get_settings_loop get_ast_names settings_full items acc = Some res ->
  dict_get res k
  = if covered settings_full items k then dict_get settings_full k
    else dict_get acc k.
Proof.
  revert acc. induction items as [|[name setting] items IH]; intros acc Hin; simpl.
  - now intros [= <-].
  - unfold names_of.
    destruct (expr_of setting) as [expr|]; [|discriminate]. simpl.
    destruct (get_ast_names expr) as [names|]; [|discriminate]. simpl.
    intros H. rewrite (IH _ (fun n s Hn => Hin n s (or_intror Hn)) H).
    destruct (covered settings_full items k);
      [now rewrite !orb_true_r|]. rewrite orb_false_r.
    rewrite update_named_get.
    destruct (mem k names && has_key settings_full k);
      [now rewrite orb_true_r|]. rewrite orb_false_r.
    destruct (str_eqb name k) eqn:E.
    + apply str_eqb_eq in E. subst k. rewrite dict_get_set_same.
      symmetry. apply Hin. now left.
    + apply str_eqb_neq in E. now apply dict_get_set_other.
Qed.

Lemma covered_name (settings_full items : list (str * Setting)) (k : str)
  (setting : Setting) :
  dict_get items k = Some setting -> covered settings_full items k = true.
Proof.
  induction items as [|[name s] items IH]; simpl; [discriminate|].
  destruct (str_eqb name k); simpl; auto.
  intros H. rewrite IH by assumption. apply orb_true_r.
Qed.

Lemma covered_named (settings_full items : list (str * Setting)) (k name : str)
  (setting : Setting) :
  In (name, setting) items -> In k (names_of setting) ->
  has_key settings_full k = true ->
  covered settings_full items k = true.
Proof.
  intros Hin Hk Hfull. induction items as [|[n s] items IH]; simpl; [contradiction|].
  destruct Hin as [E | Hin].
  - injection E as -> ->. apply mem_In in Hk. rewrite Hk, Hfull. simpl.
    now rewrite orb_true_r.
  - rewrite IH by assumption. apply orb_true_r.
Qed.

(** X28.  When [_get_settings] returns, the settings of the profile are the
    settings whose name the propagator knows, and the settings of the
    parameters are these together with the settings that their expressions
    mention, one level deep: every one of them is a setting of
    [settings_full] under the same name, with the same content, and no other
    name is present. *)
Theorem get_settings_closes_over_expressions
  (settings_full settings_profile settings_params : list (str * Setting))
  (snames : list str) :
  dict_wf settings_full ->
  get_settings get_ast_names settings_full snames
  = Some (settings_profile, settings_params) ->
  (forall k, dict_get settings_profile k
             = if mem k snames then dict_get settings_full k else None)
  /\ (forall k, dict_get settings_params k
                = if covered settings_full settings_profile k
                  then dict_get settings_full k else None)
  /\ (forall k setting,
        dict_get settings_params k = Some setting ->
        dict_get settings_full k = Some setting)
  /\ (forall k setting,
        dict_get settings_profile k = Some setting ->
        dict_get settings_params k = Some setting)
  /\ (forall name setting k mentioned,
        In (name, setting) settings_profile -> In k (names_of setting) ->
        dict_get settings_full k = Some mentioned ->
        dict_get settings_params k = Some mentioned).
Proof.
  intros Hwf H. unfold get_settings in H.
  destruct (get_settings_loop _ _ _ _) as [res|] eqn:Hl; [|discriminate].
  simpl in H. injection H as <- <-.
  set (profile := filter (fun kv => mem (fst kv) snames) settings_full) in *.
  assert (Hprofile : forall k, dict_get profile k
                               = if mem k snames then dict_get settings_full k
                                 else None).
  { intros k. unfold profile.
    apply (dict_get_filter_keys (fun name => mem name snames)). }
  assert (Hitems : forall name setting, In (name, setting) profile ->
                     dict_get settings_full name = Some setting).
  { intros name setting Hin. apply dict_get_of_In; auto.
    unfold profile in Hin. now apply filter_In in Hin as [Hin _]. }
  assert (Hres : forall k, dict_get res k
                           = if covered settings_full profile k
                             then dict_get settings_full k else None).
  { intros k. now rewrite (get_settings_loop_get _ _ _ _ k Hitems Hl). }
  repeat apply conj; auto.
  - intros k setting. rewrite Hres.
    now destruct (covered settings_full profile k).
  - intros k setting Hk. rewrite Hres.
    rewrite (covered_name settings_full profile k setting Hk).
    rewrite Hprofile in Hk. now destruct (mem k snames).
  - intros name setting k mentioned Hin Hk Hfull. rewrite Hres.
    rewrite (covered_named settings_full profile k name setting Hin Hk); auto.
    unfold has_key. now rewrite Hfull.
Qed.

End GetSettings.

Lemma get_settings_closes_over_expressions_witness :
  let names := fun expr : str => Some (match expr with [] => [] | _ => [expr] end) in
  let full := [(lit "r2_a", [(lit "expr", VStr (lit "r2_b"))]);
               (lit "r2_b", [(lit "value", VNum 1)]);
               (lit "dw_ab", [(lit "value", VNum 2)])] in
  exists profile params,
    get_settings names full [lit "r2_a"] = Some (profile, params)
    /\ dict_get params (lit "r2_b") = Some [(lit "value", VNum 1)]
    /\ dict_get params (lit "dw_ab") = None.
Proof.
  intros names full.
  destruct (get_settings names full [lit "r2_a"]) as [[profile params]|] eqn:E;
    [|discriminate].
  exists profile, params. split; [reflexivity|].
  assert (Hwf : dict_wf full).
  { repeat constructor; simpl; intuition discriminate. }
  destruct (get_settings_closes_over_expressions names full profile params
              [lit "r2_a"] Hwf E) as (_ & Hp & _).
  injection E as <- <-. split; rewrite Hp; reflexivity.
Defined.

Set Implicit Arguments.

End SettingsFacts.

(** ** Monte Carlo replicates of a filtered profile *)

Module MonteCarloFacts.
Import PyStr ParamHelper Numpy NumpyFacts Cest CestOps CestFacts CestSumFacts.

Unset Implicit Arguments.

Section MonteCarlo.
Variable get_scale : list Q -> list Q -> list Q -> Q.
Variable normal : nat -> Q.

Lemma select_le {A : Type} (a : list A) (m : list bool) :
  length (select a m) <= length a.
Proof.
  revert m. induction a as [|x a IH]; intros [|b m]; simpl; try lia.
  destruct b; simpl; specialize (IH m); lia.
Qed.

(** X29.  For a profile whose mask has one entry per point, whose pulse
    sequence returns one value per offset and whose parameters are all
    present, [monte_carlo] returns exactly when every point is in the fit,
    or a single point is: with any other number of points in the fit the
    calculated intensities cannot be added to the noise, and the call
    raises.  Whenever it returns, offsets and uncertainties are those of the
    profile. *)
Theorem monte_carlo_returns_iff (profile : CestProfile) (params : ParamSet)
  (pv : ParVals) :
  length (mask (data profile)) = length (points (data profile)) ->
  (forall offs par,
      length (ps_calculate (pulse_seq profile) offs par) = length offs) ->
  get_parvals profile params = Some pv ->
  let in_fit := count_occ bool_dec (mask (data profile)) true in
  ((in_fit = length (points (data profile)) \/ in_fit = 1)
   <-> exists profile', monte_carlo get_scale normal profile params = Some profile')
  /\ forall profile',
       monte_carlo get_scale normal profile params = Some profile' ->
       map errors (points (data profile')) = map errors (points (data profile))
       /\ map offsets (points (data profile'))
          = map offsets (points (data profile)).
Proof.
  intros Hlen Hshape Hpv. cbv zeta.
  split; [|intros profile' H; exact (@monte_carlo_keeps_errors _ _ _ _ _ H)].
  destruct (residuals_closed get_scale profile params Hlen Hshape Hpv) as [Hc _].
  set (d := select (points (data profile)) (mask (data profile))) in *.
  set (ref := map (Qmult _) _) in Hc.
  assert (Hk : length ref = count_occ bool_dec (mask (data profile)) true).
  { unfold ref. rewrite length_map, Hshape, length_map. unfold d.
    apply select_length. now symmetry. }
  assert (Hle : length ref <= length (points (data profile))).
  { unfold ref. rewrite length_map, Hshape, length_map. apply select_le. }
  rewrite <- Hk. unfold monte_carlo. rewrite Hc. simpl.
  unfold CestData_monte_carlo.
  rewrite np_zip_same by (now rewrite randn_length, length_map). simpl.
  set (noise := map2 Qmult _ _).
  assert (Hnoise : length noise = length (points (data profile))).
  { unfold noise. rewrite map2_length; rewrite randn_length, ?length_map; auto. }
  split.
  - intros [E | E].
    + rewrite np_zip_same by congruence. simpl.
      rewrite set_intensities_same by (rewrite map2_length; congruence).
      simpl. eauto.
    + destruct ref as [|x [|x2 ref]]; try discriminate.
      rewrite np_zip_singleton_l. simpl.
      rewrite set_intensities_same by (rewrite length_map; congruence).
      simpl. eauto.
  - intros [profile' H].
    destruct (Nat.eq_dec (length ref) (length (points (data profile)))) as [E|E];
      [now left | right].
    destruct (Nat.eq_dec (length ref) 1) as [E1|E1]; [exact E1 | exfalso].
    destruct (Nat.eq_dec (length noise) 1) as [En|En].
    + assert (Hr : ref = []) by (destruct ref; [reflexivity | simpl in *; lia]).
      rewrite Hr in H. destruct noise as [|y [|y2 noise]]; try discriminate.
      simpl in H. unfold set_intensities in H. rewrite <- Hnoise in H.
      simpl in H. discriminate.
    + rewrite np_zip_mismatch in H by congruence. discriminate.
Qed.

End MonteCarlo.

Lemma monte_carlo_returns_iff_witness :
  (exists profile',
     monte_carlo lstsq_scale (fun _ => 1%Q) CestProfileFacts.profile_in_fit []
     = Some profile')
  /\ monte_carlo lstsq_scale (fun _ => 1%Q) profile_with_masked_point [] = None.
Proof.
  split.
  - apply (monte_carlo_returns_iff lstsq_scale (fun _ => 1%Q)
             CestProfileFacts.profile_in_fit [] [] eq_refl
             (cest_15n_cw_shape flat_propagator) eq_refl).
    left. reflexivity.
  - destruct (monte_carlo lstsq_scale (fun _ => 1%Q) profile_with_masked_point [])
      as [profile'|] eqn:E; [|reflexivity].
    exfalso.
    destruct (proj2 (proj1 (monte_carlo_returns_iff lstsq_scale (fun _ => 1%Q)
                              profile_with_masked_point [] [] eq_refl
                              (cest_15n_cw_shape flat_propagator) eq_refl))
                    (ex_intro _ profile' E)) as [H | H];
      vm_compute in H; discriminate.
Defined.

Set Implicit Arguments.

End MonteCarloFacts.
